(** * Kuleli English Centre: the exam turn-flow controller and its service glue

    A shallow embedding of
    - [types.ts] (the enums and the feedback record),
    - [services/geminiService.ts] ([isQuotaError], [fetchWithRetry] and the
      exam-mode tail of [processStudentInput]),
    - [components/ExamMode.tsx] (the React component that drives one exam
      session: its state, refs, handlers, effects and asynchronous
      continuations),
    followed by the properties of the turn counter, the results history,
    the countdown and the retry helper.

    Modelling conventions.
    - A JavaScript [number] is an IEEE 754 binary64 value ([Number.number],
      with the arithmetic of the standard library's [SpecFloat]: round to
      nearest, ties to even).  The scores, the numbers of a parsed response
      and the arguments of [addWavHeader] are such numbers.  Whole seconds,
      byte values and lengths, all far below 2^53, are integers ([Z] or
      [nat]); the timer ring and the audio level, of which only bounds are
      stated, are exact rationals.
    - An object built by the code carries its prototype, since an
      assignment to the key [__proto__] sets it and property reads follow
      it.
    - A React render closes over the values of the [useState] cells; a
      handler therefore takes the snapshot [r : UI] it was created in and
      the live state [s : State].  State variables are read from [r], refs
      and functional updates ([setX(prev => ...)]) from [s].
    - Every [await] splits a function in two: the part before it runs in
      the handler, the part after it runs when the environment delivers the
      matching event.
    - The [setState] calls of one synchronous continuation are batched into
      one render (React 18), and the renders that follow an event have
      settled before the next event is handled.  *)

From Stdlib Require Import QArith ZArith String Ascii List.
From Stdlib.Strings Require Byte.
From Stdlib.Floats Require SpecFloat.
From stdpp Require Import base decidable option numbers list gmap strings sorting pretty.

Set Default Proof Using "Type".
Set Warnings "-register-all".

(* ===================================================================== *)
(** ** JavaScript numbers *)
(* ===================================================================== *)

Module Number.
Import SpecFloat.
#[local] Open Scope Z_scope.

(** binary64: 53 bits of precision, exponents below 1024. *)
Definition prec : Z := 53.
Definition emax : Z := 1024.

Abbreviation number := spec_float.

#[global] Instance number_eq_dec : EqDecision number.
Proof. solve_decision. Defined.

(** [x + y], [x * y] and [x / y] *)
Definition add : number → number → number := SFadd prec emax.
Definition mul : number → number → number := SFmul prec emax.

(** The number an integer literal denotes, and the number [k / 2] of a
    score given in half points (both exact within 53 bits). *)
Definition ofZ (z : Z) : number := binary_normalize prec emax z 0 false.
Definition halves (k : Z) : number := binary_normalize prec emax k (-1) false.

(** [ToBoolean]: zero and [NaN] are falsy. *)
Definition truthy (x : number) : bool :=
  match x with
  | S754_finite _ _ _ | S754_infinity _ => true
  | S754_zero _ | S754_nan => false
  end.

(** The integer that [ToUint16] and [ToUint32] reduce: 0 for [NaN], the
    zeros and the infinities, else the number truncated towards zero. *)
Definition integerPart (x : number) : Z :=
  match x with
  | S754_finite s m e =>
      cond_Zopp s
        (if decide (0 ≤ e) then Z.pos m * 2 ^ e else Z.pos m / 2 ^ (- e))
  | _ => 0
  end.

(** The real number a finite number stands for. *)
Definition toQ (x : number) : option Q :=
  match x with
  | S754_zero _ => Some 0%Q
  | S754_finite s m e => Some (inject_Z (cond_Zopp s (Z.pos m)) * 2 ^ e)%Q
  | _ => None
  end.

End Number.

(* ===================================================================== *)
(** ** types.ts *)
(* ===================================================================== *)

Module Types.

(** [export enum ExamPart { INTRO = 1, PICTURE = 2, DISCUSSION = 3 }]: a
    numeric enum; the component computes [prev + 1] on it and uses it as a
    key of [resultsHistory]. *)
Abbreviation ExamPart := N.

Definition INTRO : ExamPart := 1%N.
Definition PICTURE : ExamPart := 2%N.
Definition DISCUSSION : ExamPart := 3%N.

Inductive ExamStatus :=
| IDLE
| AI_SPEAKING
| USER_PREP
| USER_SPEAKING
| PROCESSING
| PART_COMPLETED
| COMPLETED.

#[global] Instance ExamStatus_eq_dec : EqDecision ExamStatus.
Proof. solve_decision. Defined.

Record Mistake := {
  mistake : string;
  correction : string;
  type : string;
}.

Record FeedbackData := {
  taskAchievementScore : Number.number;
  pronunciationScore : Number.number;
  grammarScore : Number.number;
  fluencyCoherenceScore : Number.number;
  (* optional scoring fields, only filled in by the free-speaking mode *)
  fluencyScore : option Number.number;
  vocabularyScore : option Number.number;
  idiomScore : option Number.number;
  feedbackText : string;
  mistakesAndCorrections : list Mistake;
  weaknesses : list string;
  improvements : list string;
}.

End Types.

(* ===================================================================== *)
(** ** services/geminiService.ts *)
(* ===================================================================== *)

Module GeminiService.

(** *** Strings *)

(** [hay.includes(needle)] *)
Fixpoint includes_from (needle hay : string) : bool :=
  String.prefix needle hay ||
  match hay with
  | EmptyString => false
  | String _ rest => includes_from needle rest
  end.

Definition includes (hay needle : string) : bool := includes_from needle hay.

Definition lower_ascii (c : ascii) : ascii :=
  let n := nat_of_ascii c in
  if (65 <=? n)%nat && (n <=? 90)%nat then ascii_of_nat (n + 32) else c.

(** [s.toLowerCase()] on the ASCII range *)
Fixpoint toLowerCase (s : string) : string :=
  match s with
  | EmptyString => EmptyString
  | String c rest => String (lower_ascii c) (toLowerCase rest)
  end.

(** [s.replace(/\*/g, '')] *)
Fixpoint removeStars (s : string) : string :=
  match s with
  | EmptyString => EmptyString
  | String c rest =>
      if Ascii.eqb c "*"%char then removeStars rest
      else String c (removeStars rest)
  end.

(** *** Errors and the quota test *)

(** What [isQuotaError] looks at in a thrown value: its [message] and
    [status] properties when present, and the text
    [JSON.stringify(error) || String(error)].  A [message] that is present
    is a string, as on every [Error]; the code calls [includes] on it, which
    throws on other values, and those are left out. *)
Record JsError := {
  message : option string;
  status : option Z;
  errorString : string;
}.

Definition isQuotaError (error : JsError) : bool :=
  match message error with Some m => includes m "429" | None => false end
  || match status error with Some n => (n =? 429)%Z | None => false end
  || includes (errorString error) "429"
  || includes (errorString error) "RESOURCE_EXHAUSTED"
  || includes (toLowerCase (errorString error)) "quota".

(** *** fetchWithRetry *)

(** The outcome of one call of [fn()]: the promise resolves or rejects. *)
Inductive Outcome (T : Type) :=
| Resolved (value : T)
| Rejected (error : JsError).
Arguments Resolved {T} value.
Arguments Rejected {T} error.

(** What one run of [fetchWithRetry] did: how it settled, how often it
    called [fn], and the delays it slept between the calls, in order. *)
Record Run (T : Type) := {
  settled : Outcome T;
  calls : nat;
  delays : list Z;
}.
Arguments settled {T} _.
Arguments calls {T} _.
Arguments delays {T} _.

(** [fn] is effectful: its [k]-th call (counting from [attempt]) settles as
    [fn k].  The recursion is on [retries], as in the source. *)
Fixpoint fetchWithRetry_from {T} (fn : nat → Outcome T) (attempt : nat)
    (retries : nat) (delay : Z) : Run T :=
  match fn attempt with
  | Resolved v => {| settled := Resolved v; calls := 1; delays := [] |}
  | Rejected error =>
      match retries with
      | S retries' =>
          if isQuotaError error then
            let rest := fetchWithRetry_from fn (S attempt) retries' (delay * 2) in
            {| settled := settled rest;
               calls := S (calls rest);
               delays := delay :: delays rest |}
          else {| settled := Rejected error; calls := 1; delays := [] |}
      | O => {| settled := Rejected error; calls := 1; delays := [] |}
      end
  end.

(** [fetchWithRetry(fn, retries = 5, delay = 2000)]; no caller overrides the
    defaults. *)
Definition fetchWithRetry {T} (fn : nat → Outcome T) : Run T :=
  fetchWithRetry_from fn 0 5 2000.

(** *** JSON values and the exam-mode result *)

(** The value [JSON.parse] returns, by the text it was parsed from: an
    object is given by its members in source order, and a later member
    takes the place of an earlier one of the same name. *)
Inductive json :=
| JNull
| JBool (b : bool)
| JNumber (x : Number.number)
| JString (s : string)
| JArray (items : list json)
| JObject (members : list (string * json)).

(** The values [clean] returns.  An object has its own properties, in the
    order of their creation, and a prototype: [None] is [Object.prototype],
    the prototype of every [{}]; [Some VNull] is no prototype at all;
    [Some p] is the object or array [p]. *)
Inductive value :=
| VNull
| VBool (b : bool)
| VNumber (x : Number.number)
| VString (s : string)
| VArray (items : list value)
| VObject (proto : option value) (members : list (string * value)).

(** The member of a parsed object that counts for a key: the last one. *)
Fixpoint lookup_last {A} (key : string) (members : list (string * A))
    : option A :=
  match members with
  | [] => None
  | (k, v) :: rest =>
      match lookup_last key rest with
      | Some v' => Some v'
      | None => if String.eqb k key then Some v else None
      end
  end.

(** An array index: a canonical numeric string below 2^32 - 1. *)
Definition digitValue (c : ascii) : option N :=
  let n := N_of_ascii c in
  if (48 <=? n)%N && (n <=? 57)%N then Some (n - 48)%N else None.

Fixpoint decimal (acc : N) (s : string) : option N :=
  match s with
  | EmptyString => Some acc
  | String c rest =>
      match digitValue c with
      | Some d => decimal (10 * acc + d)%N rest
      | None => None
      end
  end.

Definition arrayIndex (key : string) : option N :=
  match key with
  | EmptyString => None
  | String c rest =>
      if Ascii.eqb c "0" && negb (String.eqb rest "") then None
      else
        match decimal 0 key with
        | Some n => if (n <? 4294967295)%N then Some n else None
        | None => None
        end
  end.

(** The keys of a list of members, each once, at its first place. *)
Fixpoint firstOccurrences (seen keys : list string) : list string :=
  match keys with
  | [] => []
  | key :: keys =>
      if bool_decide (key ∈ seen) then firstOccurrences seen keys
      else key :: firstOccurrences (key :: seen) keys
  end.

(** The keys [for (const key in obj)] visits on a parsed object: the array
    indices in ascending order, then the other keys in the order of their
    creation. *)
Definition indexed (key : string) : option (N * string) :=
  match arrayIndex key with
  | Some n => Some (n, key)
  | None => None
  end.

Definition index_le (a b : N * string) : Prop := (a.1 ≤ b.1)%N.

#[global] Instance index_le_dec a b : Decision (index_le a b).
Proof. unfold index_le. apply _. Defined.

Definition forInKeys {A} (members : list (string * A)) : list string :=
  let keys := firstOccurrences [] members.*1 in
  (merge_sort index_le (omap indexed keys)).*2
  ++ filter (λ key, arrayIndex key = None) keys.

(** The own property of an object built by the code. *)
Fixpoint lookup_own (key : string) (members : list (string * value))
    : option value :=
  match members with
  | [] => None
  | (k, v) :: rest => if String.eqb k key then Some v else lookup_own key rest
  end.

Fixpoint store (key : string) (v : value) (members : list (string * value))
    : list (string * value) :=
  match members with
  | [] => [(key, v)]
  | (k, x) :: rest =>
      if String.eqb k key then (k, v) :: rest else (k, x) :: store key v rest
  end.

(** Whether an assignment to [obj.__proto__] reaches the accessor of
    [Object.prototype]: no object on the prototype chain, [obj] included,
    has an own property of that name, and the chain does not end in
    [null] before. *)
Fixpoint reachesAccessor (obj : value) : bool :=
  match obj with
  | VObject proto members =>
      match lookup_own "__proto__" members with
      | Some _ => false
      | None =>
          match proto with
          | Some p => reachesAccessor p
          | None => true
          end
      end
  | VArray _ => true
  | _ => false
  end.

(** [newObj[key] = v].  Under the key [__proto__] the accessor, when it is
    reached, makes an object, an array or [null] the prototype of [newObj]
    and ignores any other value; every other assignment creates or updates
    an own property. *)
Definition assign (newObj : value) (key : string) (v : value) : value :=
  match newObj with
  | VObject proto members =>
      if String.eqb key "__proto__" && reachesAccessor newObj then
        match v with
        | VNull | VArray _ | VObject _ _ => VObject (Some v) members
        | _ => newObj
        end
      else VObject proto (store key v members)
  | _ => newObj
  end.

(** One turn of the loop of [clean], [newObj[key] = clean(obj[key])], where
    [cleaned] holds [clean(obj[key])] for the members of [obj]. *)
Definition assignCleaned (cleaned : list (string * value)) (newObj : value)
    (key : string) : value :=
  match lookup_last key cleaned with
  | Some v => assign newObj key v
  | None => newObj
  end.

(** The local [clean] of [processStudentInput] and [processWritingInput],
    applied to what [JSON.parse] returned. *)
Fixpoint clean (obj : json) : value :=
  match obj with
  | JNull => VNull
  | JBool b => VBool b
  | JNumber x => VNumber x
  | JString s => VString (removeStars s)
  | JArray items => VArray (map clean items)
  | JObject members =>
      let cleaned :=
        map (λ kv, match kv with (key, v) => (key, clean v) end) members in
      foldl (assignCleaned cleaned) (VObject None []) (forInKeys members)
  end.

(** The names that [Object.prototype] defines. *)
Definition objectPrototypeKeys : list string :=
  ["constructor"; "hasOwnProperty"; "isPrototypeOf"; "propertyIsEnumerable";
   "toLocaleString"; "toString"; "valueOf"; "__proto__";
   "__defineGetter__"; "__defineSetter__"; "__lookupGetter__";
   "__lookupSetter__"].

(** [obj.key] for [obj ≠ null] and a key that is no array index, not
    [length] and no property of a built-in prototype (for a plain object,
    a key outside [objectPrototypeKeys]), as is every key the code reads:
    the own property, else the property of the prototype.  [None] is
    [undefined]. *)
Fixpoint prop (obj : value) (key : string) : option value :=
  match obj with
  | VObject proto members =>
      match lookup_own key members with
      | Some v => Some v
      | None =>
          match proto with
          | Some p => prop p key
          | None => None
          end
      end
  | _ => None
  end.

(** JavaScript truthiness. *)
Definition truthy (v : value) : bool :=
  match v with
  | VNull => false
  | VBool b => b
  | VNumber x => Number.truthy x
  | VString s => negb (String.eqb s "")
  | VArray _ | VObject _ _ => true
  end.

(** [x || d] where [x] may be [undefined] *)
Definition or_default (x : option value) (d : value) : value :=
  match x with
  | Some v => if truthy v then v else d
  | None => d
  end.

(** The record [processStudentInput] builds; the fields are whatever the
    parsed response holds ([cleanedJson] has type [any]). *)
Record RawFeedback := {
  raw_taskAchievementScore : value;
  raw_pronunciationScore : value;
  raw_grammarScore : value;
  raw_fluencyCoherenceScore : value;
  raw_feedbackText : value;
  raw_mistakesAndCorrections : value;
  raw_weaknesses : value;
  raw_improvements : value;
}.

Record RawResult := {
  raw_reply : option value;
  raw_moveNext : option value;
  raw_feedback : RawFeedback;
}.

(** The tail of [processStudentInput] in exam mode, from
    [const json = JSON.parse(rawText)] on.  [None] is the [TypeError] of
    reading a property of [null]. *)
Definition examResult (parsed : json) : option RawResult :=
  let cleanedJson := clean parsed in
  match cleanedJson with
  | VNull => None
  | _ =>
      Some {|
        raw_reply := prop cleanedJson "replyText";
        raw_moveNext := prop cleanedJson "examMoveToNext";
        raw_feedback := {|
          raw_taskAchievementScore :=
            or_default (prop cleanedJson "taskAchievementScore")
              (VNumber (Number.ofZ 0));
          raw_pronunciationScore :=
            or_default (prop cleanedJson "pronunciationScore")
              (VNumber (Number.ofZ 0));
          raw_grammarScore :=
            or_default (prop cleanedJson "grammarScore")
              (VNumber (Number.ofZ 0));
          raw_fluencyCoherenceScore :=
            or_default (prop cleanedJson "fluencyCoherenceScore")
              (VNumber (Number.ofZ 0));
          raw_feedbackText :=
            or_default (prop cleanedJson "feedbackText") (VString "");
          raw_mistakesAndCorrections :=
            or_default (prop cleanedJson "mistakesAndCorrections") (VArray []);
          raw_weaknesses :=
            or_default (prop cleanedJson "weaknesses") (VArray []);
          raw_improvements :=
            or_default (prop cleanedJson "improvements") (VArray []);
        |}
      |}
  end.

End GeminiService.

(* ===================================================================== *)
(** ** components/ExamMode.tsx: state *)
(* ===================================================================== *)

Module ExamMode.
Import Types.
#[local] Open Scope Z_scope.

Record Props := {
  initialPart : ExamPart;
  isStandalone : bool;
}.

(** The [useState] cells.  [examImages] and [micStream] only feed the
    rendering and are left out. *)
Record UI := {
  hasStarted : bool;
  part : ExamPart;
  status : ExamStatus;
  aiMessage : string;
  currentFeedback : option FeedbackData;
  resultsHistory : gmap N FeedbackData;
  quotaError : bool;
  timeLeft : Z;
  totalTime : Z;
  isRecording : bool;
}.

(** A [MediaRecorder]: whether its state is ['recording'], and the render
    its [onstop] handler closes over. *)
Record MediaRecorder := {
  recording : bool;
  onstop : UI;
}.

(** The [useRef] cells.  [audioRef] records whether the [<audio>] element is
    mounted ([audioRef.current] is not null), [audioOnEnded] is the
    [onended] handler of that element while a playback is running, and
    [introAudioUrlRef] records whether a prefetched URL is stored.
    [secretTopicRef] and [chunksRef] only feed the request to the
    evaluation service and are left out. *)
Record Refs := {
  isNewPartRef : bool;
  autoAdvanceRef : bool;
  turnCountRef : Z;
  mediaRecorderRef : option MediaRecorder;
  introAudioUrlRef : bool;
  audioRef : bool;
  audioOnEnded : option UI;
}.

(** Asynchronous work in flight: each task is the continuation after an
    [await] (or a DOM callback), with the render it closes over. *)
Inductive Task :=
| Prefetch                                  (* prefetchIntro: await synthesizeSpeech *)
| SetupTopic (r : UI) (targetPart : ExamPart) (* setupNextPart: await generateExamTopic *)
| SetupImages (r : UI)                      (* setupNextPart: await Promise.all(images) *)
| Synth (r : UI)                            (* playAiAudio: await synthesizeSpeech *)
| Timeout (r : UI)                          (* playAiAudio: setTimeout(..., 2000) *)
| MicRequest (r : UI)                       (* startRecording: await getUserMedia *)
| StopEvent (r : UI)                        (* recorder stopped, onstop not yet run *)
| Submission (r : UI) (nextTurn : Z).       (* handleSubmission: await processStudentInput *)

Record State := {
  props : Props;
  ui : UI;
  refs : Refs;
  tasks : list Task;
}.

(** *** Setters *)

Definition with_ui (f : UI → UI) (s : State) : State :=
  {| props := props s; ui := f (ui s); refs := refs s; tasks := tasks s |}.

Definition with_refs (f : Refs → Refs) (s : State) : State :=
  {| props := props s; ui := ui s; refs := f (refs s); tasks := tasks s |}.

Definition with_tasks (f : list Task → list Task) (s : State) : State :=
  {| props := props s; ui := ui s; refs := refs s; tasks := f (tasks s) |}.

Definition setHasStarted (v : bool) : State → State :=
  with_ui (λ u,
    {| hasStarted := v; part := part u; status := status u;
       aiMessage := aiMessage u; currentFeedback := currentFeedback u;
       resultsHistory := resultsHistory u; quotaError := quotaError u;
       timeLeft := timeLeft u; totalTime := totalTime u;
       isRecording := isRecording u |}).

(** [setPart(prev => f prev)] *)
Definition setPart (f : ExamPart → ExamPart) : State → State :=
  with_ui (λ u,
    {| hasStarted := hasStarted u; part := f (part u); status := status u;
       aiMessage := aiMessage u; currentFeedback := currentFeedback u;
       resultsHistory := resultsHistory u; quotaError := quotaError u;
       timeLeft := timeLeft u; totalTime := totalTime u;
       isRecording := isRecording u |}).

Definition setStatus (v : ExamStatus) : State → State :=
  with_ui (λ u,
    {| hasStarted := hasStarted u; part := part u; status := v;
       aiMessage := aiMessage u; currentFeedback := currentFeedback u;
       resultsHistory := resultsHistory u; quotaError := quotaError u;
       timeLeft := timeLeft u; totalTime := totalTime u;
       isRecording := isRecording u |}).

Definition setAiMessage (v : string) : State → State :=
  with_ui (λ u,
    {| hasStarted := hasStarted u; part := part u; status := status u;
       aiMessage := v; currentFeedback := currentFeedback u;
       resultsHistory := resultsHistory u; quotaError := quotaError u;
       timeLeft := timeLeft u; totalTime := totalTime u;
       isRecording := isRecording u |}).

Definition setCurrentFeedback (v : option FeedbackData) : State → State :=
  with_ui (λ u,
    {| hasStarted := hasStarted u; part := part u; status := status u;
       aiMessage := aiMessage u; currentFeedback := v;
       resultsHistory := resultsHistory u; quotaError := quotaError u;
       timeLeft := timeLeft u; totalTime := totalTime u;
       isRecording := isRecording u |}).

(** [setResultsHistory(prev => f prev)] *)
Definition setResultsHistory (f : gmap N FeedbackData → gmap N FeedbackData)
    : State → State :=
  with_ui (λ u,
    {| hasStarted := hasStarted u; part := part u; status := status u;
       aiMessage := aiMessage u; currentFeedback := currentFeedback u;
       resultsHistory := f (resultsHistory u); quotaError := quotaError u;
       timeLeft := timeLeft u; totalTime := totalTime u;
       isRecording := isRecording u |}).

Definition setQuotaError (v : bool) : State → State :=
  with_ui (λ u,
    {| hasStarted := hasStarted u; part := part u; status := status u;
       aiMessage := aiMessage u; currentFeedback := currentFeedback u;
       resultsHistory := resultsHistory u; quotaError := v;
       timeLeft := timeLeft u; totalTime := totalTime u;
       isRecording := isRecording u |}).

(** [setTimeLeft(prev => f prev)]; a plain [setTimeLeft(v)] is
    [setTimeLeft (λ _, v)]. *)
Definition setTimeLeft (f : Z → Z) : State → State :=
  with_ui (λ u,
    {| hasStarted := hasStarted u; part := part u; status := status u;
       aiMessage := aiMessage u; currentFeedback := currentFeedback u;
       resultsHistory := resultsHistory u; quotaError := quotaError u;
       timeLeft := f (timeLeft u); totalTime := totalTime u;
       isRecording := isRecording u |}).

Definition setTotalTime (v : Z) : State → State :=
  with_ui (λ u,
    {| hasStarted := hasStarted u; part := part u; status := status u;
       aiMessage := aiMessage u; currentFeedback := currentFeedback u;
       resultsHistory := resultsHistory u; quotaError := quotaError u;
       timeLeft := timeLeft u; totalTime := v;
       isRecording := isRecording u |}).

Definition setIsRecording (v : bool) : State → State :=
  with_ui (λ u,
    {| hasStarted := hasStarted u; part := part u; status := status u;
       aiMessage := aiMessage u; currentFeedback := currentFeedback u;
       resultsHistory := resultsHistory u; quotaError := quotaError u;
       timeLeft := timeLeft u; totalTime := totalTime u;
       isRecording := v |}).

Definition set_isNewPartRef (v : bool) : State → State :=
  with_refs (λ f,
    {| isNewPartRef := v; autoAdvanceRef := autoAdvanceRef f;
       turnCountRef := turnCountRef f; mediaRecorderRef := mediaRecorderRef f;
       introAudioUrlRef := introAudioUrlRef f; audioRef := audioRef f;
       audioOnEnded := audioOnEnded f |}).

Definition set_autoAdvanceRef (v : bool) : State → State :=
  with_refs (λ f,
    {| isNewPartRef := isNewPartRef f; autoAdvanceRef := v;
       turnCountRef := turnCountRef f; mediaRecorderRef := mediaRecorderRef f;
       introAudioUrlRef := introAudioUrlRef f; audioRef := audioRef f;
       audioOnEnded := audioOnEnded f |}).

Definition set_turnCountRef (v : Z) : State → State :=
  with_refs (λ f,
    {| isNewPartRef := isNewPartRef f; autoAdvanceRef := autoAdvanceRef f;
       turnCountRef := v; mediaRecorderRef := mediaRecorderRef f;
       introAudioUrlRef := introAudioUrlRef f; audioRef := audioRef f;
       audioOnEnded := audioOnEnded f |}).

Definition set_mediaRecorderRef (v : option MediaRecorder) : State → State :=
  with_refs (λ f,
    {| isNewPartRef := isNewPartRef f; autoAdvanceRef := autoAdvanceRef f;
       turnCountRef := turnCountRef f; mediaRecorderRef := v;
       introAudioUrlRef := introAudioUrlRef f; audioRef := audioRef f;
       audioOnEnded := audioOnEnded f |}).

Definition set_introAudioUrlRef (v : bool) : State → State :=
  with_refs (λ f,
    {| isNewPartRef := isNewPartRef f; autoAdvanceRef := autoAdvanceRef f;
       turnCountRef := turnCountRef f; mediaRecorderRef := mediaRecorderRef f;
       introAudioUrlRef := v; audioRef := audioRef f;
       audioOnEnded := audioOnEnded f |}).

Definition set_audioOnEnded (v : option UI) : State → State :=
  with_refs (λ f,
    {| isNewPartRef := isNewPartRef f; autoAdvanceRef := autoAdvanceRef f;
       turnCountRef := turnCountRef f; mediaRecorderRef := mediaRecorderRef f;
       introAudioUrlRef := introAudioUrlRef f; audioRef := audioRef f;
       audioOnEnded := v |}).

Definition set_audioRef (v : bool) : State → State :=
  with_refs (λ f,
    {| isNewPartRef := isNewPartRef f; autoAdvanceRef := autoAdvanceRef f;
       turnCountRef := turnCountRef f; mediaRecorderRef := mediaRecorderRef f;
       introAudioUrlRef := introAudioUrlRef f; audioRef := v;
       audioOnEnded := audioOnEnded f |}).

(** Start an asynchronous operation / take a settled one off the list. *)
Definition spawn (t : Task) : State → State := with_tasks (λ ts, ts ++ [t]).
Definition settle (i : nat) : State → State := with_tasks (delete i).

(* ===================================================================== *)
(** ** components/ExamMode.tsx: handlers *)
(* ===================================================================== *)

Definition welcome (initialPart : ExamPart) : string :=
  if decide (initialPart = INTRO) then
    "Welcome to the Speaking Exam. In Part 1, I'd like you to introduce yourself. Please tell me about your background, hobbies, and studies."
  else if decide (initialPart = PICTURE) then
    "Welcome. We will now begin Part 2: Picture Comparison. Please wait while I prepare the topics for you."
  else
    "Welcome. We will now begin Part 3: Discussion. Please wait while I prepare a topic for you.".

Definition pictureInstructions : string :=
  "Part 2: Picture Comparison. Look at these two subjects and compare them. Think about the differences and similarities. You have 1 minute to prepare.".

Definition discussionInstructions (question : string) : string :=
  ("Part 3: Discussion. " ++ question ++ " You have 1 minute to prepare.")%string.

Definition apology : string :=
  "I'm sorry, I had trouble processing that. Please try again.".

(** Which of the component's four [return]s the render takes. *)
Inductive Screen := StartScreen | ResultsScreen | SummaryScreen | MainScreen.

#[global] Instance Screen_eq_dec : EqDecision Screen.
Proof. solve_decision. Defined.

Definition screen (u : UI) : Screen :=
  if negb (hasStarted u) then StartScreen
  else if decide (status u = COMPLETED) then ResultsScreen
  else if decide (status u = PART_COMPLETED) then
    match currentFeedback u with
    | Some _ => SummaryScreen
    | None => MainScreen
    end
  else MainScreen.

(** [startRecording]: up to [await getUserMedia]. *)
Definition startRecording (r : UI) (s : State) : State :=
  spawn (MicRequest r) s.

(** [startRecording]: after [getUserMedia] resolved. *)
Definition startRecording_granted (r : UI) (s : State) : State :=
  let s := set_mediaRecorderRef (Some {| recording := true; onstop := r |}) s in
  setIsRecording true s.

(** [recorder.stop()]: schedules the [stop] event; on an inactive recorder
    it throws ([None]). *)
Definition stop (rec : MediaRecorder) (s : State) : option State :=
  if recording rec then
    let s := set_mediaRecorderRef
               (Some {| recording := false; onstop := onstop rec |}) s in
    Some (spawn (StopEvent (onstop rec)) s)
  else None.

Definition stopRecording (r : UI) (s : State) : State :=
  match mediaRecorderRef (refs s) with
  | Some rec =>
      if isRecording r then
        match stop rec s with
        | Some s =>
            let s := setIsRecording false s in
            setStatus PROCESSING s
        | None => s
        end
      else s
  | None => s
  end.

Definition playAudioUrl (r : UI) (s : State) : State :=
  let s := setStatus AI_SPEAKING s in
  if audioRef (refs s) then set_audioOnEnded (Some r) s else s.

(** [playAiAudio]: up to [await synthesizeSpeech], which never rejects. *)
Definition playAiAudio (r : UI) (s : State) : State :=
  let s := setStatus AI_SPEAKING s in
  spawn (Synth r) s.

Definition handleAiFinishedSpeaking (r : UI) (s : State) : State :=
  if decide (status r = COMPLETED ∨ status r = PART_COMPLETED) then s
  else if decide (part r = INTRO) then
    let s := setStatus USER_SPEAKING s in
    if isNewPartRef (refs s) then
      let s := setTimeLeft (λ _, 120) s in
      let s := setTotalTime 120 s in
      let s := set_isNewPartRef false s in
      startRecording r s
    else
      startRecording r s
  else if decide (part r = PICTURE ∨ part r = DISCUSSION) then
    if isNewPartRef (refs s) then
      let s := setStatus USER_PREP s in
      let s := setTimeLeft (λ _, 60) s in
      setTotalTime 60 s
    else
      let s := setStatus USER_SPEAKING s in
      startRecording r s
  else
    setStatus IDLE s.

(** [setupNextPart]: up to the first [await]. *)
Definition setupNextPart (r : UI) (targetPart : ExamPart) (s : State) : State :=
  let s := setStatus PROCESSING s in
  let s := set_turnCountRef 0 s in
  if decide (targetPart = PICTURE ∨ targetPart = DISCUSSION)
  then spawn (SetupTopic r targetPart) s
  else s.

(** [setupNextPart]: after [generateExamTopic] resolved. *)
Definition setupNextPart_topic (r : UI) (targetPart : ExamPart)
    (topic : string) (s : State) : State :=
  if decide (targetPart = PICTURE) then
    let s := setAiMessage pictureInstructions s in
    spawn (SetupImages r) s
  else if decide (targetPart = DISCUSSION) then
    let s := setAiMessage (discussionInstructions topic) s in
    playAiAudio r s
  else s.

(** [handleSubmission]: up to [await processStudentInput].  The request
    (audio, context string, part, [nextTurn]) only influences the answer of
    the service, which arrives with the event. *)
Definition handleSubmission (r : UI) (s : State) : State :=
  let s := setQuotaError false s in
  let nextTurn := turnCountRef (refs s) + 1 in
  spawn (Submission r nextTurn) s.

(** What [processStudentInput] resolves to. *)
Record EvalResult := {
  reply : string;
  feedback : FeedbackData;
  moveNext : bool;
}.

(** [handleSubmission]: after [processStudentInput] resolved. *)
Definition handleSubmission_resolved (r : UI) (nextTurn : Z)
    (result : EvalResult) (s : State) : State :=
  let s := set_turnCountRef nextTurn s in
  let s := setCurrentFeedback (Some (feedback result)) s in
  let shouldFinish :=
    moveNext result || autoAdvanceRef (refs s) || bool_decide (3 ≤ nextTurn) in
  if shouldFinish then
    let s := setResultsHistory (λ prev, <[part r := feedback result]> prev) s in
    let s := setStatus PART_COMPLETED s in
    set_autoAdvanceRef false s
  else
    let s := setAiMessage (reply result) s in
    playAiAudio r s.

(** [handleSubmission]: the [catch] branch. *)
Definition handleSubmission_rejected (s : State) : State :=
  let s := setQuotaError true s in
  let s := setAiMessage apology s in
  setStatus IDLE s.

Definition handleFinishWillingly (r : UI) (s : State) : State :=
  match currentFeedback r with
  | Some fb =>
      let s := setResultsHistory (λ prev, <[part r := fb]> prev) s in
      setStatus PART_COMPLETED s
  | None =>
      let s := set_autoAdvanceRef true s in
      if isRecording r then stopRecording r s
      else setStatus PART_COMPLETED s
  end.

Definition skippedFeedback : FeedbackData := {|
  taskAchievementScore := Number.ofZ 0;
  pronunciationScore := Number.ofZ 0;
  grammarScore := Number.ofZ 0;
  fluencyCoherenceScore := Number.ofZ 0;
  fluencyScore := None;
  vocabularyScore := None;
  idiomScore := None;
  feedbackText := "Part skipped by student.";
  mistakesAndCorrections := [];
  weaknesses := [];
  improvements := [];
|}.

(** The body of [handleSkipPart] after the recorder was dealt with. *)
Definition handleSkipPart_rest (r : UI) (s : State) : State :=
  let s := setResultsHistory (λ prev, <[part r := skippedFeedback]> prev) s in
  let s := setCurrentFeedback (Some skippedFeedback) s in
  let s := setStatus PART_COMPLETED s in
  let s := if audioRef (refs s) then set_audioOnEnded None s else s in
  setAiMessage "Part skipped." s.

Definition handleSkipPart (r : UI) (s : State) : State :=
  if isRecording r then
    match mediaRecorderRef (refs s) with
    | Some rec =>
        match stop rec s with
        | Some s => handleSkipPart_rest r (setIsRecording false s)
        | None => s
        end
    | None => handleSkipPart_rest r (setIsRecording false s)
    end
  else handleSkipPart_rest r s.

Definition advancePart (r : UI) (s : State) : State :=
  if isStandalone (props s) || bool_decide (part r = DISCUSSION) then
    setStatus COMPLETED s
  else
    let s := setStatus PROCESSING s in
    let s := set_isNewPartRef true s in
    let s := setCurrentFeedback None s in
    setPart (λ prev, (prev + 1)%N) s.

Definition handlePrepDone (r : UI) (s : State) : State :=
  let s := setStatus USER_SPEAKING s in
  let s := setTimeLeft (λ _, 120) s in
  let s := setTotalTime 120 s in
  let s := set_isNewPartRef false s in
  startRecording r s.

Definition handleSpeakingDone (r : UI) (s : State) : State := stopRecording r s.

Definition handleStartExam (s : State) : State := setHasStarted true s.

Definition calculateTotalScore_fold (acc : Number.number) (f : FeedbackData)
    : Number.number :=
  Number.add
    (Number.add
       (Number.add (Number.add acc (taskAchievementScore f))
          (pronunciationScore f))
       (grammarScore f))
    (fluencyCoherenceScore f).

(** [Object.values(resultsHistory)]: the keys are integer indices, which
    JavaScript enumerates in ascending order. *)
Definition key_le (a b : N * FeedbackData) : Prop := (a.1 ≤ b.1)%N.

#[global] Instance key_le_dec a b : Decision (key_le a b).
Proof. unfold key_le. apply _. Defined.

Definition Object_values (o : gmap N FeedbackData) : list FeedbackData :=
  (merge_sort key_le (map_to_list o)).*2.

Definition calculateTotalScore (u : UI) : Number.number :=
  foldl calculateTotalScore_fold (Number.ofZ 0)
    (Object_values (resultsHistory u)).

(* ===================================================================== *)
(** ** components/ExamMode.tsx: effects, events and the step function *)
(* ===================================================================== *)

(** [shouldRunTimer] of the timer effect: an interval is installed exactly
    for the renders where it holds. *)
Definition shouldRunTimer (r : UI) : bool :=
  (bool_decide (status r = USER_PREP) || bool_decide (status r = USER_SPEAKING))
  && bool_decide (0 < timeLeft r).

(** The callback of [setInterval]. *)
Definition tick (s : State) : State :=
  setTimeLeft (λ prev, if bool_decide (prev ≤ 1) then 0 else prev - 1) s.

(** The body of the timer effect, deps [[status, timeLeft, hasStarted,
    isRecording]]. *)
Definition timerEffect (r : UI) (s : State) : State :=
  if shouldRunTimer r then s
  else if bool_decide (timeLeft r = 0) && hasStarted r then
    if decide (status r = USER_PREP) then handlePrepDone r s
    else if bool_decide (status r = USER_SPEAKING) && isRecording r
    then handleSpeakingDone r s
    else s
  else s.

Definition timerDeps (r : UI) : ExamStatus * Z * bool * bool :=
  (status r, timeLeft r, hasStarted r, isRecording r).

(** The body of the part effect, deps [[hasStarted, part]]. *)
Definition partEffect (r : UI) (s : State) : State :=
  if hasStarted r then
    if bool_decide (part r = INTRO) && isNewPartRef (refs s) then
      if introAudioUrlRef (refs s) then
        let s := playAudioUrl r s in
        set_introAudioUrlRef false s
      else playAiAudio r s
    else if isNewPartRef (refs s) then setupNextPart r (part r) s
    else s
  else s.

Definition partDeps (r : UI) : bool * ExamPart := (hasStarted r, part r).

(** React commits the render of [ui s]: the ref of the [<audio>] element is
    attached (or cleared, which also drops a running playback), then the
    effects whose deps differ from those of the previous render [prev] run,
    in source order, all closing over the committed render. *)
Definition attachRefs (r : UI) (s : State) : State :=
  if decide (screen r = MainScreen) then set_audioRef true s
  else set_audioOnEnded None (set_audioRef false s).

Definition commit (prev : UI) (s : State) : State :=
  let r := ui s in
  let s := attachRefs r s in
  let s := if decide (timerDeps prev = timerDeps r) then s else timerEffect r s in
  if decide (partDeps prev = partDeps r) then s else partEffect r s.

(** What [synthesizeSpeech] resolves to. *)
Inductive SynthResult := FALLBACK_HANDLED | AudioUrl | NoAudio.

Inductive Event :=
(* buttons *)
| ClickStartExam
| ClickStartSpeakingNow
| ClickStartSpeaking
| ClickSubmitAnswer
| ClickFinish
| ClickSkip
| ClickContinue
| ClickDismissError
(* the interval of the timer effect *)
| Tick
(* completions of asynchronous work; [i] is the position in [tasks] *)
| PrefetchResolved (i : nat) (result : SynthResult)
| TopicResolved (i : nat) (topic : string)
| ImagesResolved (i : nat)
| SynthResolved (i : nat) (result : SynthResult)
| TimeoutFired (i : nat)
| PlaybackEnded
| MicGranted (i : nat)
| MicDenied (i : nat)
| RecorderStopped (i : nat)
| EvalResolved (i : nat) (result : EvalResult)
| EvalRejected (i : nat).

(** The render conditions of the buttons of the main screen. *)
Definition finishButton (s : State) : bool :=
  bool_decide (screen (ui s) = MainScreen)
  && bool_decide (status (ui s) = USER_SPEAKING)
  && negb (isRecording (ui s))
  && bool_decide (0 < turnCountRef (refs s)).

Definition skipButton (s : State) : bool :=
  bool_decide (screen (ui s) = MainScreen)
  && (bool_decide (status (ui s) = USER_PREP)
      || bool_decide (status (ui s) = USER_SPEAKING)).

(** One event, run by the handler the current render installed for it.  A
    click on a button that is not rendered, and a completion of a task that
    is not in flight, cannot happen: the state is left alone. *)
Definition dispatch (e : Event) (s : State) : State :=
  let r := ui s in
  match e with
  | ClickStartExam =>
      if decide (screen r = StartScreen) then handleStartExam s else s
  | ClickStartSpeakingNow =>
      if bool_decide (screen r = MainScreen) && bool_decide (status r = USER_PREP)
      then handlePrepDone r s else s
  | ClickStartSpeaking =>
      if bool_decide (screen r = MainScreen)
         && bool_decide (status r = USER_SPEAKING) && negb (isRecording r)
      then startRecording r s else s
  | ClickSubmitAnswer =>
      if bool_decide (screen r = MainScreen) && isRecording r
      then stopRecording r s else s
  | ClickFinish => if finishButton s then handleFinishWillingly r s else s
  | ClickSkip => if skipButton s then handleSkipPart r s else s
  | ClickContinue =>
      if decide (screen r = SummaryScreen) then advancePart r s else s
  | ClickDismissError =>
      if bool_decide (screen r = MainScreen) && quotaError r
      then setQuotaError false s else s
  | Tick => if shouldRunTimer r then tick s else s
  | PrefetchResolved i result =>
      match tasks s !! i with
      | Some Prefetch =>
          let s := settle i s in
          match result with
          | AudioUrl => set_introAudioUrlRef true s
          | _ => s
          end
      | _ => s
      end
  | TopicResolved i topic =>
      match tasks s !! i with
      | Some (SetupTopic r' targetPart) =>
          setupNextPart_topic r' targetPart topic (settle i s)
      | _ => s
      end
  | ImagesResolved i =>
      match tasks s !! i with
      | Some (SetupImages r') => playAiAudio r' (settle i s)
      | _ => s
      end
  | SynthResolved i result =>
      match tasks s !! i with
      | Some (Synth r') =>
          let s := settle i s in
          match result with
          | FALLBACK_HANDLED => handleAiFinishedSpeaking r' s
          | AudioUrl => playAudioUrl r' s
          | NoAudio => spawn (Timeout r') s
          end
      | _ => s
      end
  | TimeoutFired i =>
      match tasks s !! i with
      | Some (Timeout r') => handleAiFinishedSpeaking r' (settle i s)
      | _ => s
      end
  | PlaybackEnded =>
      match audioOnEnded (refs s) with
      | Some r' => handleAiFinishedSpeaking r' (set_audioOnEnded None s)
      | None => s
      end
  | MicGranted i =>
      match tasks s !! i with
      | Some (MicRequest r') => startRecording_granted r' (settle i s)
      | _ => s
      end
  | MicDenied i =>
      match tasks s !! i with
      | Some (MicRequest r') => settle i s
      | _ => s
      end
  | RecorderStopped i =>
      match tasks s !! i with
      | Some (StopEvent r') => handleSubmission r' (settle i s)
      | _ => s
      end
  | EvalResolved i result =>
      match tasks s !! i with
      | Some (Submission r' nextTurn) =>
          handleSubmission_resolved r' nextTurn result (settle i s)
      | _ => s
      end
  | EvalRejected i =>
      match tasks s !! i with
      | Some (Submission r' nextTurn) => handleSubmission_rejected (settle i s)
      | _ => s
      end
  end.

(** An event, the render it causes with its effects, and the render the
    effects cause in turn. *)
Definition step (s : State) (e : Event) : State :=
  let s1 := dispatch e s in
  let s2 := commit (ui s) s1 in
  commit (ui s1) s2.

Definition run (s : State) (es : list Event) : State := foldl step s es.

(** The component after mounting: the initial values of the cells, the
    mount effect for [[initialPart, isStandalone]] and the prefetch of the
    introduction. *)
Definition init (p : Props) : State := {|
  props := p;
  ui := {|
    hasStarted := false;
    part := initialPart p;
    status := IDLE;
    aiMessage := welcome (initialPart p);
    currentFeedback := None;
    resultsHistory := ∅;
    quotaError := false;
    timeLeft := 0;
    totalTime := 0;
    isRecording := false;
  |};
  refs := {|
    isNewPartRef := true;
    autoAdvanceRef := false;
    turnCountRef := 0;
    mediaRecorderRef := None;
    introAudioUrlRef := false;
    audioRef := false;
    audioOnEnded := None;
  |};
  tasks := if decide (initialPart p = INTRO) then [Prefetch] else [];
|}.

(** The ways [App] mounts the component: the full exam from the
    introduction, or one part on its own. *)
Definition mounted (p : Props) : Prop :=
  (initialPart p = INTRO ∨ initialPart p = PICTURE ∨ initialPart p = DISCUSSION)
  ∧ (isStandalone p = false → initialPart p = INTRO).

Inductive reachable : State → Prop :=
| reachable_init p : mounted p → reachable (init p)
| reachable_step s e : reachable s → reachable (step s e).

End ExamMode.

(* ===================================================================== *)
(** ** Vocabulary of the properties *)
(* ===================================================================== *)

Import Types ExamMode.
#[local] Open Scope Z_scope.

(** The real number of a score (0 for a number that is not finite). *)
Definition exact (x : Number.number) : Q := default 0%Q (Number.toQ x).

(** The four sub-scores of a record, in the order the code adds them. *)
Definition subscores (f : FeedbackData) : list Number.number :=
  [taskAchievementScore f; pronunciationScore f; grammarScore f;
   fluencyCoherenceScore f].

(** The exact sum of a list of numbers. *)
Definition exactSum (xs : list Number.number) : Q :=
  foldr (λ x acc, (exact x + acc)%Q) 0%Q xs.

(** The score of one part: the exact sum of its four sub-scores. *)
Definition partScore (f : FeedbackData) : Q := exactSum (subscores f).

(** The exact sum of the part scores of a list of records. *)
Definition subscoresSum (fs : list FeedbackData) : Q :=
  foldr (λ f acc, (partScore f + acc)%Q) 0%Q fs.

(** A score in whole and half points from 0 to 10 (the evaluation prompt
    asks for scores between 0.5 and 5 or 10, and a skipped part scores
    0). *)
Definition onGrid (x : Number.number) : Prop :=
  ∃ k : Z, 0 ≤ k ≤ 20 ∧ x = Number.halves k.

Definition graded (f : FeedbackData) : Prop := Forall onGrid (subscores f).

(** The results history holds records of the three parts only, graded in
    whole and half points. *)
Definition gradedHistory (u : UI) : Prop :=
  ∀ p f, resultsHistory u !! p = Some f →
    (p = INTRO ∨ p = PICTURE ∨ p = DISCUSSION) ∧ graded f.

Definition scored (a b c d : Number.number) : FeedbackData := {|
  taskAchievementScore := a;
  pronunciationScore := b;
  grammarScore := c;
  fluencyCoherenceScore := d;
  fluencyScore := None;
  vocabularyScore := None;
  idiomScore := None;
  feedbackText := "";
  mistakesAndCorrections := [];
  weaknesses := [];
  improvements := [];
|}.

(** A record with whole points. *)
Definition points (a b c d : Z) : FeedbackData :=
  scored (Number.ofZ a) (Number.ofZ b) (Number.ofZ c) (Number.ofZ d).


(** A finished session: INTRO (4,4,4,4), PICTURE (8,7,9,8), DISCUSSION
    (9,8,7,9). *)
Definition reportExample : UI := {|
  hasStarted := true;
  part := DISCUSSION;
  status := COMPLETED;
  aiMessage := "";
  currentFeedback := Some (points 9 8 7 9);
  resultsHistory :=
    <[DISCUSSION := points 9 8 7 9]>
      (<[INTRO := points 4 4 4 4]> (<[PICTURE := points 8 7 9 8]> ∅));
  quotaError := false;
  timeLeft := 0;
  totalTime := 120;
  isRecording := false;
|}.

(** The delays of the first [n] retries: 2000 ms, doubled each time. *)
Definition backoff (delay : Z) (n : nat) : list Z :=
  (λ k, delay * 2 ^ Z.of_nat k)%Z <$> seq 0 n.

Definition quotaRejected {T} (o : GeminiService.Outcome T) : Prop :=
  ∃ e, o = GeminiService.Rejected e ∧ GeminiService.isQuotaError e = true.

Definition isNumber (v : GeminiService.value) : bool :=
  match v with GeminiService.VNumber _ => true | _ => false end.

Definition isString (v : GeminiService.value) : bool :=
  match v with GeminiService.VString _ => true | _ => false end.

Definition isArray (v : GeminiService.value) : bool :=
  match v with GeminiService.VArray _ => true | _ => false end.

(** A property of the parsed response is absent or of the given kind, as
    the response schema asks. *)
Definition absentOr (kind : GeminiService.value → bool)
    (x : option GeminiService.value) : bool :=
  match x with
  | Some v => kind v
  | None => true
  end.

(** A field of the result is the truthy value read from the cleaned
    response, or else the default [d]. *)
Definition truthyOr (d : GeminiService.value) (x : option GeminiService.value)
    (field : GeminiService.value) : Prop :=
  (∃ v, x = Some v ∧ GeminiService.truthy v = true ∧ field = v)
  ∨ ((∀ v, x = Some v → GeminiService.truthy v = false) ∧ field = d).

(** How [processStudentInput] fills a field from the property [x] of the
    response with default [d]: the field is never [null], it is the
    response's truthy value or the default, and it has the kind the schema
    asks for whenever the response's property does (or is absent). *)
Definition defaulted (kind : GeminiService.value → bool)
    (d : GeminiService.value)
    (x : option GeminiService.value) (field : GeminiService.value) : Prop :=
  field ≠ GeminiService.VNull
  ∧ truthyOr d x field
  ∧ (absentOr kind x = true → kind field = true).

(** A response whose first sub-score is a string. *)
Definition stringScoreResponse : GeminiService.json :=
  GeminiService.JObject
    [("replyText", GeminiService.JString "Thank you.");
     ("taskAchievementScore", GeminiService.JString "high");
     ("examMoveToNext", GeminiService.JBool true)].

(** A response that leaves out everything but one score. *)
Definition sparseResponse : GeminiService.json :=
  GeminiService.JObject
    [("grammarScore", GeminiService.JNumber (Number.ofZ 7))].

(** The renders in which the timer effect calls a handler. *)
Definition expires (r : UI) : bool :=
  negb (shouldRunTimer r) && bool_decide (timeLeft r = 0) && hasStarted r
  && (bool_decide (status r = USER_PREP)
      || (bool_decide (status r = USER_SPEAKING) && isRecording r)).

(** The recorder behind [mediaRecorderRef] after a successful [stop()]. *)
Definition stopped (rec : MediaRecorder) (s : State) : State :=
  spawn (StopEvent (onstop rec))
    (set_mediaRecorderRef (Some {| recording := false; onstop := onstop rec |}) s).

(** A render caused by the effects of a commit gives the timer effect
    nothing to do. *)
Definition settledAfter (u u' : UI) : Prop := u' = u ∨ expires u' = false.

(** The refs of the [<audio>] element agree with the screen that is
    rendered. *)
Definition audioOk (s : State) : Prop :=
  audioRef (refs s) = bool_decide (screen (ui s) = MainScreen)
  ∧ (audioRef (refs s) = false → audioOnEnded (refs s) = None).

(** What holds of every state the component can reach. *)
Definition timeBounds (s : State) : Prop :=
  0 ≤ timeLeft (ui s) ≤ totalTime (ui s).

Definition feedbackTurns (s : State) : Prop :=
  currentFeedback (ui s) = None → turnCountRef (refs s) = 0.

(** What holds of every state the component can reach: the part is a
    positive number, the countdown is within its bounds, the turn counter
    is positive only once a record was received, and the audio refs fit
    the screen. *)
Definition invariant (s : State) : Prop :=
  (1 ≤ part (ui s))%N ∧ timeBounds s ∧ feedbackTurns s ∧ audioOk s.

(** The full exam, started from the introduction. *)
Definition fullExam : Props := {| initialPart := INTRO; isStandalone := false |}.

(** An evaluation that asks for a follow-up, and one that ends the part. *)
Definition continueResult : EvalResult := {|
  reply := "Can you tell me more about your hobbies?";
  feedback :=
    scored (Number.ofZ 4) (Number.ofZ 4) (Number.halves 7) (Number.ofZ 4);
  moveNext := false;
|}.

Definition finishResult : EvalResult := {|
  reply := "Thank you.";
  feedback := points 4 4 4 4;
  moveNext := true;
|}.

(** The student starts the exam, the welcome is spoken by the browser
    fallback and the microphone is granted: the first answer is being
    recorded.  (Task 0 is the prefetch of the welcome audio.) *)
Definition firstAnswerRecording : list Event :=
  [ClickStartExam; SynthResolved 1 FALLBACK_HANDLED; MicGranted 1].

(** The first answer is submitted after two seconds and evaluated; the
    service asks a follow-up question, which is being played. *)
Definition followUpPlaying : list Event :=
  firstAnswerRecording
  ++ [Tick; Tick; ClickSubmitAnswer; RecorderStopped 1;
      EvalResolved 1 continueResult].

(** Two answers were evaluated with a follow-up each; the third answer
    has been submitted and is being evaluated. *)
Definition thirdAnswerSubmitted : list Event :=
  followUpPlaying
  ++ [SynthResolved 1 FALLBACK_HANDLED; MicGranted 1; ClickSubmitAnswer;
      RecorderStopped 1; EvalResolved 1 continueResult;
      SynthResolved 1 FALLBACK_HANDLED; MicGranted 1; ClickSubmitAnswer;
      RecorderStopped 1].

(** The playback of a prompt that was started in render [r] completes:
    the browser fallback has spoken it, the audio element has ended, or
    the two-second timeout has fired. *)
Definition playbackCompletes (s : State) (e : Event) (r : UI) : Prop :=
  (∃ i, e = SynthResolved i FALLBACK_HANDLED ∧ tasks s !! i = Some (Synth r))
  ∨ (∃ i, e = TimeoutFired i ∧ tasks s !! i = Some (Timeout r))
  ∨ (e = PlaybackEnded ∧ audioOnEnded (refs s) = Some r).

(** The state in which a countdown runs: the exam has started, the audio
    element is mounted, and the machine prepares or speaks. *)
Definition counting (s : State) : Prop :=
  audioRef (refs s) = true ∧ hasStarted (ui s) = true
  ∧ (status (ui s) = USER_PREP ∨ status (ui s) = USER_SPEAKING).

(** One part practised on its own. *)
Definition picturePractice : Props :=
  {| initialPart := PICTURE; isStandalone := true |}.

(** The picture part is set up and its instructions have been spoken: the
    minute of preparation starts. *)
Definition preparationStarts : list Event :=
  [ClickStartExam; TopicResolved 0 "City vs Village"; ImagesResolved 0;
   SynthResolved 0 FALLBACK_HANDLED].


(** The [nextTurn] of a submission that awaits its evaluation. *)
Definition submitted (t : Task) : option Z :=
  match t with
  | Submission _ nextTurn => Some nextTurn
  | _ => None
  end.

(** The submissions in flight, by their [nextTurn]. *)
Definition inFlight (s : State) : list Z := omap submitted (tasks s).

(** The event completes a submission: its evaluation resolves. *)
Definition completes (s : State) (e : Event) : bool :=
  match e with
  | EvalResolved i _ =>
      match tasks s !! i with
      | Some (Submission _ _) => true
      | _ => false
      end
  | _ => false
  end.

(** The number of submissions completed along a sequence of events. *)
Fixpoint completed (s : State) (es : list Event) : Z :=
  match es with
  | [] => 0
  | e :: es => (if completes s e then 1 else 0) + completed (step s e) es
  end.

(** The states a sequence of events passes through, the first and the
    last included. *)
Fixpoint visited (s : State) (es : list Event) : list State :=
  s :: match es with
       | [] => []
       | e :: es => visited (step s e) es
       end.

(** The events stay within one part: the student does not continue. *)
Definition withinPart (es : list Event) : bool :=
  forallb (λ e, match e with ClickContinue => false | _ => true end) es.

(** At most one submission is in flight in every state passed through. *)
Definition oneAtATime (s : State) (es : list Event) : bool :=
  forallb (λ s', bool_decide (length (inFlight s') ≤ 1)%nat) (visited s es).

(** No state passed through is in [PART_COMPLETED]. *)
Definition notYetCompleted (s : State) (es : list Event) : bool :=
  forallb (λ s', negb (bool_decide (status (ui s') = PART_COMPLETED)))
    (visited s es).

(** One turn of the introduction: the prompt is spoken, the microphone is
    granted, the answer is submitted, and the service asks a follow-up. *)
Definition answerTurn : list Event :=
  [SynthResolved 1 FALLBACK_HANDLED; MicGranted 1; ClickSubmitAnswer;
   RecorderStopped 1; EvalResolved 1 continueResult].

Definition threeAnswers : list Event := answerTurn ++ answerTurn ++ answerTurn.

(** A render that asynchronous work may close over: it is not a render of
    a completed part or exam, and its part is one of the three. *)
Definition closureOk (r : UI) : Prop :=
  status r ≠ COMPLETED ∧ status r ≠ PART_COMPLETED
  ∧ (part r = INTRO ∨ part r = PICTURE ∨ part r = DISCUSSION).

Definition taskOk (t : Task) : Prop :=
  match t with
  | Prefetch => True
  | SetupTopic r _ | SetupImages r | Synth r | Timeout r | MicRequest r
  | StopEvent r | Submission r _ => closureOk r
  end.

(** What holds of the renders and the recorder in every reachable state:
    the part is one of the three; every closure in flight is of a render
    that was not completed; before the exam starts nothing but the
    prefetch is in flight and the machine is idle; and [isRecording] is
    true only while the recorder behind [mediaRecorderRef] records. *)
Definition wellFormed (s : State) : Prop :=
  (part (ui s) = INTRO ∨ part (ui s) = PICTURE ∨ part (ui s) = DISCUSSION)
  ∧ Forall taskOk (tasks s)
  ∧ (∀ rec, mediaRecorderRef (refs s) = Some rec → closureOk (onstop rec))
  ∧ (∀ r, audioOnEnded (refs s) = Some r → closureOk r)
  ∧ (hasStarted (ui s) = false →
       status (ui s) = IDLE ∧ Forall (λ t, t = Prefetch) (tasks s)
       ∧ audioOnEnded (refs s) = None)
  ∧ (isRecording (ui s) = true →
       ∃ rec, mediaRecorderRef (refs s) = Some rec ∧ recording rec = true).

(** The first answer runs until the speaking countdown expires; it is
    evaluated, the service asks a follow-up question, and its playback has
    completed. *)
Definition followUpAfterExpiry : list Event :=
  firstAnswerRecording
  ++ replicate 120 Tick
  ++ [RecorderStopped 1; EvalResolved 1 continueResult;
      SynthResolved 1 FALLBACK_HANDLED].

(* ===================================================================== *)
(** ** services/geminiService.ts: bytes, base64 and the WAV header *)
(* ===================================================================== *)

Module Encoding.
#[local] Open Scope Z_scope.

(** A [Uint8Array] is a list of bytes.  A binary string (one character
    per byte, as [atob] returns and [btoa] takes) is a [string]. *)
Abbreviation Uint8Array := (list Init.Byte.byte).

(** Storing a number into a [Uint8Array] or through a [DataView] keeps it
    modulo 256. *)
Definition toUint8 (v : Z) : Init.Byte.byte :=
  default Init.Byte.x00 (Byte.of_N (Z.to_N (v mod 256))).

Definition byteValue (b : Init.Byte.byte) : Z := Z.of_N (Byte.to_N b).

Definition charCodeAt (c : ascii) : Z := Z.of_N (N_of_ascii c).

(** [String.fromCharCode(code)] for a code below 256. *)
Definition fromCharCode (code : Z) : ascii := ascii_of_N (Z.to_N code).

(** *** The browser's [btoa] and [atob] *)

Definition alphabet : list ascii :=
  list_ascii_of_string
    "ABCDEFGHIJKLMNOPQRSTUVWXYZabcdefghijklmnopqrstuvwxyz0123456789+/".

Definition equalsSign : ascii := "="%char.

Definition sextetChar (n : Z) : ascii :=
  default equalsSign (alphabet !! Z.to_nat n).

Fixpoint btoa_chars (data : list ascii) : list ascii :=
  match data with
  | [] => []
  | [a] =>
      let a := charCodeAt a in
      [sextetChar (a / 4); sextetChar (a mod 4 * 16); equalsSign; equalsSign]
  | [a; b] =>
      let a := charCodeAt a in
      let b := charCodeAt b in
      [sextetChar (a / 4); sextetChar (a mod 4 * 16 + b / 16);
       sextetChar (b mod 16 * 4); equalsSign]
  | a :: b :: c :: rest =>
      let a := charCodeAt a in
      let b := charCodeAt b in
      let c := charCodeAt c in
      sextetChar (a / 4) :: sextetChar (a mod 4 * 16 + b / 16)
      :: sextetChar (b mod 16 * 4 + c / 64) :: sextetChar (c mod 64)
      :: btoa_chars rest
  end.

(** [btoa(data)]; it throws on a character above 255, which a [string]
    does not hold. *)
Definition btoa (data : string) : string :=
  string_of_list_ascii (btoa_chars (list_ascii_of_string data)).

Definition isAsciiWhitespace (c : ascii) : bool :=
  let n := charCodeAt c in
  (n =? 9) || (n =? 10) || (n =? 12) || (n =? 13) || (n =? 32).

Fixpoint indexOf (c : ascii) (l : list ascii) : option Z :=
  match l with
  | [] => None
  | c' :: l => if Ascii.eqb c' c then Some 0 else Z.succ <$> indexOf c l
  end.

Definition charSextet (c : ascii) : option Z := indexOf c alphabet.

(** Six bits per character; 24 bits give three bytes, a rest of 18 or 12
    bits gives two bytes or one, the spare bits being dropped. *)
Fixpoint decodeSextets (l : list Z) : list ascii :=
  match l with
  | a :: b :: c :: d :: rest =>
      fromCharCode (a * 4 + b / 16) :: fromCharCode (b mod 16 * 16 + c / 4)
      :: fromCharCode (c mod 4 * 64 + d) :: decodeSextets rest
  | [a; b; c] =>
      [fromCharCode (a * 4 + b / 16); fromCharCode (b mod 16 * 16 + c / 4)]
  | [a; b] => [fromCharCode (a * 4 + b / 16)]
  | _ => []
  end.

Definition stripPadding (data : list ascii) : list ascii :=
  if decide (length data mod 4 = 0)%nat then
    match reverse data with
    | c1 :: c2 :: rest =>
        if Ascii.eqb c1 equalsSign then
          if Ascii.eqb c2 equalsSign then reverse rest else reverse (c2 :: rest)
        else data
    | [c1] => if Ascii.eqb c1 equalsSign then [] else data
    | [] => data
    end
  else data.

(** [atob(data)], the forgiving base64 decoding of the HTML standard:
    ASCII whitespace is dropped, then up to two padding characters of a
    text whose length is a multiple of 4; a length of 1 modulo 4 and a
    character outside the alphabet are errors ([None]). *)
Definition atob (data : string) : option string :=
  let data :=
    filter (λ c, isAsciiWhitespace c = false) (list_ascii_of_string data) in
  let data := stripPadding data in
  if decide (length data mod 4 = 1)%nat then None
  else
    sextets ← mapM charSextet data;
    Some (string_of_list_ascii (decodeSextets sextets)).

(** *** The converters *)

Definition base64ToUint8Array (base64 : string) : option Uint8Array :=
  binaryString ← atob base64;
  let chars := list_ascii_of_string binaryString in
  let bytes := replicate (length chars) Init.Byte.x00 in
  Some (foldl
          (λ bytes i,
             <[i := toUint8 (from_option charCodeAt 0 (chars !! i))]> bytes)
          bytes (seq 0 (length chars))).

Definition chunkSize : nat := Z.to_nat 8192.

(** [bytes.subarray(begin, end)] for [begin ≤ end ≤ bytes.length] *)
Definition subarray (bytes : Uint8Array) (begin end_ : nat) : Uint8Array :=
  take (end_ - begin) (drop begin bytes).

(** [String.fromCharCode(...chunk)] *)
Definition fromCharCodes (chunk : Uint8Array) : string :=
  string_of_list_ascii ((λ b, fromCharCode (byteValue b)) <$> chunk).

(** The loop of [uint8ArrayToBase64] from index [i] on; [fuel] bounds the
    number of rounds. *)
Fixpoint uint8ArrayToBase64_loop (fuel : nat) (bytes : Uint8Array) (i : nat)
    (binary : string) : string :=
  match fuel with
  | O => binary
  | S fuel =>
      if decide (i < length bytes)%nat then
        let chunk :=
          subarray bytes i (Nat.min (i + chunkSize) (length bytes)) in
        uint8ArrayToBase64_loop fuel bytes (i + chunkSize)
          (String.append binary (fromCharCodes chunk))
      else binary
  end.

Definition uint8ArrayToBase64 (bytes : Uint8Array) : string :=
  btoa (uint8ArrayToBase64_loop (S (length bytes)) bytes 0 "").

(** *** [DataView] and the WAV header *)

(** The setters throw a [RangeError] ([None]) when the write does not fit
    in the buffer.  [value] is the integer of the number that is written;
    the setter keeps it modulo 2^8, 2^16 or 2^32. *)
Definition setUint8 (offset : nat) (value : Z) (view : Uint8Array)
    : option Uint8Array :=
  if decide (offset + 1 ≤ length view)%nat
  then Some (<[offset := toUint8 value]> view)
  else None.

Definition setUint16 (offset : nat) (value : Z) (littleEndian : bool)
    (view : Uint8Array) : option Uint8Array :=
  if decide (offset + 2 ≤ length view)%nat then
    let v := value mod 65536 in
    let lo := toUint8 v in
    let hi := toUint8 (v / 256) in
    Some (if littleEndian
          then <[offset + 1 := hi]> (<[offset := lo]> view)
          else <[offset + 1 := lo]> (<[offset := hi]> view))%nat
  else None.

Definition setUint32 (offset : nat) (value : Z) (littleEndian : bool)
    (view : Uint8Array) : option Uint8Array :=
  if decide (offset + 4 ≤ length view)%nat then
    let v := value mod 4294967296 in
    let b0 := toUint8 v in
    let b1 := toUint8 (v / 256) in
    let b2 := toUint8 (v / 65536) in
    let b3 := toUint8 (v / 16777216) in
    Some (if littleEndian
          then <[offset + 3 := b3]> (<[offset + 2 := b2]>
                 (<[offset + 1 := b1]> (<[offset := b0]> view)))
          else <[offset + 3 := b0]> (<[offset + 2 := b1]>
                 (<[offset + 1 := b2]> (<[offset := b3]> view))))%nat
  else None.

(** The local [writeString] of [addWavHeader]. *)
Fixpoint writeString (view : Uint8Array) (offset : nat) (string : list ascii)
    : option Uint8Array :=
  match string with
  | [] => Some view
  | c :: rest =>
      view ← setUint8 offset (charCodeAt c) view;
      writeString view (S offset) rest
  end.

(** [target.set(source, offset)]; a [RangeError] when it does not fit. *)
Definition set (source : Uint8Array) (offset : nat) (target : Uint8Array)
    : option Uint8Array :=
  if decide (offset + length source ≤ length target)%nat
  then Some (take offset target ++ source
             ++ drop (offset + length source) target)
  else None.

(** [sampleRate * numChannels * 2] and [numChannels * 2] are products of
    numbers, rounded before the setter takes their integer. *)
Definition addWavHeader (pcmData : Uint8Array)
    (sampleRate numChannels : Number.number) : option Uint8Array :=
  let headerLength := 44%nat in
  let dataLength := length pcmData in
  let view := replicate (headerLength + dataLength) Init.Byte.x00 in
  view ← writeString view 0 (list_ascii_of_string "RIFF");
  view ← setUint32 4 (Z.of_nat dataLength + 36) true view;
  view ← writeString view 8 (list_ascii_of_string "WAVE");
  view ← writeString view 12 (list_ascii_of_string "fmt ");
  view ← setUint32 16 16 true view;
  view ← setUint16 20 1 true view;
  view ← setUint16 22 (Number.integerPart numChannels) true view;
  view ← setUint32 24 (Number.integerPart sampleRate) true view;
  view ← setUint32 28
           (Number.integerPart
              (Number.mul (Number.mul sampleRate numChannels) (Number.ofZ 2)))
           true view;
  view ← setUint16 32
           (Number.integerPart (Number.mul numChannels (Number.ofZ 2)))
           true view;
  view ← setUint16 34 16 true view;
  view ← writeString view 36 (list_ascii_of_string "data");
  view ← setUint32 40 (Z.of_nat dataLength) true view;
  set pcmData 44 view.

(** How a reader of the file gets the fields back. *)
Definition getUint16 (offset : nat) (view : Uint8Array) : option Z :=
  lo ← view !! offset; hi ← view !! (offset + 1)%nat;
  Some (byteValue lo + 256 * byteValue hi).

Definition getUint32 (offset : nat) (view : Uint8Array) : option Z :=
  b0 ← view !! offset; b1 ← view !! (offset + 1)%nat;
  b2 ← view !! (offset + 2)%nat; b3 ← view !! (offset + 3)%nat;
  Some (byteValue b0 + 256 * byteValue b1 + 65536 * byteValue b2
        + 16777216 * byteValue b3).

Definition getString (offset len : nat) (view : Uint8Array) : string :=
  fromCharCodes (take len (drop offset view)).

End Encoding.

(** The little-endian bytes of an unsigned 16- and 32-bit field, and the
    bytes of a four-character tag. *)
Definition le16 (v : Z) : list Init.Byte.byte :=
  let v := v mod 65536 in
  [Encoding.toUint8 v; Encoding.toUint8 (v / 256)].

Definition le32 (v : Z) : list Init.Byte.byte :=
  let v := v mod 4294967296 in
  [Encoding.toUint8 v; Encoding.toUint8 (v / 256);
   Encoding.toUint8 (v / 65536); Encoding.toUint8 (v / 16777216)].

Definition tag (s : string) : list Init.Byte.byte :=
  (λ c, Encoding.toUint8 (Encoding.charCodeAt c)) <$> list_ascii_of_string s.

(** The 44 bytes of the header of a 16-bit PCM WAV file with the given
    fields. *)
Definition headerBytes (dataLength numChannels sampleRate byteRate blockAlign
    : Z) : list Init.Byte.byte :=
  tag "RIFF" ++ le32 (dataLength + 36) ++ tag "WAVE"
  ++ tag "fmt " ++ le32 16 ++ le16 1 ++ le16 numChannels
  ++ le32 sampleRate ++ le32 byteRate
  ++ le16 blockAlign ++ le16 16
  ++ tag "data" ++ le32 dataLength.

(** The canonical 44-byte header of a 16-bit PCM WAV file. *)
Definition wavHeader (dataLength sampleRate numChannels : Z)
    : list Init.Byte.byte :=
  headerBytes dataLength numChannels sampleRate (sampleRate * numChannels * 2)
    (numChannels * 2).

(** The fields [addWavHeader] writes for a sample rate and a number of
    channels: the integers of the numbers and of their rounded products. *)
Definition byteRate (sampleRate numChannels : Number.number) : Z :=
  Number.integerPart
    (Number.mul (Number.mul sampleRate numChannels) (Number.ofZ 2)).

Definition blockAlign (numChannels : Number.number) : Z :=
  Number.integerPart (Number.mul numChannels (Number.ofZ 2)).

(** The six-bit groups of a binary string, and the padding [btoa] adds. *)
Fixpoint sextetsOf (data : list ascii) : list Z :=
  match data with
  | [] => []
  | [a] =>
      let a := Encoding.charCodeAt a in
      [a / 4; a mod 4 * 16]
  | [a; b] =>
      let a := Encoding.charCodeAt a in
      let b := Encoding.charCodeAt b in
      [a / 4; a mod 4 * 16 + b / 16; b mod 16 * 4]
  | a :: b :: c :: rest =>
      let a := Encoding.charCodeAt a in
      let b := Encoding.charCodeAt b in
      let c := Encoding.charCodeAt c in
      a / 4 :: a mod 4 * 16 + b / 16 :: b mod 16 * 4 + c / 64 :: c mod 64
      :: sextetsOf rest
  end.

Definition paddingOf (data : list ascii) : list ascii :=
  match (length data mod 3)%nat with
  | 1%nat => [Encoding.equalsSign; Encoding.equalsSign]
  | 2%nat => [Encoding.equalsSign]
  | _ => []
  end.

(* ===================================================================== *)
(** ** services/geminiService.ts: speech synthesis *)
(* ===================================================================== *)

Module Speech.
Import GeminiService Encoding.

(** What [doSpeak] reads of a [SpeechSynthesisVoice]. *)
Record SpeechSynthesisVoice := {
  lang : string;
  name : string;
}.

(** [s.startsWith(prefix)] *)
Definition startsWith (s prefix : string) : bool := String.prefix prefix s.

(** [voices.find(p)] *)
Fixpoint find {A} (p : A → bool) (voices : list A) : option A :=
  match voices with
  | [] => None
  | v :: voices => if p v then Some v else find p voices
  end.

(** The voice [doSpeak] gives the utterance: [undefined] ([None]) leaves
    the browser's default.  A voice is an object, hence truthy. *)
Definition enVoice (voices : list SpeechSynthesisVoice)
    : option SpeechSynthesisVoice :=
  match find (λ v, startsWith (lang v) "en" && includes (name v) "Google")
          voices with
  | Some v => Some v
  | None =>
      match find (λ v, startsWith (lang v) "en") voices with
      | Some v => Some v
      | None => voices !! 0%nat
      end
  end.

(** What a thrown [DOMException] looks like to [isQuotaError]: [atob]
    throws an [InvalidCharacterError] (the message is the browser's), a
    [DataView] or [TypedArray] write a [RangeError];
    [JSON.stringify] of either gives an empty object. *)
Definition invalidCharacterError : JsError := {|
  message := Some "The string to be decoded is not correctly encoded.";
  status := None;
  errorString := "{}";
|}.

Definition rangeError : JsError := {|
  message := Some "Offset is outside the bounds of the DataView";
  status := None;
  errorString := "{}";
|}.

Definition FALLBACK_HANDLED : string := "FALLBACK_HANDLED".

(** The function [synthesizeSpeech] passes to [fetchWithRetry], given how
    [generateContent] settles: a response is represented by what
    [response.candidates?.[0]?.content?.parts?.[0]?.inlineData?.data]
    gives, [None] being [undefined].  The result [None] is [null]. *)
Definition synthesizeSpeech_attempt (response : Outcome (option string))
    : Outcome (option string) :=
  match response with
  | Rejected error => Rejected error
  | Resolved base64Audio =>
      match base64Audio with
      | Some base64Audio =>
          if String.eqb base64Audio "" then Resolved None
          else
            match base64ToUint8Array base64Audio with
            | None => Rejected invalidCharacterError
            | Some pcmData =>
                match addWavHeader pcmData (Number.ofZ 24000) (Number.ofZ 1) with
                | None => Rejected rangeError
                | Some wavData =>
                    Resolved
                      (Some (String.append "data:audio/wav;base64,"
                               (uint8ArrayToBase64 wavData)))
                end
            end
      | None => Resolved None
      end
  end.

(** [synthesizeSpeech(text)], given how the [k]-th call of
    [generateContent] settles.  The [catch] branch awaits
    [speakWithBrowserFallback], whose promise is never rejected. *)
Definition synthesizeSpeech (generateContent : nat → Outcome (option string))
    : Outcome (option string) :=
  match settled (fetchWithRetry
                   (λ k, synthesizeSpeech_attempt (generateContent k))) with
  | Resolved result => Resolved result
  | Rejected error => Resolved (Some FALLBACK_HANDLED)
  end.

(** The three-way test of [playAiAudio] on the result:
    [result === 'FALLBACK_HANDLED'], else [result] truthy, else. *)
Definition playAiAudio_case (result : option string) : ExamMode.SynthResult :=
  match result with
  | Some result =>
      if String.eqb result FALLBACK_HANDLED then ExamMode.FALLBACK_HANDLED
      else if String.eqb result "" then ExamMode.NoAudio
      else ExamMode.AudioUrl
  | None => ExamMode.NoAudio
  end.

End Speech.

(* ===================================================================== *)
(** ** services/geminiService.ts: topics and images *)
(* ===================================================================== *)

Module Generation.
Import GeminiService.

Definition PRIMARY_MODEL : string := "gemini-3-flash-preview".
Definition FALLBACK_MODEL : string := "gemini-2.5-flash".

(** White space and line terminators of ECMAScript, as far as a [string]
    of one-byte characters holds them: TAB, LF, VT, FF, CR, SPACE and the
    no-break space. *)
Definition isWhiteSpace (c : ascii) : bool :=
  let n := Encoding.charCodeAt c in
  (n =? 9) || (n =? 10) || (n =? 11) || (n =? 12) || (n =? 13) || (n =? 32)
  || (n =? 160).

Fixpoint trimStart_chars (s : list ascii) : list ascii :=
  match s with
  | [] => []
  | c :: rest => if isWhiteSpace c then trimStart_chars rest else s
  end.

(** [s.trim()] *)
Definition trim (s : string) : string :=
  string_of_list_ascii
    (reverse (trimStart_chars
                (reverse (trimStart_chars (list_ascii_of_string s))))).

(** The environment of a generation: how the [k]-th request to a model
    with a prompt settles, a response being represented by
    [response.text] ([None] is [undefined]). *)
Definition GenerateContent := string → string → nat → Outcome (option string).

Definition examTopicPrompt (part : Z) : string :=
  if part =? 2
  then "Generate two contrasting subjects for a picture comparison exam. Examples: 'A crowded modern city' vs 'A peaceful rural village', 'Individual sports like tennis' vs 'Team sports like football', 'Studying in a library' vs 'Studying in a cafe'. Return ONLY the subjects separated by ' vs '. Be creative."
  else "Generate a single interesting discussion question for an English exam at A2-B1+ level. Use clear, simple language and avoid overly academic or abstract topics. Examples: 'Do you prefer living in a city or a village? Why?', 'What are the advantages of learning a second language?', 'Is it important to travel to other countries?'.".

(** The function [generateExamTopic] passes to [fetchWithRetry]; [k] is
    the number of the call. *)
Definition generateExamTopic_attempt (generateContent : GenerateContent)
    (part : Z) (k : nat) : Outcome string :=
  let prompt := examTopicPrompt part in
  match generateContent PRIMARY_MODEL prompt k with
  | Resolved text =>
      Resolved
        match text with
        | Some text =>
            let text := trim (removeStars text) in
            if String.eqb text "" then "City vs Village" else text
        | None => "City vs Village"
        end
  | Rejected e =>
      if isQuotaError e then
        match generateContent FALLBACK_MODEL prompt k with
        | Resolved text =>
            Resolved
              match text with
              | Some text =>
                  let text := trim (removeStars text) in
                  if String.eqb text "" then "City vs Village" else text
              | None => "City vs Village"
              end
        | Rejected e' => Rejected e'
        end
      else Rejected e
  end.

Definition generateExamTopic (generateContent : GenerateContent) (part : Z)
    : Outcome string :=
  match settled (fetchWithRetry (generateExamTopic_attempt generateContent part))
  with
  | Resolved topic => Resolved topic
  | Rejected _ => Resolved "City vs Village"
  end.

Definition writingTopicPrompt : string :=
  String.append
    "Generate a CEFR A2-B1 level English writing exam topic. "
    (String (ascii_of_nat 10)
       (String.append
          "    Examples: 'Write about a memorable day', 'Write about an important person'. "
          (String (ascii_of_nat 10)
             (String.append
                "    Format MUST include a title and 4-5 bullet points of what to include. "
                (String (ascii_of_nat 10)
                   "    Word target: 80-120 words. Use simple text without any bolding or stars."))))).

Definition generateWritingTopic_attempt (generateContent : GenerateContent)
    (k : nat) : Outcome string :=
  let prompt := writingTopicPrompt in
  match generateContent PRIMARY_MODEL prompt k with
  | Resolved text =>
      Resolved
        match text with
        | Some text =>
            let text := trim (removeStars text) in
            if String.eqb text "" then "Write about your best friend..."
            else text
        | None => "Write about your best friend..."
        end
  | Rejected e =>
      if isQuotaError e then
        match generateContent FALLBACK_MODEL prompt k with
        | Resolved text =>
            Resolved
              match text with
              | Some text =>
                  let text := trim (removeStars text) in
                  if String.eqb text "" then "Write about your best friend..."
                  else text
              | None => "Write about your best friend..."
              end
        | Rejected e' => Rejected e'
        end
      else Rejected e
  end.

Definition generateWritingTopic (generateContent : GenerateContent)
    : Outcome string :=
  match settled (fetchWithRetry (generateWritingTopic_attempt generateContent))
  with
  | Resolved topic => Resolved topic
  | Rejected _ => Resolved "Write about your best friend..."
  end.

(** A part of an image response: its [inlineData], if any. *)
Record InlineData := {
  mimeType : string;
  data : string;
}.

(** The loop of [generateExamImage] over
    [response.candidates?.[0]?.content?.parts || []]. *)
Fixpoint firstInlineData (parts : list (option InlineData)) : option string :=
  match parts with
  | [] => None
  | part :: parts =>
      match part with
      | Some inlineData =>
          Some (String.append "data:"
                  (String.append (mimeType inlineData)
                     (String.append ";base64," (data inlineData))))
      | None => firstInlineData parts
      end
  end.

(** [generateExamImage(topic)], given how the [k]-th call of
    [generateContent] settles; a response is represented by its parts,
    [None] being [undefined]. *)
Definition generateExamImage
    (generateContent : nat → Outcome (option (list (option InlineData))))
    : Outcome (option string) :=
  match settled
          (fetchWithRetry
             (λ k, match generateContent k with
                   | Resolved parts =>
                       Resolved (firstInlineData (default [] parts))
                   | Rejected e => Rejected e
                   end))
  with
  | Resolved image => Resolved image
  | Rejected _ => Resolved None
  end.

End Generation.

(** No star in a string. *)
Definition starFree (s : string) : Prop :=
  GeminiService.includes s "*" = false.

(** No white space at either end of a string. *)
Definition trimmed (s : string) : Prop :=
  match list_ascii_of_string s with
  | [] => True
  | c :: _ => Generation.isWhiteSpace c = false
  end
  ∧ match reverse (list_ascii_of_string s) with
    | [] => True
    | c :: _ => Generation.isWhiteSpace c = false
    end.

(** A topic the exam can show and split: not empty, no star, trimmed. *)
Definition presentable (s : string) : Prop :=
  s ≠ "" ∧ starFree s ∧ trimmed s.

(** [text?.replace(/\*/g, '').trim() || fallback] *)
Definition cleanedOr (text : option string) (fallback : string) : string :=
  match text with
  | Some text =>
      let text := Generation.trim (GeminiService.removeStars text) in
      if String.eqb text "" then fallback else text
  | None => fallback
  end.

(** No string value holds a star, in the own properties, the array items
    and the prototypes at any depth (the keys of objects are not looked
    at). *)
Fixpoint noStars (v : GeminiService.value) : bool :=
  match v with
  | GeminiService.VString s => negb (GeminiService.includes s "*")
  | GeminiService.VArray items => forallb noStars items
  | GeminiService.VObject proto members =>
      match proto with
      | Some p => noStars p
      | None => true
      end
      && forallb (λ kv, match kv with (_, v) => noStars v end) members
  | _ => true
  end.

(** A response whose member [__proto__] holds a score. *)
Definition protoResponse : GeminiService.json :=
  GeminiService.JObject
    [("grammarScore", GeminiService.JNumber (Number.ofZ 7));
     ("__proto__",
      GeminiService.JObject
        [("taskAchievementScore", GeminiService.JNumber (Number.ofZ 9))])].

(** The time a run of [fetchWithRetry] sleeps, in milliseconds. *)
Definition totalDelay {T} (run : GeminiService.Run T) : Z :=
  foldr Z.add 0 (GeminiService.delays run).

(* ===================================================================== *)
(** ** components/ExamMode.tsx: what the results screen computes *)
(* ===================================================================== *)

Module ResultsScreen.

(** [pScore] of a part card and of the part summary. *)
Definition pScore (res : FeedbackData) : Number.number :=
  Number.add
    (Number.add
       (Number.add (taskAchievementScore res) (pronunciationScore res))
       (grammarScore res))
    (fluencyCoherenceScore res).

Definition pMax (p : ExamPart) : Z := if decide (p = 1%N) then 20%Z else 40%Z.

(** The cards of [[1, 2, 3].map(p => ...)]: [None] is the [null] of a part
    without a record, else the score and the maximum shown. *)
Definition partCards (u : UI) : list (option (Number.number * Z)) :=
  (λ p, match resultsHistory u !! p with
        | Some res => Some (pScore res, pMax p)
        | None => None
        end) <$> [1%N; 2%N; 3%N].

(** [current] of a [StatBar]:
    [Object.values(resultsHistory).reduce((a, b) => a + b.score, 0)]. *)
Definition statBar (score : FeedbackData → Number.number) (u : UI)
    : Number.number :=
  foldl (λ a b, Number.add a (score b)) (Number.ofZ 0)
    (Object_values (resultsHistory u)).

(** [allMistakes] *)
Definition allMistakes (u : UI) : list Mistake :=
  flat_map mistakesAndCorrections (Object_values (resultsHistory u)).

End ResultsScreen.

(** The exact sum of the scores on the part cards. *)
Definition cardsTotal (cards : list (option (Number.number * Z))) : Q :=
  foldr (λ card acc, match card with
                     | Some (score, _) => (exact score + acc)%Q
                     | None => acc
                     end) 0%Q cards.

(** The records of the results history are those of the three parts. *)
Definition historyKeys (s : State) : Prop :=
  ∀ p, is_Some (resultsHistory (ui s) !! p) →
       p = INTRO ∨ p = PICTURE ∨ p = DISCUSSION.

(** The playback of the first prompt of a part completes. *)
Definition firstPromptCompletes (s : State) (e : Event) (r : UI) : Prop :=
  playbackCompletes s e r ∧ isNewPartRef (refs s) = true.

(** The first answer is being evaluated. *)
Definition firstAnswerSubmitted : list Event :=
  firstAnswerRecording ++ [Tick; Tick; ClickSubmitAnswer; RecorderStopped 1].

(** The full exam is started and the welcome is being spoken. *)
Definition welcomePlaying : list Event := [ClickStartExam].

(** The third answer has been evaluated: the cap has completed the
    introduction. *)
Definition introductionCompleted : list Event :=
  thirdAnswerSubmitted ++ [EvalResolved 1 continueResult].


(* ===================================================================== *)
(** ** components/Timer.tsx *)
(* ===================================================================== *)

Module Timer.

(** [currentTime] and [totalTime] are whole seconds in every use of the
    component. *)
Definition progress (currentTime totalTime : Z) : Q :=
  if decide (0 < totalTime)
  then (inject_Z (totalTime - currentTime) / inject_Z totalTime * 100)%Q
  else 0%Q.

(** [Math.floor(currentTime / 60)] *)
Definition minutes (currentTime : Z) : Z := currentTime / 60.

(** [currentTime % 60]: the remainder has the sign of [currentTime]. *)
Definition seconds (currentTime : Z) : Z := Z.rem currentTime 60.

(** [s.padStart(targetLength, c)] for a one-character [c] *)
Definition padStart (targetLength : nat) (c : ascii) (s : string) : string :=
  String.append
    (string_of_list_ascii (replicate (targetLength - String.length s) c)) s.

(** The text in the ring: [{minutes}:{seconds.toString().padStart(2, '0')}] *)
Definition clock (currentTime : Z) : string :=
  String.append (pretty (minutes currentTime))
    (String.append ":" (padStart 2 "0" (pretty (seconds currentTime)))).

Inductive Stroke := stroke_orange_500 | stroke_red_600.

Definition stroke (currentTime : Z) : Stroke :=
  if decide (currentTime < 10) then stroke_orange_500 else stroke_red_600.

End Timer.

(* ===================================================================== *)
(** ** hooks/useAudioLevel.ts and the glow of components/ExamMode.tsx *)
(* ===================================================================== *)

Module AudioLevel.
#[local] Open Scope Q_scope.

(** [Math.min] and [Math.max] of two numbers *)
Definition Math_min (a b : Q) : Q := if Qle_bool a b then a else b.
Definition Math_max (a b : Q) : Q := if Qle_bool a b then b else a.

(** The level [tick] computes from the frequency data of the analyser,
    one byte per bin ([bufferLength] of them, 128 for the [fftSize] set). *)
Definition sum (dataArray : list Init.Byte.byte) : Z :=
  foldl (λ sum b, (sum + Encoding.byteValue b)%Z) 0%Z dataArray.

Definition normalized (dataArray : list Init.Byte.byte) : Q :=
  let bufferLength := Z.of_nat (length dataArray) in
  let average := inject_Z (sum dataArray) / inject_Z bufferLength in
  Math_min 1 (average / 50).

(** The numbers [getDynamicGlow] puts into the style: the three blur
    radii and opacities of the shadows, and the opacity of the border. *)
Record Glow := {
  blur1 : Q; alpha1 : Q;
  blur2 : Q; alpha2 : Q;
  blur3 : Q; alpha3 : Q;
  borderAlpha : Q;
}.

Definition getDynamicGlow (level : Q) : Glow :=
  let intensity := Math_max (1 # 10) level in
  {| blur1 := 15 + intensity * 35; alpha1 := (4 # 10) + intensity * (4 # 10);
     blur2 := 10 + intensity * 45; alpha2 := (3 # 10) + intensity * (3 # 10);
     blur3 := 5 + intensity * 55; alpha3 := (2 # 10) + intensity * (2 # 10);
     borderAlpha := (3 # 10) + intensity * (7 # 10) |}.

End AudioLevel.

(** The prototype an assignment to [__proto__] leaves: the value when it
    is an object, an array or [null]. *)
Definition asPrototype (v : GeminiService.value) : option GeminiService.value :=
  match v with
  | GeminiService.VNull | GeminiService.VArray _ | GeminiService.VObject _ _ =>
      Some v
  | _ => None
  end.

(** The own property and the prototype of an object. *)
Definition ownProperty (v : GeminiService.value) (key : string)
    : option GeminiService.value :=
  match v with
  | GeminiService.VObject _ members => GeminiService.lookup_own key members
  | _ => None
  end.

Definition prototypeOf (v : GeminiService.value) : option GeminiService.value :=
  match v with
  | GeminiService.VObject proto _ => proto
  | _ => None
  end.

(** A count of half points in all. *)
Definition total (ks : list Z) : Z := foldr Z.add 0 ks.

(** Two answers of one turn: the student clicks [Start Speaking] while the
    first request for the microphone is still pending, so that two
    requests are in flight.  The first recording is submitted; the second
    request is granted while that submission is evaluated, and the second
    recording is submitted too.  Both evaluations resolve, each asking for
    a follow-up. *)
Definition overlappingSubmissions : list Event :=
  [SynthResolved 1 FALLBACK_HANDLED; ClickStartSpeaking;
   MicGranted 1; ClickSubmitAnswer; RecorderStopped 2;
   MicGranted 1; ClickSubmitAnswer; RecorderStopped 2;
   EvalResolved 1 continueResult; EvalResolved 1 continueResult].

(** The first answer of the introduction is submitted and its evaluation
    fails. *)
Definition firstAnswerFails : list Event :=
  firstAnswerSubmitted ++ [EvalRejected 1].

(** A started exam that waits in [IDLE] with nothing in flight but the
    prefetch of the welcome, no playback and no recording. *)
Definition idleWithNothingInFlight (s : State) : Prop :=
  hasStarted (ui s) = true ∧ status (ui s) = IDLE
  ∧ isRecording (ui s) = false
  ∧ Forall (λ t, t = Prefetch) (tasks s)
  ∧ audioOnEnded (refs s) = None.

(** The timer effect, run for the render [r] that follows the render
    [prev], calls one of its two handlers. *)
Definition fires (prev r : UI) : bool :=
  negb (bool_decide (timerDeps prev = timerDeps r)) && expires r.

(** The number of calls of [handlePrepDone] and [handleSpeakingDone] by the
    timer effect in the two commits of a step, and along a sequence of
    events. *)
Definition expiryCalls (s : State) (e : Event) : nat :=
  let s1 := dispatch e s in
  let s2 := commit (ui s) s1 in
  ((if fires (ui s) (ui s1) then 1 else 0)
   + (if fires (ui s1) (ui s2) then 1 else 0))%nat.

Fixpoint expiries (s : State) (es : list Event) : nat :=
  match es with
  | [] => 0%nat
  | e :: es => (expiryCalls s e + expiries (step s e) es)%nat
  end.

(** The welcome has been spoken and the microphone is asked for, but not
    yet granted, while the speaking countdown runs out. *)
Definition microphonePending : list Event :=
  [ClickStartExam; SynthResolved 1 FALLBACK_HANDLED] ++ replicate 120 Tick.

(* ===================================================================== *)
(** ** The aggregate score *)
(* ===================================================================== *)

Section Aggregate.
Import SpecFloat.
#[local] Open Scope Z_scope.

(** Half points add without rounding, far beyond the total of an exam:
    checked for every pair of a sum so far up to 120 points and a score up
    to 10 points. *)
Lemma add_halves (a b : Z) :
  0 ≤ a ≤ 240 → 0 ≤ b ≤ 20 →
  Number.add (Number.halves a) (Number.halves b) = Number.halves (a + b).
Proof.
  intros Ha Hb.
  assert (H : forallb (λ a, forallb (λ b,
                bool_decide
                  (Number.add (Number.halves (Z.of_nat a))
                     (Number.halves (Z.of_nat b))
                   = Number.halves (Z.of_nat a + Z.of_nat b)))
                (seq 0 21)) (seq 0 241) = true)
    by (vm_compute; reflexivity).
  rewrite forallb_forall in H.
  assert (Hina : In (Z.to_nat a) (seq 0 241)) by (apply in_seq; lia).
  specialize (H _ Hina). rewrite forallb_forall in H.
  assert (Hinb : In (Z.to_nat b) (seq 0 21)) by (apply in_seq; lia).
  specialize (H _ Hinb). apply bool_decide_eq_true_1 in H.
  by rewrite !Z2Nat.id in H by lia.
Qed.

Lemma exact_halves (k : Z) :
  0 ≤ k ≤ 260 → (exact (Number.halves k) == inject_Z k / 2)%Q.
Proof.
  intros Hk.
  assert (H : forallb (λ k, Qeq_bool (exact (Number.halves (Z.of_nat k)))
                              (inject_Z (Z.of_nat k) / 2))
                (seq 0 261) = true)
    by (vm_compute; reflexivity).
  rewrite forallb_forall in H.
  assert (Hin : In (Z.to_nat k) (seq 0 261)) by (apply in_seq; lia).
  specialize (H _ Hin). apply Qeq_bool_eq in H.
  by rewrite Z2Nat.id in H by lia.
Qed.

Lemma foldl_add_halves (ks : list Z) (k0 : Z) :
  0 ≤ k0 → Forall (λ k, 0 ≤ k ≤ 20) ks →
  k0 + 20 * Z.of_nat (length ks) ≤ 260 →
  foldl Number.add (Number.halves k0) (Number.halves <$> ks)
  = Number.halves (k0 + total ks)
  ∧ 0 ≤ total ks ≤ 20 * Z.of_nat (length ks).
Proof.
  intros Hk0 Hks. revert k0 Hk0.
  induction Hks as [|k ks Hk _ IH]; intros k0 Hk0 Hlen.
  - simpl. by rewrite Z.add_0_r.
  - cbn [length] in Hlen. rewrite Nat2Z.inj_succ in Hlen.
    cbn [fmap list_fmap foldl total foldr]. fold (total ks).
    rewrite add_halves by lia.
    destruct (IH (k0 + k)) as [-> Hb]; [lia..|].
    cbn [length]. rewrite Nat2Z.inj_succ.
    split; [f_equal; lia|lia].
Qed.

Lemma onGrid_halves (xs : list Number.number) :
  Forall onGrid xs →
  ∃ ks, xs = Number.halves <$> ks ∧ Forall (λ k, 0 ≤ k ≤ 20) ks.
Proof.
  induction 1 as [|x xs (k & Hk & ->) _ (ks & -> & Hks)].
  - by exists [].
  - exists (k :: ks). by split; [|constructor].
Qed.

Lemma exactSum_halves (ks : list Z) :
  Forall (λ k, 0 ≤ k ≤ 20) ks →
  (exactSum (Number.halves <$> ks) == inject_Z (total ks) / 2)%Q.
Proof.
  induction 1 as [|k ks Hk _ IH]; [reflexivity|].
  cbn [fmap list_fmap exactSum foldr total].
  fold (exactSum (Number.halves <$> ks)). fold (total ks).
  rewrite IH, exact_halves by lia.
  rewrite inject_Z_plus. field.
Qed.

(** The sum of a list of scores on the grid: while it stays within 130
    points, the numbers add up to the number of their exact sum. *)
Lemma foldl_add_onGrid (xs : list Number.number) :
  Forall onGrid xs → (length xs ≤ 13)%nat →
  ∃ k, foldl Number.add (Number.ofZ 0) xs = Number.halves k
    ∧ 0 ≤ k ≤ 260
    ∧ (inject_Z k / 2 == exactSum xs)%Q.
Proof.
  intros (ks & -> & Hks)%onGrid_halves Hlen.
  rewrite length_fmap in Hlen.
  destruct (foldl_add_halves ks 0) as [Hsum Hb]; [lia|done|lia|].
  exists (total ks). change (Number.ofZ 0) with (Number.halves 0).
  split; [exact Hsum|]. split; [lia|].
  by rewrite exactSum_halves.
Qed.

Lemma foldl_calculateTotalScore (fs : list FeedbackData) (acc : Number.number) :
  foldl calculateTotalScore_fold acc fs
  = foldl Number.add acc (fs ≫= subscores).
Proof.
  revert acc. induction fs as [|f fs IH]; intros acc; [done|].
  cbn [foldl mbind list_bind]. rewrite foldl_app, IH. reflexivity.
Qed.

Lemma exactSum_app (xs ys : list Number.number) :
  (exactSum (xs ++ ys) == exactSum xs + exactSum ys)%Q.
Proof.
  induction xs as [|x xs IH]; simpl.
  - ring.
  - fold (exactSum (xs ++ ys)). fold (exactSum xs). rewrite IH. ring.
Qed.

Lemma subscoresSum_bind (fs : list FeedbackData) :
  (subscoresSum fs == exactSum (fs ≫= subscores))%Q.
Proof.
  induction fs as [|f fs IH]; [reflexivity|].
  cbn [subscoresSum foldr mbind list_bind].
  fold (subscoresSum fs). rewrite exactSum_app, IH. reflexivity.
Qed.

Lemma subscoresSum_Permutation (fs gs : list FeedbackData) :
  fs ≡ₚ gs → (subscoresSum fs == subscoresSum gs)%Q.
Proof.
  induction 1 as [|f fs gs _ IH|f g fs|fs gs hs _ IH1 _ IH2]; simpl.
  - reflexivity.
  - fold (subscoresSum fs). fold (subscoresSum gs). rewrite IH. reflexivity.
  - ring.
  - rewrite IH1. exact IH2.
Qed.

Lemma Object_values_Permutation (o : gmap N FeedbackData) :
  Object_values o ≡ₚ (map_to_list o).*2.
Proof.
  unfold Object_values. apply fmap_Permutation, merge_sort_Permutation.
Qed.

(** A history of graded records of the three parts: at most three records,
    each graded. *)
Lemma gradedHistory_values (u : UI) :
  gradedHistory u →
  (length (Object_values (resultsHistory u)) ≤ 3)%nat
  ∧ Forall graded (Object_values (resultsHistory u)).
Proof.
  intros Hg. split.
  - rewrite (Permutation_length (Object_values_Permutation _)).
    rewrite length_fmap, <- (length_fmap fst).
    assert (Hsub : (map_to_list (resultsHistory u)).*1 ⊆+ [INTRO; PICTURE; DISCUSSION]).
    { apply NoDup_submseteq; [apply NoDup_fst_map_to_list|].
      intros p ((p' & f) & -> & Hin%elem_of_map_to_list)%list_elem_of_fmap.
      simpl. destruct (Hg _ _ Hin) as [[->|[->| ->]] _]; set_solver. }
    by apply submseteq_length in Hsub.
  - rewrite (Object_values_Permutation _).
    apply Forall_forall.
    intros f ((p & f') & -> & Hin%elem_of_map_to_list)%list_elem_of_fmap.
    by destruct (Hg _ _ Hin).
Qed.

Lemma length_bind_subscores (fs : list FeedbackData) :
  length (fs ≫= subscores) = (4 * length fs)%nat.
Proof.
  induction fs as [|f fs IH]; [done|].
  cbn [mbind list_bind]. rewrite length_app, IH. simpl. lia.
Qed.

Lemma graded_bind (fs : list FeedbackData) :
  Forall graded fs → Forall onGrid (fs ≫= subscores).
Proof.
  induction 1 as [|f fs Hf _ IH]; [constructor|].
  cbn [mbind list_bind]. apply Forall_app. split; [exact Hf|exact IH].
Qed.

(** The total of graded records of the three parts: the number of a
    count of half points, the exact sum of the sub-scores in the order
    the code adds them. *)
Lemma calculateTotalScore_halves (u : UI) :
  gradedHistory u →
  ∃ k : Z,
    calculateTotalScore u = Number.halves k
    ∧ 0 ≤ k ≤ 260
    ∧ (inject_Z k / 2
       == exactSum (Object_values (resultsHistory u) ≫= subscores))%Q.
Proof.
  intros Hg. destruct (gradedHistory_values u Hg) as [Hlen Hgraded].
  unfold calculateTotalScore. rewrite foldl_calculateTotalScore.
  apply foldl_add_onGrid.
  - by apply graded_bind.
  - rewrite length_bind_subscores. lia.
Qed.

Lemma calculateTotalScore_exact (u : UI) :
  gradedHistory u →
  (exact (calculateTotalScore u)
   == subscoresSum (map_to_list (resultsHistory u)).*2)%Q.
Proof.
  intros Hg. destruct (calculateTotalScore_halves u Hg) as (k & -> & Hb & Hsum).
  rewrite exact_halves, Hsum, <- subscoresSum_bind by done.
  apply subscoresSum_Permutation, Object_values_Permutation.
Qed.

Lemma reportExample_graded : gradedHistory reportExample.
Proof.
  intros p f Hp.
  assert (Hcases : (p = INTRO ∧ f = points 4 4 4 4)
                   ∨ (p = PICTURE ∧ f = points 8 7 9 8)
                   ∨ (p = DISCUSSION ∧ f = points 9 8 7 9)).
  { unfold reportExample in Hp. cbn [resultsHistory] in Hp.
    apply lookup_insert_Some in Hp as [[<- <-]|[_ Hp]]; [by right; right|].
    apply lookup_insert_Some in Hp as [[<- <-]|[_ Hp]]; [by left|].
    apply lookup_insert_Some in Hp as [[<- <-]|[_ Hp]]; [by right; left|].
    by rewrite lookup_empty in Hp. }
  split; [destruct Hcases as [[-> _]|[[-> _]|[-> _]]]; auto|].
  destruct Hcases as [[_ ->]|[[_ ->]|[_ ->]]];
    unfold graded, points, scored, subscores;
    cbn [taskAchievementScore pronunciationScore grammarScore
         fluencyCoherenceScore];
    repeat (apply List.Forall_cons;
            [match goal with
             | |- onGrid (Number.ofZ ?n) =>
                 exists (2 * n); split; [lia|vm_compute; reflexivity]
             end|]);
    apply List.Forall_nil.
Defined.




End Aggregate.

(* ===================================================================== *)
(** ** The retry helper *)
(* ===================================================================== *)

Section Retry.
Import GeminiService.
Context {T : Type}.
Implicit Types (fn : nat → Outcome T) (attempt retries : nat) (delay : Z).

Lemma backoff_S delay n : backoff delay (S n) = delay :: backoff (delay * 2) n.
Proof.
  unfold backoff. simpl. f_equal; [lia|].
  rewrite <- fmap_S_seq, <- list_fmap_compose.
  apply list_fmap_ext. intros _ k _. simpl.
  rewrite Nat2Z.inj_succ, Z.pow_succ_r by lia. lia.
Qed.

(** What a run from call number [attempt] with [retries] retries left
    does: it sleeps [n ≤ retries] times with doubling delays, every call
    before the last was rejected with a quota error, the run settles as
    its last call did, and a rejected last call was either not a quota
    error or had no retry left. *)
Lemma fetchWithRetry_from_spec fn attempt retries delay :
  let run := fetchWithRetry_from fn attempt retries delay in
  let n := length (delays run) in
  (n ≤ retries)%nat
  ∧ calls run = S n
  ∧ delays run = backoff delay n
  ∧ (∀ k, (k < n)%nat → quotaRejected (fn (attempt + k)%nat))
  ∧ settled run = fn (attempt + n)%nat
  ∧ (∀ e, settled run = Rejected e → isQuotaError e = false ∨ n = retries).
Proof.
  revert attempt delay.
  induction retries as [|retries IH]; intros attempt delay; simpl.
  - destruct (fn attempt) as [v|e] eqn:Hfn; simpl;
      rewrite Nat.add_0_r, Hfn;
      (repeat split; [lia | intros k Hk; lia | auto]).
  - destruct (fn attempt) as [v|e] eqn:Hfn; simpl.
    + rewrite Nat.add_0_r, Hfn.
      repeat split; [lia | intros k Hk; lia | intros e' He'; discriminate].
    + destruct (isQuotaError e) eqn:Hq; simpl.
      * destruct (IH (S attempt) (delay * 2)%Z)
          as (Hle & Hcalls & Hdelays & Hbefore & Hlast & Hwhy).
        repeat split.
        -- lia.
        -- congruence.
        -- rewrite backoff_S. congruence.
        -- intros [|k] Hk.
           ++ rewrite Nat.add_0_r. exists e. auto.
           ++ replace (attempt + S k)%nat with (S attempt + k)%nat by lia.
              apply Hbefore. lia.
        -- rewrite Hlast. f_equal. lia.
        -- intros e' He'. destruct (Hwhy e' He') as [?|?]; [left|right]; congruence.
      * rewrite Nat.add_0_r, Hfn.
        repeat split; [lia | intros k Hk; lia |].
        intros e' [= <-]. auto.
Qed.

(** C9.  A call wrapped by [fetchWithRetry] is retried only after failures
    classified as quota errors, at most 5 times (6 calls), sleeping 2000,
    4000, 8000, 16000, 32000 ms; the run settles as its last call did, so
    a failure that is not a quota error propagates at once, and a quota
    error propagates once the 5 retries are used up. *)
Theorem fetchWithRetry_bounded_backoff fn :
  let run := fetchWithRetry fn in
  let n := length (delays run) in
  (n ≤ 5)%nat
  ∧ calls run = S n
  ∧ delays run = take n [2000; 4000; 8000; 16000; 32000]%Z
  ∧ (∀ k, (k < n)%nat → quotaRejected (fn k))
  ∧ settled run = fn n
  ∧ (∀ e, settled run = Rejected e → isQuotaError e = false ∨ n = 5%nat)
  ∧ (∀ e, fn 0%nat = Rejected e → isQuotaError e = false →
       settled run = Rejected e ∧ calls run = 1%nat ∧ delays run = []).
Proof.
  intros run n.
  destruct (fetchWithRetry_from_spec fn 0%nat 5%nat 2000)
    as (Hle & Hcalls & Hdelays & Hbefore & Hlast & Hwhy).
  fold (fetchWithRetry fn) in *. fold run in Hle, Hcalls, Hdelays, Hbefore, Hlast, Hwhy.
  fold n in Hle, Hcalls, Hdelays, Hbefore, Hlast, Hwhy.
  split; [exact Hle|]. split; [exact Hcalls|]. split.
  { rewrite Hdelays.
    assert (Hn : (n = 0 ∨ n = 1 ∨ n = 2 ∨ n = 3 ∨ n = 4 ∨ n = 5)%nat) by lia.
    destruct Hn as [->|[->|[->|[->|[->| ->]]]]]; reflexivity. }
  split; [exact Hbefore|]. split; [exact Hlast|]. split; [exact Hwhy|].
  intros e Hfn Hq. subst run. unfold fetchWithRetry. simpl.
  rewrite Hfn, Hq. auto.
Qed.

End Retry.

(* ===================================================================== *)
(** ** The record built from the response *)
(* ===================================================================== *)

Section ExamResult.
Import GeminiService.

(** *** The keys the loop of [clean] visits *)

Lemma firstOccurrences_spec (seen keys : list string) :
  NoDup (firstOccurrences seen keys)
  ∧ ∀ key, key ∈ firstOccurrences seen keys ↔ key ∈ keys ∧ key ∉ seen.
Proof.
  revert seen. induction keys as [|k keys IH]; intros seen.
  - split; [constructor|]. intros key. set_solver.
  - cbn [firstOccurrences]. case_bool_decide as Hk.
    + destruct (IH seen) as [Hnd Hin]. split; [exact Hnd|].
      intros key. rewrite Hin. set_solver.
    + destruct (IH (k :: seen)) as [Hnd Hin]. split.
      * constructor; [|exact Hnd]. rewrite Hin. set_solver.
      * intros key. rewrite elem_of_cons, Hin.
        destruct (decide (key = k)) as [->|Hne]; set_solver.
Qed.

Lemma omap_indexed (keys : list string) :
  (omap indexed keys).*2 = filter (λ key, arrayIndex key ≠ None) keys.
Proof.
  induction keys as [|k keys IH]; [done|].
  cbn [omap list_omap]. unfold indexed at 1. rewrite filter_cons.
  destruct (arrayIndex k) as [n|] eqn:Hk.
  - rewrite decide_True by done. cbn [fmap list_fmap snd]. by rewrite <- IH.
  - rewrite decide_False by (intros H; by apply H). exact IH.
Qed.

Lemma filter_complement (keys : list string) :
  filter (λ key, arrayIndex key ≠ None) keys
  ++ filter (λ key, arrayIndex key = None) keys ≡ₚ keys.
Proof.
  induction keys as [|k keys IH]; [done|].
  rewrite !filter_cons. destruct (arrayIndex k) as [n|] eqn:Hk.
  - rewrite decide_True, decide_False by done. simpl. by rewrite IH.
  - rewrite decide_False, decide_True by (done || (intros H; by apply H)).
    rewrite <- Permutation_middle. by rewrite IH.
Qed.

Lemma forInKeys_Permutation {A} (members : list (string * A)) :
  forInKeys members ≡ₚ firstOccurrences [] members.*1.
Proof.
  unfold forInKeys.
  rewrite (fmap_Permutation snd _ _ (merge_sort_Permutation _ _)).
  rewrite omap_indexed. apply filter_complement.
Qed.

Lemma forInKeys_spec {A} (members : list (string * A)) :
  NoDup (forInKeys members)
  ∧ ∀ key, key ∈ forInKeys members ↔ key ∈ members.*1.
Proof.
  destruct (firstOccurrences_spec [] members.*1) as [Hnd Hin].
  split.
  - by rewrite forInKeys_Permutation.
  - intros key. rewrite forInKeys_Permutation, Hin. set_solver.
Qed.

Lemma lookup_last_None {A} (key : string) (members : list (string * A)) :
  lookup_last key members = None ↔ key ∉ members.*1.
Proof.
  induction members as [|[k v] members IH]; [set_solver|].
  cbn [lookup_last fmap list_fmap fst]. rewrite not_elem_of_cons, <- IH.
  destruct (lookup_last key members) as [v'|]; [naive_solver|].
  destruct (String.eqb_spec k key) as [->|Hne]; naive_solver.
Qed.

Lemma lookup_last_fmap {A B} (f : A → B) (key : string)
    (members : list (string * A)) :
  lookup_last key (map (λ kv, match kv with (k, v) => (k, f v) end) members)
  = f <$> lookup_last key members.
Proof.
  induction members as [|[k v] members IH]; [done|].
  cbn [map lookup_last]. rewrite IH.
  destruct (lookup_last key members); [done|].
  by destruct (String.eqb k key).
Qed.

(** *** The loop of [clean] *)

Lemma lookup_own_store (key k : string) (v : value)
    (members : list (string * value)) :
  lookup_own key (store k v members)
  = if String.eqb k key then Some v else lookup_own key members.
Proof.
  induction members as [|[k' x] members IH]; cbn [store lookup_own].
  - done.
  - destruct (String.eqb_spec k' k) as [->|Hne]; cbn [lookup_own].
    + by destruct (String.eqb k key).
    + rewrite IH. destruct (String.eqb_spec k' key) as [->|Hne'].
      * by rewrite (proj2 (String.eqb_neq k key)) by done.
      * done.
Qed.

Lemma clean_loop (cleaned : list (string * value)) (keys : list string)
    (proto : option value) (members : list (string * value)) :
  NoDup keys →
  (∀ key, key ∈ keys → lookup_last key cleaned ≠ None) →
  lookup_own "__proto__" members = None →
  ("__proto__" ∈ keys → proto = None) →
  ∃ members',
    foldl (assignCleaned cleaned) (VObject proto members) keys
    = VObject
        (if decide ("__proto__" ∈ keys)
         then lookup_last "__proto__" cleaned ≫= asPrototype
         else proto)
        members'
    ∧ ∀ key,
        lookup_own key members'
        = if decide (key ∈ keys ∧ key ≠ "__proto__")
          then lookup_last key cleaned
          else lookup_own key members.
Proof.
  intros Hnd. revert proto members.
  induction Hnd as [|k keys Hk Hnd IH]; intros proto members Hsome Hown Hproto.
  - exists members. split; [done|]. intros key.
    rewrite decide_False by set_solver. done.
  - cbn [foldl]. unfold assignCleaned at 2.
    destruct (lookup_last k cleaned) as [v|] eqn:Hv;
      [|by destruct (Hsome k); [set_solver|]].
    destruct (String.eqb_spec k "__proto__") as [->|Hne].
    + (* the accessor *)
      assert (Hassign : assign (VObject proto members) "__proto__" v
                = VObject (Some v ≫= asPrototype) members).
      { unfold assign. cbn [String.eqb Ascii.eqb Bool.eqb andb reachesAccessor].
        rewrite Hown, Hproto by set_solver.
        destruct v; reflexivity. }
      rewrite Hassign.
      destruct (IH (Some v ≫= asPrototype) members)
        as (members' & Hfold & Hlook); [set_solver|done|done|].
      exists members'. rewrite Hfold, decide_False by done.
      rewrite decide_True by set_solver. rewrite Hv.
      split; [done|]. intros key. rewrite Hlook.
      destruct (decide (key = "__proto__")) as [->|Hkey].
      * rewrite !decide_False by naive_solver. done.
      * destruct (decide (key ∈ keys)) as [Hin|Hnin].
        -- rewrite !decide_True by set_solver. done.
        -- rewrite !decide_False by set_solver. done.
    + assert (Hassign : assign (VObject proto members) k v
                = VObject proto (store k v members)).
      { unfold assign. by rewrite (proj2 (String.eqb_neq _ _) Hne). }
      rewrite Hassign.
      destruct (IH proto (store k v members)) as (members' & Hfold & Hlook).
      * set_solver.
      * rewrite lookup_own_store.
        by rewrite (proj2 (String.eqb_neq _ _) Hne).
      * set_solver.
      * exists members'. rewrite Hfold. split.
        { destruct (decide ("__proto__" ∈ keys)) as [Hin|Hnin].
          - rewrite decide_True by set_solver. done.
          - rewrite decide_False by set_solver. done. }
        intros key. rewrite Hlook, lookup_own_store.
        destruct (String.eqb_spec k key) as [<-|Hkey].
        -- rewrite decide_False by naive_solver.
           rewrite decide_True by (split; [set_solver|done]). done.
        -- destruct (decide (key ∈ keys ∧ key ≠ "__proto__")) as [[Hin H2]|Hnin].
           ++ rewrite decide_True by (split; [set_solver|done]). done.
           ++ rewrite decide_False by set_solver. done.
Qed.

(** What [clean] makes of a parsed object: the members become own
    properties, each cleaned, but for a member named [__proto__], which
    becomes the prototype when it is an object, an array or [null], and is
    dropped when it is anything else. *)
Lemma clean_object (members : list (string * json)) :
  ∃ members',
    clean (JObject members)
    = VObject ((clean <$> lookup_last "__proto__" members) ≫= asPrototype)
        members'
    ∧ ∀ key,
        lookup_own key members'
        = if decide (key = "__proto__") then None
          else clean <$> lookup_last key members.
Proof.
  cbn [clean].
  set (cleaned := map (λ kv, match kv with (key, v) => (key, clean v) end)
                    members).
  assert (Hcleaned : ∀ key, lookup_last key cleaned
                            = clean <$> lookup_last key members)
    by (intros key; apply lookup_last_fmap).
  destruct (forInKeys_spec members) as [Hnd Hin].
  destruct (clean_loop cleaned (forInKeys members) None []) as (members' & Hfold & Hlook).
  - exact Hnd.
  - intros key Hkey%Hin. rewrite Hcleaned.
    destruct (lookup_last key members) eqn:Hl; [done|].
    by apply lookup_last_None in Hl.
  - done.
  - done.
  - exists members'. fold (assignCleaned cleaned). rewrite Hfold. split.
    + destruct (decide ("__proto__" ∈ forInKeys members)) as [Hp|Hp].
      * by rewrite Hcleaned.
      * rewrite Hin in Hp. apply lookup_last_None in Hp. by rewrite Hp.
    + intros key. rewrite Hlook. cbn [lookup_own].
      destruct (decide (key = "__proto__")) as [->|Hkey].
      * rewrite decide_False by naive_solver. done.
      * destruct (decide (key ∈ forInKeys members)) as [Hk|Hk].
        -- rewrite decide_True by done. apply Hcleaned.
        -- rewrite decide_False by naive_solver.
           rewrite Hin in Hk. apply lookup_last_None in Hk. by rewrite Hk.
Qed.

Lemma clean_VNull (parsed : json) : clean parsed = VNull → parsed = JNull.
Proof.
  destruct parsed as [| | | | |members]; try done.
  destruct (clean_object members) as (members' & -> & _). done.
Qed.

Lemma or_default_defaulted (kind : value → bool) (d : value) (x : option value) :
  d ≠ VNull → kind d = true → defaulted kind d x (or_default x d).
Proof.
  intros Hd Hkind. unfold defaulted, truthyOr, or_default.
  destruct x as [v|]; [destruct (truthy v) eqn:Hv|].
  - split; [intros ->; discriminate|]. split; [left; eauto|]. auto.
  - split; [exact Hd|]. split; [|auto].
    right. split; [|reflexivity]. intros v' [= <-]. exact Hv.
  - split; [exact Hd|]. split; [|auto].
    right. split; [|reflexivity]. intros v' [=].
Qed.

(** C10, as the code has it.  For a parsed response other than [null] a
    result is returned, and each field of its feedback record is the
    truthy value read from the cleaned response or else the default (0
    for the four sub-scores, the empty string for the text, the empty list
    for the three lists): no field is [undefined] or [null].  A sub-score
    is a number whenever the property read is a number or absent, and
    likewise the text is a string and the lists are arrays.  The property
    read from a response that is an object without a member named
    [__proto__] is the response's own member, cleaned, for every key that
    [Object.prototype] does not define. *)
Theorem examResult_fields_defaulted (parsed : json) :
  parsed ≠ JNull →
  ∃ res, examResult parsed = Some res
    ∧ let get := prop (clean parsed) in
      let fb := raw_feedback res in
      defaulted isNumber (VNumber (Number.ofZ 0)) (get "taskAchievementScore")
        (raw_taskAchievementScore fb)
      ∧ defaulted isNumber (VNumber (Number.ofZ 0)) (get "pronunciationScore")
          (raw_pronunciationScore fb)
      ∧ defaulted isNumber (VNumber (Number.ofZ 0)) (get "grammarScore")
          (raw_grammarScore fb)
      ∧ defaulted isNumber (VNumber (Number.ofZ 0))
          (get "fluencyCoherenceScore") (raw_fluencyCoherenceScore fb)
      ∧ defaulted isString (VString "") (get "feedbackText")
          (raw_feedbackText fb)
      ∧ defaulted isArray (VArray []) (get "mistakesAndCorrections")
          (raw_mistakesAndCorrections fb)
      ∧ defaulted isArray (VArray []) (get "weaknesses") (raw_weaknesses fb)
      ∧ defaulted isArray (VArray []) (get "improvements")
          (raw_improvements fb)
      ∧ ∀ members key,
          parsed = JObject members →
          lookup_last "__proto__" members = None →
          key ∉ objectPrototypeKeys →
          get key = clean <$> lookup_last key members.
Proof.
  intros Hnull.
  assert (Hclean : clean parsed ≠ VNull)
    by (intros H; apply Hnull, clean_VNull, H).
  assert (Hown : ∀ members key,
            parsed = JObject members →
            lookup_last "__proto__" members = None →
            key ∉ objectPrototypeKeys →
            prop (clean parsed) key = clean <$> lookup_last key members).
  { intros members key -> Hproto _.
    destruct (clean_object members) as (members' & -> & Hlook).
    cbn [prop]. rewrite Hlook, Hproto.
    cbn [fmap option_fmap option_map mbind option_bind].
    destruct (decide (key = "__proto__")) as [->|_]; [by rewrite Hproto|].
    by destruct (clean <$> lookup_last key members). }
  unfold examResult.
  destruct (clean parsed) as [|b|q|str|items|proto members'] eqn:Hc;
    [congruence|..];
    (eexists; split; [reflexivity|]; cbn zeta; cbn [raw_feedback
       raw_taskAchievementScore raw_pronunciationScore raw_grammarScore
       raw_fluencyCoherenceScore raw_feedbackText raw_mistakesAndCorrections
       raw_weaknesses raw_improvements];
     repeat match goal with |- _ ∧ _ => split end;
     try (apply or_default_defaulted; done); exact Hown).
Qed.

Lemma examResult_fields_defaulted_witness :
  sparseResponse ≠ JNull
  ∧ ∃ res, examResult sparseResponse = Some res
      ∧ raw_grammarScore (raw_feedback res) = VNumber (Number.ofZ 7)
      ∧ raw_taskAchievementScore (raw_feedback res) = VNumber (Number.ofZ 0)
      ∧ raw_feedbackText (raw_feedback res) = VString ""
      ∧ raw_weaknesses (raw_feedback res) = VArray [].
Proof.
  split; [discriminate|].
  destruct (examResult_fields_defaulted sparseResponse) as (res & Hres & _);
    [discriminate|].
  exists res. split; [exact Hres|].
  vm_compute in Hres. injection Hres as <-. vm_compute. auto.
Defined.

(** C10, as stated, fails: a response whose [taskAchievementScore] is the
    string ["high"] yields a record whose sub-score is that string, not a
    number. *)
Lemma examResult_score_not_a_number :
  (λ res, (raw_taskAchievementScore (raw_feedback res),
           isNumber (raw_taskAchievementScore (raw_feedback res))))
    <$> examResult stringScoreResponse
  = Some (VString "high", false).
Proof. vm_compute. reflexivity. Qed.

End ExamResult.

(* ===================================================================== *)
(** ** Renders and effects *)
(* ===================================================================== *)

Section Effects.
Implicit Types (r prev : UI) (s : State).

Lemma timerEffect_idle r s : expires r = false → timerEffect r s = s.
Proof.
  unfold expires, timerEffect, handleSpeakingDone. intros H.
  destruct (shouldRunTimer r); [done|].
  destruct (bool_decide (timeLeft r = 0)); [|done].
  destruct (hasStarted r); [|done].
  case_decide as Hs; [by rewrite bool_decide_eq_true_2 in H|].
  rewrite bool_decide_eq_false_2 in H by done.
  destruct (bool_decide (status r = USER_SPEAKING)), (isRecording r); done.
Qed.

Lemma expires_status r :
  status r ≠ USER_PREP → status r ≠ USER_SPEAKING → expires r = false.
Proof.
  intros H1 H2. unfold expires.
  rewrite (bool_decide_eq_false_2 (status r = USER_PREP)) by done.
  rewrite (bool_decide_eq_false_2 (status r = USER_SPEAKING)) by done.
  apply andb_false_r.
Qed.

Lemma expires_running r : shouldRunTimer r = true → expires r = false.
Proof. unfold expires. by intros ->. Qed.

Lemma stopRecording_cases r s :
  stopRecording r s = s
  ∨ ∃ rec, mediaRecorderRef (refs s) = Some rec ∧ recording rec = true
      ∧ stopRecording r s = setStatus PROCESSING (setIsRecording false (stopped rec s)).
Proof.
  unfold stopRecording, stop.
  destruct (mediaRecorderRef (refs s)) as [rec|] eqn:Hrec; [|by left].
  destruct (isRecording r); [|by left].
  destruct (recording rec) eqn:Hon; [|by left].
  right. by exists rec.
Qed.

Lemma timerEffect_cases r s :
  timerEffect r s = s
  ∨ timerEffect r s = handlePrepDone r s
  ∨ ∃ rec, mediaRecorderRef (refs s) = Some rec ∧ recording rec = true
      ∧ timerEffect r s = setStatus PROCESSING (setIsRecording false (stopped rec s)).
Proof.
  unfold timerEffect, handleSpeakingDone.
  destruct (shouldRunTimer r); [by left|].
  destruct (_ && hasStarted r); [|by left].
  case_decide; [by right; left|].
  destruct (_ && isRecording r); [|by left].
  destruct (stopRecording_cases r s) as [->|(rec & ? & ? & ->)]; [by left|].
  right; right. by exists rec.
Qed.

Lemma partEffect_cases r s :
  partEffect r s = s
  ∨ partEffect r s = set_introAudioUrlRef false (playAudioUrl r s)
  ∨ partEffect r s = playAiAudio r s
  ∨ partEffect r s = setupNextPart r (part r) s.
Proof.
  unfold partEffect.
  destruct (hasStarted r); [|by left].
  destruct (_ && isNewPartRef (refs s)).
  - destruct (introAudioUrlRef (refs s)); auto.
  - destruct (isNewPartRef (refs s)); auto.
Qed.

Lemma attachRefs_ui r s : ui (attachRefs r s) = ui s.
Proof. unfold attachRefs. by case_decide. Qed.

Lemma attachRefs_tasks r s : tasks (attachRefs r s) = tasks s.
Proof. unfold attachRefs. by case_decide. Qed.

Lemma timerEffect_settled r s : settledAfter (ui s) (ui (timerEffect r s)).
Proof.
  unfold settledAfter.
  destruct (timerEffect_cases r s) as [->|[->|(rec & _ & _ & ->)]].
  - by left.
  - right. by apply expires_running.
  - right. by apply expires_status.
Qed.

Lemma partEffect_settled r s : settledAfter (ui s) (ui (partEffect r s)).
Proof.
  unfold settledAfter.
  destruct (partEffect_cases r s) as [->|[->|[->| ->]]];
    [by left|right..]; unfold playAudioUrl, setupNextPart;
    apply expires_status; try done.
  - by destruct (audioRef _).
  - by destruct (audioRef _).
  - by case_decide.
  - by case_decide.
Qed.

Lemma timerEffect_partDeps r s : partDeps (ui (timerEffect r s)) = partDeps (ui s).
Proof. by destruct (timerEffect_cases r s) as [->|[->|(rec & _ & _ & ->)]]. Qed.

Lemma partEffect_partDeps r s : partDeps (ui (partEffect r s)) = partDeps (ui s).
Proof.
  destruct (partEffect_cases r s) as [->|[->|[->| ->]]];
    [done|..]; unfold playAudioUrl, setupNextPart; try done.
  - by destruct (audioRef _).
  - by case_decide.
Qed.

Lemma commit_partDeps prev s : partDeps (ui (commit prev s)) = partDeps (ui s).
Proof.
  unfold commit.
  repeat case_decide;
    rewrite ?partEffect_partDeps, ?timerEffect_partDeps, ?attachRefs_ui; done.
Qed.

Lemma settledAfter_trans u1 u2 u3 :
  settledAfter u1 u2 → settledAfter u2 u3 → settledAfter u1 u3.
Proof. intros [->|?] [->|?]; unfold settledAfter; auto. Qed.

Lemma commit_settled prev s : settledAfter (ui s) (ui (commit prev s)).
Proof.
  unfold commit.
  assert (H0 : settledAfter (ui s) (ui (attachRefs (ui s) s)))
    by (unfold settledAfter; left; apply attachRefs_ui).
  repeat case_decide;
    repeat first [ exact H0
                 | eapply settledAfter_trans; [|apply partEffect_settled]
                 | eapply settledAfter_trans; [|apply timerEffect_settled] ].
Qed.

(** The render that the effects of a commit cause runs no effect: it only
    re-attaches the refs. *)
Lemma commit_commit prev s :
  let s' := commit prev s in commit (ui s) s' = attachRefs (ui s') s'.
Proof.
  intros s'. unfold commit at 1. fold s'.
  rewrite (decide_True (P := partDeps (ui s) = partDeps (ui s')))
    by (symmetry; apply commit_partDeps).
  case_decide as Hdeps; [done|].
  apply timerEffect_idle.
  destruct (commit_settled prev s) as [Heq|Hex]; [|exact Hex].
  fold s' in Heq. by rewrite Heq in Hdeps.
Qed.

Lemma step_eq s e :
  step s e = let s' := commit (ui s) (dispatch e s) in attachRefs (ui s') s'.
Proof. unfold step. apply commit_commit. Qed.

(** A commit whose render gives the effects nothing to do. *)
Lemma commit_idle prev s :
  expires (ui s) = false → partDeps prev = partDeps (ui s) →
  commit prev s = attachRefs (ui s) s.
Proof.
  intros Hex Hdeps. unfold commit.
  rewrite (decide_True _ _ Hdeps).
  case_decide; [done|]. by apply timerEffect_idle.
Qed.

End Effects.

(* ===================================================================== *)
(** ** Frames of a commit *)
(* ===================================================================== *)

Section Frames.
Implicit Types (r prev : UI) (s : State) (e : Event).

(** A component of the state that no effect handler touches is not
    touched by a commit. *)
Lemma commit_frame {A} (π : State → A) :
  (∀ r s, π (attachRefs r s) = π s) →
  (∀ r s, π (handlePrepDone r s) = π s) →
  (∀ rec s, π (setStatus PROCESSING (setIsRecording false (stopped rec s))) = π s) →
  (∀ r s, π (set_introAudioUrlRef false (playAudioUrl r s)) = π s) →
  (∀ r s, π (playAiAudio r s) = π s) →
  (∀ r p s, π (setupNextPart r p s) = π s) →
  ∀ prev s, π (commit prev s) = π s.
Proof.
  intros Hattach Hprep Hstop Hurl Hsynth Hsetup prev s. unfold commit.
  assert (Htimer : ∀ r s, π (timerEffect r s) = π s).
  { intros r s0.
    destruct (timerEffect_cases r s0) as [->|[->|(rec & _ & _ & ->)]]; auto. }
  assert (Hpart : ∀ r s, π (partEffect r s) = π s).
  { intros r s0.
    destruct (partEffect_cases r s0) as [->|[->|[->| ->]]]; auto. }
  repeat case_decide; rewrite ?Hpart, ?Htimer, ?Hattach; done.
Qed.

Ltac frame π :=
  intros prev s; apply (commit_frame π); intros;
  unfold attachRefs, playAudioUrl, setupNextPart;
  repeat first [case_decide | case_match]; done.

Lemma commit_resultsHistory prev s :
  resultsHistory (ui (commit prev s)) = resultsHistory (ui s).
Proof. revert prev s. frame (λ s, resultsHistory (ui s)). Qed.

Lemma commit_currentFeedback prev s :
  currentFeedback (ui (commit prev s)) = currentFeedback (ui s).
Proof. revert prev s. frame (λ s, currentFeedback (ui s)). Qed.

Lemma commit_aiMessage prev s :
  aiMessage (ui (commit prev s)) = aiMessage (ui s).
Proof. revert prev s. frame (λ s, aiMessage (ui s)). Qed.

Lemma commit_autoAdvanceRef prev s :
  autoAdvanceRef (refs (commit prev s)) = autoAdvanceRef (refs s).
Proof. revert prev s. frame (λ s, autoAdvanceRef (refs s)). Qed.

Lemma commit_props prev s : props (commit prev s) = props s.
Proof. revert prev s. frame props. Qed.

Lemma attachRefs_turnCountRef r s :
  turnCountRef (refs (attachRefs r s)) = turnCountRef (refs s).
Proof. unfold attachRefs. by case_decide. Qed.

Lemma attachRefs_mediaRecorderRef r s :
  mediaRecorderRef (refs (attachRefs r s)) = mediaRecorderRef (refs s).
Proof. unfold attachRefs. by case_decide. Qed.

Lemma attachRefs_isNewPartRef r s :
  isNewPartRef (refs (attachRefs r s)) = isNewPartRef (refs s).
Proof. unfold attachRefs. by case_decide. Qed.

(** An event whose handler leaves the timer effect and the part effect
    nothing to do: the step is the handler, then the refs are attached. *)
Lemma step_idle s e :
  let s1 := dispatch e s in
  expires (ui s1) = false → partDeps (ui s1) = partDeps (ui s) →
  step s e = attachRefs (ui s1) (attachRefs (ui s1) s1).
Proof.
  intros s1 Hex Hdeps. rewrite step_eq. fold s1. simpl.
  rewrite commit_idle by done. by rewrite attachRefs_ui.
Qed.

End Frames.

Section Submission.
Implicit Types (r : UI) (s : State).

Lemma dispatch_EvalResolved s i r nextTurn result :
  tasks s !! i = Some (Submission r nextTurn) →
  dispatch (EvalResolved i result) s
  = handleSubmission_resolved r nextTurn result (settle i s).
Proof. intros H. simpl. by rewrite H. Qed.

Lemma dispatch_EvalRejected s i r nextTurn :
  tasks s !! i = Some (Submission r nextTurn) →
  dispatch (EvalRejected i) s = handleSubmission_rejected (settle i s).
Proof. intros H. simpl. by rewrite H. Qed.

(** C2.  When the evaluation of a submission resolves with the service
    asking to continue ([moveNext] false) and the incremented turn counter
    [nextTurn] has reached 3, the counter is committed, the part is
    completed and the returned record is written into the results history
    under the part; no further prompt is played. *)
Theorem turn_cap_overrides_continue s i r nextTurn result :
  tasks s !! i = Some (Submission r nextTurn) →
  moveNext result = false →
  3 ≤ nextTurn →
  let s' := step s (EvalResolved i result) in
  turnCountRef (refs s') = nextTurn
  ∧ status (ui s') = PART_COMPLETED
  ∧ resultsHistory (ui s') = <[part r := feedback result]> (resultsHistory (ui s))
  ∧ currentFeedback (ui s') = Some (feedback result)
  ∧ tasks s' = delete i (tasks s).
Proof.
  intros Htask Hcontinue Hcap s'.
  assert (Hs1 : dispatch (EvalResolved i result) s
    = set_autoAdvanceRef false (setStatus PART_COMPLETED
        (setResultsHistory (λ prev, <[part r := feedback result]> prev)
          (setCurrentFeedback (Some (feedback result))
            (set_turnCountRef nextTurn (settle i s)))))).
  { rewrite (dispatch_EvalResolved _ _ _ _ _ Htask).
    unfold handleSubmission_resolved. rewrite Hcontinue.
    rewrite (bool_decide_eq_true_2 _ Hcap). by rewrite orb_true_r. }
  subst s'. rewrite step_idle; rewrite Hs1; [|by apply expires_status|done].
  rewrite !attachRefs_ui, !attachRefs_turnCountRef, !attachRefs_tasks. done.
Qed.

End Submission.

(* ===================================================================== *)
(** ** What every reachable state satisfies *)
(* ===================================================================== *)

Create HintDb exam discriminated.
#[local] Hint Unfold dispatch handleStartExam handlePrepDone handleSpeakingDone
  startRecording startRecording_granted stopRecording stop stopped
  handleFinishWillingly handleSkipPart handleSkipPart_rest advancePart
  tick setupNextPart_topic setupNextPart playAiAudio playAudioUrl
  handleAiFinishedSpeaking handleSubmission handleSubmission_resolved
  handleSubmission_rejected finishButton skipButton : exam.

Ltac handlers := repeat autounfold with exam.

Ltac cases :=
  repeat first [ progress simplify_eq/= | case_decide | case_bool_decide | case_match ].

Ltac conj_split := repeat match goal with |- _ ∧ _ => split end.

Section Invariant.
Implicit Types (r prev : UI) (s : State) (e : Event).

(** A property that every effect handler preserves is preserved by a
    commit. *)
Lemma commit_preserves (P : State → Prop) :
  (∀ r s, P s → P (attachRefs r s)) →
  (∀ r s, P s → P (handlePrepDone r s)) →
  (∀ rec s, P s → P (setStatus PROCESSING (setIsRecording false (stopped rec s)))) →
  (∀ r s, P s → P (set_introAudioUrlRef false (playAudioUrl r s))) →
  (∀ r s, P s → P (playAiAudio r s)) →
  (∀ r p s, P s → P (setupNextPart r p s)) →
  ∀ prev s, P s → P (commit prev s).
Proof.
  intros Hattach Hprep Hstop Hurl Hsynth Hsetup prev s HP. unfold commit.
  assert (Htimer : ∀ r s, P s → P (timerEffect r s)).
  { intros r s0 H0.
    destruct (timerEffect_cases r s0) as [->|[->|(rec & _ & _ & ->)]]; auto. }
  assert (Hpart : ∀ r s, P s → P (partEffect r s)).
  { intros r s0 H0.
    destruct (partEffect_cases r s0) as [->|[->|[->| ->]]]; auto. }
  repeat case_decide; auto.
Qed.

Ltac preserved P :=
  apply (commit_preserves P); intros;
  unfold attachRefs in *; repeat autounfold with exam in *; cases;
  try done; try lia.


Lemma commit_timeBounds prev s : timeBounds s → timeBounds (commit prev s).
Proof. revert prev s. unfold timeBounds. preserved (λ s, 0 ≤ timeLeft (ui s) ≤ totalTime (ui s)). Qed.

Lemma dispatch_timeBounds e s : timeBounds s → timeBounds (dispatch e s).
Proof. unfold timeBounds. intros H. destruct e; handlers; cases; lia. Qed.

Lemma attachRefs_attachRefs r s : attachRefs r (attachRefs r s) = attachRefs r s.
Proof. unfold attachRefs. by case_decide. Qed.

Lemma attachRefs_audioOk s : audioOk (attachRefs (ui s) s).
Proof.
  unfold audioOk, attachRefs. case_decide as Hscreen; simpl.
  - by rewrite bool_decide_eq_true_2.
  - by rewrite bool_decide_eq_false_2.
Qed.

Lemma attachRefs_id s : audioOk s → attachRefs (ui s) s = s.
Proof.
  intros [Href Hended]. unfold attachRefs.
  destruct s as [p u [n a t m i au en] ts]; simpl in *.
  case_decide as Hscreen.
  - rewrite bool_decide_eq_true_2 in Href by done. by subst.
  - rewrite bool_decide_eq_false_2 in Href by done. subst.
    by rewrite Hended.
Qed.

Lemma step_audioOk s e : audioOk (step s e).
Proof.
  rewrite step_eq. simpl.
  set (s' := commit _ _).
  pose proof (attachRefs_audioOk s') as H.
  unfold audioOk in *. by rewrite !attachRefs_ui in *.
Qed.

Lemma step_timeBounds s e : timeBounds s → timeBounds (step s e).
Proof.
  intros H. rewrite step_eq. simpl.
  unfold timeBounds. rewrite attachRefs_ui.
  by apply commit_timeBounds, dispatch_timeBounds.
Qed.

Lemma dispatch_part e s :
  (1 ≤ part (ui s))%N → (1 ≤ part (ui (dispatch e s)))%N.
Proof. intros H. destruct e; handlers; cases; lia. Qed.

Lemma step_part s e : (1 ≤ part (ui s))%N → (1 ≤ part (ui (step s e)))%N.
Proof.
  intros H. rewrite step_eq. simpl. rewrite attachRefs_ui.
  pose proof (commit_partDeps (ui s) (dispatch e s)) as [= _ ->].
  by apply dispatch_part.
Qed.

Lemma commit_feedbackTurns prev s : feedbackTurns s → feedbackTurns (commit prev s).
Proof.
  revert prev s. unfold feedbackTurns.
  preserved (λ s, currentFeedback (ui s) = None → turnCountRef (refs s) = 0); auto.
Qed.

Lemma dispatch_feedbackTurns e s :
  e ≠ ClickContinue → feedbackTurns s → feedbackTurns (dispatch e s).
Proof.
  unfold feedbackTurns. intros He H Hcf.
  destruct e; try done; repeat autounfold with exam in *; cases; auto.
Qed.

Lemma screen_summary (u : UI) :
  screen u = SummaryScreen →
  hasStarted u = true ∧ status u = PART_COMPLETED ∧ is_Some (currentFeedback u).
Proof.
  unfold screen. destruct (hasStarted u); [|done]. simpl.
  repeat case_decide; try done.
  destruct (currentFeedback u); [|done]. eauto.
Qed.

(** Continuing to the next part: the handler, then the part effect, which
    starts [setupNextPart] for the new part. *)
Lemma step_ClickContinue_next s :
  screen (ui s) = SummaryScreen →
  isStandalone (props s) || bool_decide (part (ui s) = DISCUSSION) = false →
  (1 ≤ part (ui s))%N →
  let s1 := advancePart (ui s) s in
  let s2 := setupNextPart (ui s1) (part (ui s1)) (attachRefs (ui s1) s1) in
  step s ClickContinue = attachRefs (ui s2) s2.
Proof.
  intros Hscreen Hlast Hpart s1 s2.
  destruct (screen_summary _ Hscreen) as (Hstarted & Hstatus & _).
  assert (Hs1 : dispatch ClickContinue s = s1).
  { simpl. by rewrite decide_True. }
  assert (Hui : ui s1 = ui (setPart (λ n, (n + 1)%N)
      (setCurrentFeedback None (set_isNewPartRef true (setStatus PROCESSING s))))).
  { subst s1. unfold advancePart. by rewrite Hlast. }
  assert (Hnew : isNewPartRef (refs s1) = true).
  { subst s1. unfold advancePart. by rewrite Hlast. }
  rewrite step_eq, Hs1. simpl.
  assert (Hcommit : commit (ui s) s1
    = setupNextPart (ui s1) (part (ui s1)) (attachRefs (ui s1) s1)).
  { unfold commit.
    rewrite (timerEffect_idle (ui s1))
      by (apply expires_status; rewrite Hui; done).
    assert (Hdeps : partDeps (ui s) ≠ partDeps (ui s1))
      by (rewrite Hui; simpl; intros [= ?]; lia).
    destruct (decide (timerDeps (ui s) = timerDeps (ui s1)));
      (destruct (decide (partDeps (ui s) = partDeps (ui s1))); [done|]);
      unfold partEffect;
      rewrite attachRefs_isNewPartRef, Hnew;
      (replace (hasStarted (ui s1)) with true by (by rewrite Hui));
      (rewrite bool_decide_eq_false_2
         by (rewrite Hui; simpl; unfold INTRO; lia));
      done. }
  by rewrite Hcommit.
Qed.

Lemma step_feedbackTurns s e :
  (1 ≤ part (ui s))%N → feedbackTurns s → feedbackTurns (step s e).
Proof.
  intros Hpart H.
  assert (e = ClickContinue ∨ e ≠ ClickContinue) as [->|He]
    by (destruct e; (by left) || (by right)).
  - destruct (decide (screen (ui s) = SummaryScreen)) as [Hscreen|Hscreen];
      [destruct (isStandalone (props s) || bool_decide (part (ui s) = DISCUSSION))
         eqn:Hlast|].
    + rewrite step_eq. simpl. rewrite decide_True by done.
      unfold feedbackTurns. rewrite attachRefs_ui, attachRefs_turnCountRef.
      apply commit_feedbackTurns. unfold advancePart. by rewrite Hlast.
    + pose proof (step_ClickContinue_next s Hscreen Hlast Hpart) as Hstep.
      cbv zeta in Hstep. rewrite Hstep.
      unfold feedbackTurns. rewrite attachRefs_turnCountRef.
      intros _. unfold setupNextPart. destruct (decide _); reflexivity.
    + rewrite step_eq. simpl. rewrite decide_False by done.
      unfold feedbackTurns. rewrite attachRefs_ui, attachRefs_turnCountRef.
      by apply commit_feedbackTurns.
  - rewrite step_eq. simpl.
    unfold feedbackTurns. rewrite attachRefs_ui, attachRefs_turnCountRef.
    by apply commit_feedbackTurns, dispatch_feedbackTurns.
Qed.

Lemma init_invariant p : mounted p → invariant (init p).
Proof.
  intros [Hpart _]. unfold invariant, timeBounds, feedbackTurns, audioOk.
  simpl. repeat split; try done.
  unfold INTRO, PICTURE, DISCUSSION in Hpart. lia.
Qed.

Lemma step_invariant s e : invariant s → invariant (step s e).
Proof.
  intros (Hpart & Htime & Hturns & _).
  repeat split.
  - by apply step_part.
  - by apply step_timeBounds.
  - by apply step_timeBounds.
  - by apply step_feedbackTurns.
  - apply step_audioOk.
  - apply step_audioOk.
Qed.

Lemma reachable_invariant s : reachable s → invariant s.
Proof.
  induction 1 as [p Hp|s e _ IH].
  - by apply init_invariant.
  - by apply step_invariant.
Qed.

End Invariant.

(* ===================================================================== *)
(** ** The closures in flight *)
(* ===================================================================== *)

Section WellFormed.
Implicit Types (r : UI) (s : State) (e : Event).

Ltac tasks_ok :=
  repeat first
    [ assumption
    | apply Forall_app; split
    | apply Forall_delete
    | apply Forall_cons; split
    | apply Forall_nil ].

Lemma init_wellFormed p : mounted p → wellFormed (init p).
Proof.
  intros [Hpart _]. unfold wellFormed. simpl.
  repeat split; try done.
  - case_decide; tasks_ok; done.
  - case_decide; tasks_ok; done.
Qed.

Lemma closureOk_speaking r :
  status r = USER_PREP ∨ status r = USER_SPEAKING →
  part r = INTRO ∨ part r = PICTURE ∨ part r = DISCUSSION →
  closureOk r.
Proof. intros [H|H] Hpart; unfold closureOk; rewrite H; done. Qed.

Lemma screen_start (u : UI) : hasStarted u = false → screen u = StartScreen.
Proof. intros H. unfold screen. by rewrite H. Qed.

Lemma screen_not_start (u : UI) :
  hasStarted u = true → screen u ≠ StartScreen.
Proof.
  intros H. unfold screen. rewrite H. simpl.
  repeat case_decide; try done. by destruct (currentFeedback u).
Qed.

Ltac wf_finish :=
  intros; simplify_eq/=;
  repeat match goal with
  | H : hasStarted ?u = false, Hb : hasStarted ?u = false → _ |- _ =>
      destruct (Hb H) as (? & ? & ?); clear Hb
  | H : isRecording ?u = true, Ho : isRecording ?u = true → _ |- _ =>
      destruct (Ho H) as (? & ? & ?); clear Ho
  | Ho : true = true → _ |- _ =>
      destruct (Ho eq_refl) as (? & ? & ?); clear Ho
  | Hall : Forall (λ t, t = Prefetch) (tasks ?s),
    Hi : tasks ?s !! _ = Some ?t |- _ =>
      lazymatch t with
      | Prefetch => fail
      | _ => by pose proof (Forall_lookup_1 _ _ _ _ Hall Hi)
      end
  | H : hasStarted ?u = false, Hs : screen ?u = MainScreen |- _ =>
      apply screen_start in H; congruence
  | H : hasStarted ?u = false, Hs : screen ?u = SummaryScreen |- _ =>
      apply screen_start in H; congruence
  end;
  simplify_eq/=; tasks_ok; simpl;
  first
    [ done
    | congruence
    | eauto; fail
    | apply closureOk_speaking; auto; fail
    | match goal with
      | H : ?x = Some _, Hall : ∀ y, ?x = Some y → _ |- _ =>
          apply (Hall _ H)
      end ].

Lemma dispatch_wellFormed e s : wellFormed s → wellFormed (dispatch e s).
Proof.
  intros (Hpart & Htasks & Hrec & Hended & Hbefore & Hon).
  assert (Hlook : ∀ i t, tasks s !! i = Some t → taskOk t)
    by (intros i t; apply Forall_lookup_1, Htasks).
  unfold wellFormed.
  destruct e; handlers; cases.
  all: try (repeat match goal with
            | H : tasks _ !! _ = Some _ |- _ =>
                pose proof (Hlook _ _ H); revert H
            end; intros; simpl in * ).
  all: conj_split.
  all: try wf_finish.
  all: try (rewrite orb_true_r in *; discriminate).
  all: try (unfold INTRO, PICTURE, DISCUSSION in *; lia).
  all: intros Hf; destruct (Hbefore Hf) as (? & ? & ?);
    repeat split; tasks_ok; done.
Qed.

Lemma attachRefs_wellFormed r s : wellFormed s → wellFormed (attachRefs r s).
Proof.
  intros (Hpart & Htasks & Hrec & Hended & Hbefore & Hon).
  unfold wellFormed, attachRefs.
  case_decide; simpl; conj_split; try done.
  intros Hf. by destruct (Hbefore Hf) as (? & ? & ?).
Qed.

Lemma timerEffect_wellFormed s :
  wellFormed s → wellFormed (timerEffect (ui s) s).
Proof.
  intros Hwf. pose proof Hwf as (Hpart & Htasks & Hrec & Hended & Hbefore & Hon).
  unfold timerEffect, handleSpeakingDone.
  destruct (shouldRunTimer (ui s)); [done|].
  destruct (hasStarted (ui s)) eqn:Hs; [|by rewrite andb_false_r].
  destruct (bool_decide _); [simpl|done].
  case_decide as Hst.
  - unfold wellFormed. handlers. simpl. rewrite Hs.
    conj_split; try done.
    apply Forall_app. split; [done|]. constructor; [|done].
    apply closureOk_speaking; auto.
  - destruct (_ && isRecording (ui s)); [|done].
    destruct (stopRecording_cases (ui s) s) as [->|(rec & Href & _ & ->)];
      [done|].
    unfold wellFormed, stopped. simpl. rewrite Hs.
    conj_split; try done.
    + apply Forall_app. split; [done|]. constructor; [|done]. by apply Hrec.
    + intros rec' [= <-]. exact (Hrec _ Href).
Qed.

Lemma timerEffect_hasStarted r s :
  hasStarted (ui (timerEffect r s)) = hasStarted (ui s).
Proof.
  by destruct (timerEffect_cases r s) as [->|[->|(rec & _ & _ & ->)]].
Qed.

(** The part effect closes over the render it runs for.  *)
Lemma partEffect_wellFormed r s :
  wellFormed s → closureOk r → hasStarted (ui s) = hasStarted r →
  wellFormed (partEffect r s).
Proof.
  intros (Hpart & Htasks & Hrec & Hended & Hbefore & Hon) Hr Hs.
  unfold partEffect. destruct (hasStarted r); [|done].
  unfold wellFormed. handlers. cases; rewrite ?Hs.
  all: conj_split; try done; tasks_ok; try done.
  all: by intros ? [= <-].
Qed.

Lemma commit_wellFormed prev s :
  wellFormed s → partDeps prev = partDeps (ui s) ∨ closureOk (ui s) →
  wellFormed (commit prev s).
Proof.
  intros Hwf Hdeps. unfold commit.
  pose proof (attachRefs_wellFormed (ui s) s Hwf) as Ha.
  pose proof (attachRefs_ui (ui s) s) as Hui.
  set (s1 := attachRefs (ui s) s) in *.
  assert (Ht : wellFormed (timerEffect (ui s) s1)).
  { rewrite <- Hui. by apply timerEffect_wellFormed. }
  assert (Hp : ∀ s2, wellFormed s2 → hasStarted (ui s2) = hasStarted (ui s) →
                 wellFormed (if decide (partDeps prev = partDeps (ui s))
                             then s2 else partEffect (ui s) s2)).
  { intros s2 H2 Hs2. case_decide as Hd; [done|].
    destruct Hdeps as [|Hok]; [done|]. apply partEffect_wellFormed; assumption. }
  destruct (decide (timerDeps prev = timerDeps (ui s))).
  - apply Hp; [done|]. by rewrite Hui.
  - apply Hp; [done|]. by rewrite timerEffect_hasStarted, Hui.
Qed.

(** Within a part of a started exam no handler touches [hasStarted] or
    [part]. *)
Lemma dispatch_partDeps s e :
  hasStarted (ui s) = true → e ≠ ClickContinue →
  partDeps (ui (dispatch e s)) = partDeps (ui s).
Proof.
  intros Hs He. unfold partDeps.
  destruct e; try done; handlers; unfold screen; cases; congruence.
Qed.

(** A render that changes the deps of the part effect is one of [Start
    Exam] or of the entry into the next part. *)
Lemma dispatch_closure e s :
  wellFormed s →
  partDeps (ui s) = partDeps (ui (dispatch e s)) ∨ closureOk (ui (dispatch e s)).
Proof.
  intros (Hpart & Htasks & Hrec & Hended & Hbefore & Hon).
  destruct (hasStarted (ui s)) eqn:Hs.
  - assert (He : e = ClickContinue ∨ e ≠ ClickContinue)
      by (destruct e; (by left) || (by right)).
    destruct He as [->|He]; [|left; symmetry; by apply dispatch_partDeps].
    unfold dispatch, advancePart. case_decide; [|by left].
    destruct (isStandalone (props s) || _) eqn:Hlast; [by left|].
    right. unfold closureOk. simpl. conj_split; try done.
    apply orb_false_elim in Hlast as [_ Hlast].
    apply bool_decide_eq_false in Hlast.
    unfold INTRO, PICTURE, DISCUSSION in *. lia.
  - destruct (Hbefore eq_refl) as (Hidle & Hall & Hnone).
    pose proof (screen_start _ Hs) as Hscreen.
    assert (He : e = ClickStartExam ∨ e ≠ ClickStartExam)
      by (destruct e; (by left) || (by right)).
    destruct He as [->|He].
    + right. unfold dispatch, handleStartExam, closureOk.
      case_decide; simpl; rewrite Hidle; done.
    + left. unfold partDeps, shouldRunTimer in *.
      destruct e; try done; handlers; rewrite ?Hscreen, ?Hidle, ?Hnone;
        try done; try (by case_bool_decide);
        try match goal with
        | |- context [tasks s !! ?i] =>
            destruct (tasks s !! i) as [t|] eqn:Hi; [|done];
            pose proof (Forall_lookup_1 _ _ _ _ Hall Hi) as ->
        end; try done; by case_match.
Qed.

Lemma step_wellFormed s e : wellFormed s → wellFormed (step s e).
Proof.
  intros Hwf. rewrite step_eq. simpl.
  apply attachRefs_wellFormed, commit_wellFormed.
  - by apply dispatch_wellFormed.
  - by apply dispatch_closure.
Qed.

Lemma reachable_wellFormed s : reachable s → wellFormed s.
Proof.
  induction 1 as [p Hp|s e _ IH].
  - by apply init_wellFormed.
  - by apply step_wellFormed.
Qed.
(** Before [Start Exam] the machine is idle. *)
Lemma wellFormed_started s :
  wellFormed s → status (ui s) ≠ IDLE → hasStarted (ui s) = true.
Proof.
  intros (_ & _ & _ & _ & Hbefore & _) Hst.
  destruct (hasStarted (ui s)); [done|].
  by destruct (Hbefore eq_refl) as (? & _).
Qed.

Lemma reachable_run s es : reachable s → reachable (run s es).
Proof.
  revert s. induction es as [|e es IH]; intros s Hs; [done|].
  simpl. apply IH. by constructor.
Qed.

End WellFormed.

(* ===================================================================== *)
(** ** The outcome of an evaluation *)
(* ===================================================================== *)

Section Evaluation.
Implicit Types (r : UI) (s : State) (e : Event).

Lemma step_resultsHistory s e :
  resultsHistory (ui (step s e)) = resultsHistory (ui (dispatch e s)).
Proof.
  rewrite step_eq. simpl. by rewrite attachRefs_ui, commit_resultsHistory.
Qed.

Lemma dispatch_resultsHistory e s :
  resultsHistory (ui (dispatch e s)) = resultsHistory (ui s)
  ∨ ∃ p fb, resultsHistory (ui (dispatch e s)) = <[p:=fb]> (resultsHistory (ui s)).
Proof. destruct e; handlers; cases; eauto. Qed.

(** What a failed evaluation leaves alone.  When the evaluation of a
    submission fails, the turn counter, the
    results history and the current record are left as they were, the
    prompt becomes the apology and the machine is in [IDLE].  Whatever the
    event, the results history is either unchanged or gets one whole
    record under one part. *)
Theorem failed_evaluation_changes_no_turn_or_record :
  (∀ s i r nextTurn,
     tasks s !! i = Some (Submission r nextTurn) →
     let s' := step s (EvalRejected i) in
     turnCountRef (refs s') = turnCountRef (refs s)
     ∧ resultsHistory (ui s') = resultsHistory (ui s)
     ∧ currentFeedback (ui s') = currentFeedback (ui s)
     ∧ aiMessage (ui s') = apology
     ∧ status (ui s') = IDLE
     ∧ tasks s' = delete i (tasks s))
  ∧ (∀ s e,
       resultsHistory (ui (step s e)) = resultsHistory (ui s)
       ∨ ∃ p fb,
           resultsHistory (ui (step s e)) = <[p:=fb]> (resultsHistory (ui s))).
Proof.
  split.
  - intros s i r nextTurn Htask s'. subst s'.
    rewrite step_idle;
      rewrite (dispatch_EvalRejected _ _ _ _ Htask);
      [|by apply expires_status|done].
    by rewrite !attachRefs_ui, !attachRefs_turnCountRef, !attachRefs_tasks.
  - intros s e. rewrite step_resultsHistory. apply dispatch_resultsHistory.
Qed.

Lemma failed_evaluation_witness :
  let s := run (init fullExam) thirdAnswerSubmitted in
  (∃ r, tasks s !! 1%nat = Some (Submission r 3))
  ∧ turnCountRef (refs s) = 2
  ∧ turnCountRef (refs (step s (EvalRejected 1))) = 2
  ∧ status (ui (step s (EvalRejected 1))) = IDLE.
Proof.
  intros s.
  assert (Htask : ∃ r, tasks s !! 1%nat = Some (Submission r 3))
    by (eexists; vm_compute; reflexivity).
  destruct Htask as [r Htask].
  destruct failed_evaluation_changes_no_turn_or_record as [Hfail _].
  destruct (Hfail s 1%nat r 3 Htask) as (Hturn & _ & _ & _ & Hstatus & _).
  split; [by exists r|]. split; [by vm_compute|].
  split; [rewrite Hturn; by vm_compute|exact Hstatus].
Defined.

Lemma turn_cap_witness :
  let s := run (init fullExam) thirdAnswerSubmitted in
  (∃ r, tasks s !! 1%nat = Some (Submission r 3))
  ∧ moveNext continueResult = false
  ∧ 3 ≤ 3
  ∧ status (ui (step s (EvalResolved 1 continueResult))) = PART_COMPLETED
  ∧ resultsHistory (ui (step s (EvalResolved 1 continueResult))) !! INTRO
    = Some (feedback continueResult).
Proof.
  intros s.
  assert (Htask : ∃ r, tasks s !! 1%nat = Some (Submission r 3))
    by (eexists; vm_compute; reflexivity).
  destruct Htask as [r Htask].
  destruct (turn_cap_overrides_continue s 1%nat r 3 continueResult Htask)
    as (_ & Hstatus & Hhistory & _); [done|lia|].
  split; [by exists r|]. split; [done|]. split; [lia|].
  split; [exact Hstatus|].
  rewrite Hhistory.
  replace (part r) with INTRO
    by (vm_compute in Htask; injection Htask as <-; reflexivity).
  apply lookup_insert_eq.
Defined.

Lemma dispatch_idle e s :
  idleWithNothingInFlight s →
  idleWithNothingInFlight (dispatch e s)
  ∧ partDeps (ui (dispatch e s)) = partDeps (ui s)
  ∧ turnCountRef (refs (dispatch e s)) = turnCountRef (refs s)
  ∧ resultsHistory (ui (dispatch e s)) = resultsHistory (ui s)
  ∧ currentFeedback (ui (dispatch e s)) = currentFeedback (ui s)
  ∧ part (ui (dispatch e s)) = part (ui s).
Proof.
  intros (Hs & Hst & Hrec & Htasks & Hended).
  assert (Hlook : ∀ i t, tasks s !! i = Some t → t = Prefetch)
    by (intros i t Hi; exact (Forall_lookup_1 _ _ _ _ Htasks Hi)).
  unfold idleWithNothingInFlight.
  destruct e; handlers; unfold screen; cbn zeta;
    rewrite ?Hs, ?Hst, ?Hrec, ?Hended; cbn [negb andb];
    cases;
    repeat match goal with
           | H : tasks _ !! _ = Some _ |- _ => apply Hlook in H
           end;
    try discriminate; try congruence; conj_split; try done.
  all: by apply Forall_delete.
Qed.

Lemma step_idleWithNothingInFlight s e :
  idleWithNothingInFlight s →
  idleWithNothingInFlight (step s e)
  ∧ turnCountRef (refs (step s e)) = turnCountRef (refs s)
  ∧ resultsHistory (ui (step s e)) = resultsHistory (ui s)
  ∧ currentFeedback (ui (step s e)) = currentFeedback (ui s)
  ∧ part (ui (step s e)) = part (ui s).
Proof.
  intros Hidle.
  destruct (dispatch_idle e s Hidle)
    as ((Hs & Hst & Hrec & Htasks & Hended) & Hdeps & Hturn & Hhist & Hfb & Hpart).
  rewrite step_idle; [|apply expires_status; by rewrite Hst|exact Hdeps].
  rewrite !attachRefs_ui, !attachRefs_turnCountRef.
  unfold idleWithNothingInFlight.
  rewrite !attachRefs_ui, !attachRefs_tasks.
  conj_split; try done.
  unfold attachRefs. repeat case_decide; simpl; done.
Qed.

Lemma run_idleWithNothingInFlight s es :
  idleWithNothingInFlight s →
  idleWithNothingInFlight (run s es)
  ∧ turnCountRef (refs (run s es)) = turnCountRef (refs s)
  ∧ resultsHistory (ui (run s es)) = resultsHistory (ui s)
  ∧ part (ui (run s es)) = part (ui s).
Proof.
  revert s. induction es as [|e es IH]; intros s Hidle; [done|].
  destruct (step_idleWithNothingInFlight s e Hidle)
    as (Hidle' & Hturn & Hhist & _ & Hpart).
  cbn [run foldl]. destruct (IH (step s e) Hidle') as (H1 & H2 & H3 & H4).
  unfold run in *. split; [exact H1|]. split; [congruence|].
  split; congruence.
Qed.

(** C5 on retrying.  The first answer of the introduction is submitted and
    its evaluation fails.  The turn counter and the results history are as
    they were and the prompt is the apology, which asks to try again; but
    the machine is in [IDLE], where the main screen renders none of its
    buttons, and nothing is in flight: whatever happens next, the machine
    stays in [IDLE], no recording and no submission is started, and the
    counter and the history never change.  The part cannot be retried,
    and it cannot be completed either. *)
Theorem failed_evaluation_cannot_be_retried :
  let s := run (init fullExam) firstAnswerFails in
  (status (ui s), aiMessage (ui s), quotaError (ui s), turnCountRef (refs s),
   resultsHistory (ui s))
  = (IDLE, apology, true, 0, ∅)
  ∧ ∀ es,
      let s' := run s es in
      status (ui s') = IDLE
      ∧ isRecording (ui s') = false
      ∧ inFlight s' = []
      ∧ turnCountRef (refs s') = 0
      ∧ resultsHistory (ui s') = ∅
      ∧ part (ui s') = INTRO.
Proof.
  intros s.
  assert (Hstart : (status (ui s), aiMessage (ui s), quotaError (ui s),
                    turnCountRef (refs s), resultsHistory (ui s))
                   = (IDLE, apology, true, 0, ∅))
    by (vm_compute; reflexivity).
  assert (Hidle : idleWithNothingInFlight s).
  { unfold idleWithNothingInFlight.
    assert (Hf : (hasStarted (ui s), status (ui s), isRecording (ui s),
                  tasks s, audioOnEnded (refs s))
                 = (true, IDLE, false, [Prefetch], None))
      by (vm_compute; reflexivity).
    clearbody s. injection Hf as -> -> -> -> ->. conj_split; try done.
    by repeat constructor. }
  assert (Hturn : turnCountRef (refs s) = 0) by (vm_compute; reflexivity).
  assert (Hhist : resultsHistory (ui s) = ∅) by (vm_compute; reflexivity).
  assert (Hpart : part (ui s) = INTRO) by (vm_compute; reflexivity).
  clearbody s. split; [exact Hstart|].
  intros es s'. subst s'.
  destruct (run_idleWithNothingInFlight s es Hidle)
    as ((_ & Hst & Hrec & Htasks & _) & H2 & H3 & H4).
  split; [exact Hst|]. split; [exact Hrec|]. split; [|split; [|split]];
    [|congruence..].
  unfold inFlight.
  induction Htasks as [|t ts -> _ IHts]; [done|exact IHts].
Qed.

End Evaluation.

(* ===================================================================== *)
(** ** Follow-up turns and skipping *)
(* ===================================================================== *)

Section Playback.
Implicit Types (r : UI) (s : State) (e : Event).

Lemma expires_not_recording r :
  status r ≠ USER_PREP → isRecording r = false → expires r = false.
Proof.
  intros Hprep Hrec. unfold expires.
  rewrite (bool_decide_eq_false_2 (status r = USER_PREP)) by done.
  rewrite Hrec, andb_false_r. apply andb_false_r.
Qed.

(** [handleAiFinishedSpeaking] on a follow-up turn. *)
Lemma handleAiFinishedSpeaking_follow_up r s :
  status r ≠ COMPLETED → status r ≠ PART_COMPLETED →
  part r = INTRO ∨ part r = PICTURE ∨ part r = DISCUSSION →
  isNewPartRef (refs s) = false →
  handleAiFinishedSpeaking r s = startRecording r (setStatus USER_SPEAKING s).
Proof.
  intros Hc Hpc Hpart Hnew. unfold handleAiFinishedSpeaking.
  rewrite decide_False by (intros [?|?]; done).
  destruct (decide (part r = INTRO)) as [_|Hintro]; simpl.
  - by rewrite Hnew.
  - rewrite decide_True by (destruct Hpart as [?|?]; [done|auto]).
    by rewrite Hnew.
Qed.

(** The prompt whose playback completes was started in a render of a part
    that was not completed. *)
Lemma playbackCompletes_closureOk s e r :
  wellFormed s → playbackCompletes s e r → closureOk r.
Proof.
  intros (_ & Htasks & _ & Hended & _) Hplay.
  destruct Hplay as [(i & _ & Htask)|[(i & _ & Htask)|(_ & Hon)]].
  - apply (Forall_lookup_1 _ _ _ _ Htasks Htask).
  - apply (Forall_lookup_1 _ _ _ _ Htasks Htask).
  - by apply Hended.
Qed.

(** C8, as the code has it.  In a reachable state, on a follow-up turn
    (the part is no longer new), when the playback of the prompt completes
    and no recording is running, the machine enters [USER_SPEAKING]
    directly and asks for the microphone, and the countdown is left as it
    was: [timeLeft] and [totalTime] keep their values. *)
Theorem follow_up_turn_keeps_countdown s e r :
  reachable s →
  playbackCompletes s e r →
  isNewPartRef (refs s) = false →
  isRecording (ui s) = false →
  let s' := step s e in
  status (ui s') = USER_SPEAKING
  ∧ timeLeft (ui s') = timeLeft (ui s)
  ∧ totalTime (ui s') = totalTime (ui s)
  ∧ last (tasks s') = Some (MicRequest r).
Proof.
  intros Hreach Hplay Hnew Hrec s'.
  destruct (playbackCompletes_closureOk s e r (reachable_wellFormed s Hreach)
              Hplay) as (Hc & Hpc & Hpart).
  assert (Hs1 : ∃ s0, ui s0 = ui s ∧ isNewPartRef (refs s0) = false
            ∧ dispatch e s = handleAiFinishedSpeaking r s0).
  { destruct Hplay as [(i & -> & Htask)|[(i & -> & Htask)|(-> & Hended)]].
    - exists (settle i s). simpl. by rewrite Htask.
    - exists (settle i s). simpl. by rewrite Htask.
    - exists (set_audioOnEnded None s). simpl. by rewrite Hended. }
  destruct Hs1 as (s0 & Hui & Hnew0 & Hs1).
  rewrite handleAiFinishedSpeaking_follow_up in Hs1 by done.
  subst s'. rewrite step_idle; rewrite Hs1; simpl; rewrite ?Hui.
  - rewrite !attachRefs_ui, !attachRefs_tasks. simpl. rewrite Hui.
    by rewrite last_snoc.
  - by apply expires_not_recording.
  - done.
Qed.

Lemma follow_up_turn_witness :
  let s := run (init fullExam) followUpPlaying in
  let e := SynthResolved 1 FALLBACK_HANDLED in
  isNewPartRef (refs s) = false
  ∧ isRecording (ui s) = false
  ∧ status (ui (step s e)) = USER_SPEAKING
  ∧ timeLeft (ui (step s e)) = timeLeft (ui s)
  ∧ totalTime (ui (step s e)) = totalTime (ui s).
Proof.
  intros s e.
  assert (Hreach : reachable s).
  { apply reachable_run. constructor. split; [by left|done]. }
  assert (Htask : ∃ r, tasks s !! 1%nat = Some (Synth r))
    by (eexists; vm_compute; reflexivity).
  destruct Htask as (r & Htask).
  assert (Hnew : isNewPartRef (refs s) = false) by (vm_compute; reflexivity).
  assert (Hrec : isRecording (ui s) = false) by (vm_compute; reflexivity).
  assert (Hplay : playbackCompletes s e r)
    by (left; exists 1%nat; split; [reflexivity|exact Htask]).
  clearbody s.
  destruct (follow_up_turn_keeps_countdown s e r Hreach Hplay Hnew Hrec)
    as (H1 & H2 & H3 & _).
  exact (conj Hnew (conj Hrec (conj H1 (conj H2 H3)))).
Defined.

(** C8, as stated, fails: after a first answer of two seconds, the
    follow-up turn enters [USER_SPEAKING] with 118 seconds on the
    countdown, not 120. *)
Lemma follow_up_countdown_is_not_reset :
  let s := run (init fullExam) followUpPlaying in
  let s' := step s (SynthResolved 1 FALLBACK_HANDLED) in
  (status (ui s), isNewPartRef (refs s), turnCountRef (refs s))
    = (AI_SPEAKING, false, 1)
  ∧ status (ui s') = USER_SPEAKING
  ∧ timeLeft (ui s') = 118
  ∧ timeLeft (ui s') ≠ 120.
Proof. vm_compute. repeat split; discriminate || reflexivity. Qed.

(** A consequence for the countdown: after a first answer that ran out of
    time, the follow-up turn starts with no time left, and the timer effect
    stops the recording of the second answer in the render that starts
    it. *)
Example follow_up_after_expiry_stops_at_once :
  let s := run (init fullExam) followUpAfterExpiry in
  let s' := step s (MicGranted 1) in
  (status (ui s), timeLeft (ui s), isRecording (ui s), turnCountRef (refs s))
    = (USER_SPEAKING, 0, false, 1)
  ∧ (status (ui s'), timeLeft (ui s'), isRecording (ui s'))
    = (PROCESSING, 0, false)
  ∧ ∃ r, last (tasks s') = Some (StopEvent r).
Proof.
  intros s s'. split; [vm_compute; reflexivity|].
  split; [vm_compute; reflexivity|].
  eexists. vm_compute. reflexivity.
Qed.

End Playback.

Section Skip.
Implicit Types (r : UI) (s : State) (e : Event).

(** Skipping while no recording runs: the zero record is written under
    the part and the part is completed. *)
Lemma skip_without_recording s :
  skipButton s = true → isRecording (ui s) = false →
  let s' := step s ClickSkip in
  status (ui s') = PART_COMPLETED
  ∧ resultsHistory (ui s')
    = <[part (ui s) := skippedFeedback]> (resultsHistory (ui s))
  ∧ tasks s' = tasks s.
Proof.
  intros Hbutton Hrec s'.
  assert (Hs1 : dispatch ClickSkip s = handleSkipPart_rest (ui s) s).
  { simpl. rewrite Hbutton. unfold handleSkipPart. by rewrite Hrec. }
  subst s'. rewrite step_idle; rewrite Hs1.
  - rewrite !attachRefs_ui, !attachRefs_tasks.
    unfold handleSkipPart_rest. by destruct (audioRef _).
  - apply expires_status; unfold handleSkipPart_rest; by destruct (audioRef _).
  - unfold handleSkipPart_rest; by destruct (audioRef _).
Qed.

(** Right after the click, in every reachable state where the skip button
    is rendered: the zero record is under the part, the part is completed,
    and a recording in progress has been stopped, which schedules the
    recorder's [stop] event. *)
Lemma skip_completes_part s :
  reachable s → skipButton s = true →
  let s' := step s ClickSkip in
  status (ui s') = PART_COMPLETED
  ∧ resultsHistory (ui s')
    = <[part (ui s) := skippedFeedback]> (resultsHistory (ui s))
  ∧ (isRecording (ui s) = true →
       ∃ rec, mediaRecorderRef (refs s) = Some rec
         ∧ tasks s' = tasks s ++ [StopEvent (onstop rec)]).
Proof.
  intros Hreach Hbutton s'.
  destruct (isRecording (ui s)) eqn:Hrec.
  - destruct (reachable_wellFormed s Hreach) as (_ & _ & _ & _ & _ & Hon).
    destruct (Hon Hrec) as (rec & Href & Hrunning).
    assert (Hs1 : dispatch ClickSkip s
              = handleSkipPart_rest (ui s) (setIsRecording false (stopped rec s))).
    { simpl. rewrite Hbutton. unfold handleSkipPart, stop.
      by rewrite Hrec, Href, Hrunning. }
    subst s'. rewrite step_idle; rewrite Hs1.
    + rewrite !attachRefs_ui, !attachRefs_tasks.
      unfold handleSkipPart_rest.
      split; [by destruct (audioRef _)|]. split; [by destruct (audioRef _)|].
      intros _. exists rec. split; [done|]. by destruct (audioRef _).
    + apply expires_status; unfold handleSkipPart_rest; by destruct (audioRef _).
    + unfold handleSkipPart_rest; by destruct (audioRef _).
  - destruct (skip_without_recording s Hbutton Hrec) as (H1 & H2 & _).
    split; [exact H1|]. split; [exact H2|]. intros H. discriminate H.
Qed.

(** C4 on a recording in progress.  The first answer of the introduction
    is being recorded and the student skips the part.  Right after the
    click the zero record is in the results history and the part is
    completed; but the click stopped the recorder, whose [stop] event
    submits the recording for evaluation.  When the service ends the part,
    the zero record is overwritten by the evaluated one; when it asks a
    follow-up, the machine leaves [PART_COMPLETED] for [AI_SPEAKING]; when
    it fails, the machine is in [IDLE]. *)
Theorem skip_while_recording_is_overtaken :
  let s := run (init fullExam) firstAnswerRecording in
  let skipped := run s [ClickSkip; RecorderStopped 1] in
  (skipButton s, isRecording (ui s), part (ui s)) = (true, true, INTRO)
  ∧ (status (ui (step s ClickSkip)),
     resultsHistory (ui (step s ClickSkip)) !! INTRO)
    = (PART_COMPLETED, Some skippedFeedback)
  ∧ (status (ui (step skipped (EvalResolved 1 finishResult))),
     resultsHistory (ui (step skipped (EvalResolved 1 finishResult))) !! INTRO)
    = (PART_COMPLETED, Some (feedback finishResult))
  ∧ feedback finishResult ≠ skippedFeedback
  ∧ status (ui (step skipped (EvalResolved 1 continueResult))) = AI_SPEAKING
  ∧ status (ui (step skipped (EvalRejected 1))) = IDLE.
Proof.
  intros s skipped.
  split; [vm_compute; reflexivity|]. split; [vm_compute; reflexivity|].
  split; [vm_compute; reflexivity|]. split; [discriminate|].
  split; vm_compute; reflexivity.
Qed.

End Skip.

(* ===================================================================== *)
(** ** The countdown *)
(* ===================================================================== *)

Section Countdown.
Implicit Types (r : UI) (s : State) (e : Event).

Lemma commit_same_deps prev s :
  timerDeps prev = timerDeps (ui s) → partDeps prev = partDeps (ui s) →
  commit prev s = attachRefs (ui s) s.
Proof. intros Ht Hp. unfold commit. by rewrite !decide_True. Qed.

(** An event that the handlers ignore leaves a reachable state as it is. *)
Lemma step_ignored s e : audioOk s → dispatch e s = s → step s e = s.
Proof.
  intros Haudio Hs. rewrite step_eq, Hs. simpl.
  rewrite commit_same_deps by done.
  by rewrite attachRefs_ui, !attachRefs_id.
Qed.

Lemma attachRefs_main r s :
  screen r = MainScreen → audioRef (refs s) = true → attachRefs r s = s.
Proof.
  intros Hscreen Href. unfold attachRefs. rewrite decide_True by done.
  destruct s as [p u [n a t m i au en] ts]; simpl in *. by subst.
Qed.

Lemma screen_main (u : UI) :
  hasStarted u = true → status u ≠ COMPLETED → status u ≠ PART_COMPLETED →
  screen u = MainScreen.
Proof.
  intros Hs Hc Hpc. unfold screen. rewrite Hs. simpl.
  by rewrite !decide_False.
Qed.

Lemma audioOk_main s :
  audioOk s → hasStarted (ui s) = true →
  status (ui s) ≠ COMPLETED → status (ui s) ≠ PART_COMPLETED →
  audioRef (refs s) = true.
Proof.
  intros [Href _] Hs Hc Hpc. rewrite Href.
  apply bool_decide_eq_true_2. by apply screen_main.
Qed.

Lemma setTimeLeft_id s v : timeLeft (ui s) = v → setTimeLeft (λ _, v) s = s.
Proof. intros <-. by destruct s as [p [] f ts]. Qed.

Lemma setTimeLeft_ext s a b :
  a = b → setTimeLeft (λ _, a) s = setTimeLeft (λ _, b) s.
Proof. by intros ->. Qed.

Lemma setTimeLeft_setTimeLeft s a b :
  setTimeLeft (λ _, a) (setTimeLeft (λ _, b) s) = setTimeLeft (λ _, a) s.
Proof. reflexivity. Qed.

Lemma run_snoc s es e : run s (es ++ [e]) = step (run s es) e.
Proof. unfold run. by rewrite foldl_app. Qed.

Lemma counting_screen s : counting s → screen (ui s) = MainScreen.
Proof.
  intros (_ & Hs & [Hst|Hst]); apply screen_main; rewrite ?Hst; done.
Qed.

Lemma counting_setTimeLeft s v : counting s → counting (setTimeLeft (λ _, v) s).
Proof. done. Qed.

(** A tick above one second only counts down. *)
Lemma step_Tick_running s :
  counting s → 1 < timeLeft (ui s) →
  step s Tick = setTimeLeft (λ _, timeLeft (ui s) - 1) s.
Proof.
  intros Hc Ht. pose proof Hc as (Href & Hs & Hst).
  assert (Hs1 : dispatch Tick s = setTimeLeft (λ _, timeLeft (ui s) - 1) s).
  { simpl. unfold shouldRunTimer, tick.
    rewrite (bool_decide_eq_true_2 (0 < timeLeft (ui s))) by lia.
    replace (bool_decide (status (ui s) = USER_PREP)
             || bool_decide (status (ui s) = USER_SPEAKING)) with true
      by (destruct Hst as [-> | ->]; done).
    simpl. unfold setTimeLeft, with_ui. simpl.
    by rewrite bool_decide_eq_false_2 by lia. }
  rewrite step_idle; rewrite Hs1.
  - rewrite attachRefs_attachRefs.
    apply attachRefs_main; [|done].
    by apply (counting_screen (setTimeLeft _ s)).
  - apply expires_running. unfold shouldRunTimer. simpl.
    rewrite (bool_decide_eq_true_2 (0 < timeLeft (ui s) - 1)) by lia.
    destruct Hst as [-> | ->]; done.
  - done.
Qed.

(** The last tick of the preparation: the timer effect calls
    [handlePrepDone], once. *)
Lemma step_Tick_prep_expires s :
  counting s → status (ui s) = USER_PREP → timeLeft (ui s) = 1 →
  let s0 := setTimeLeft (λ _, 0) s in
  step s Tick = handlePrepDone (ui s0) s0.
Proof.
  intros Hc Hst Ht s0. pose proof Hc as (Href & Hs & _).
  assert (Hs1 : dispatch Tick s = s0).
  { simpl. unfold shouldRunTimer, tick. rewrite Hst, Ht. simpl.
    unfold s0, setTimeLeft, with_ui. simpl. by rewrite ?Ht. }
  assert (Hcommit : commit (ui s) s0 = handlePrepDone (ui s0) s0).
  { unfold commit.
    rewrite (attachRefs_main (ui s0) s0)
      by (done || by apply (counting_screen s0)).
    rewrite (decide_True (P := partDeps (ui s) = partDeps (ui s0))) by done.
    rewrite (decide_False (P := timerDeps (ui s) = timerDeps (ui s0)))
      by (unfold timerDeps; simpl; rewrite Ht; intros [=]).
    unfold timerEffect, shouldRunTimer. simpl. rewrite Hst, Hs. simpl.
    reflexivity. }
  rewrite step_eq, Hs1, Hcommit. simpl.
  apply attachRefs_main; [|done].
  by apply screen_main.
Qed.

(** The last tick of an answer that is being recorded: the timer effect
    calls [handleSpeakingDone], which stops the recorder, once. *)
Lemma step_Tick_speaking_expires s rec :
  counting s → status (ui s) = USER_SPEAKING → isRecording (ui s) = true →
  mediaRecorderRef (refs s) = Some rec → recording rec = true →
  timeLeft (ui s) = 1 →
  step s Tick
  = setStatus PROCESSING (setIsRecording false (stopped rec (setTimeLeft (λ _, 0) s))).
Proof.
  intros Hc Hst Hrec Href Hon Ht. pose proof Hc as (Haudio & Hs & _).
  set (s0 := setTimeLeft (λ _, 0) s).
  assert (Hs1 : dispatch Tick s = s0).
  { simpl. unfold shouldRunTimer, tick. rewrite Hst, Ht. simpl.
    unfold s0, setTimeLeft, with_ui. simpl. by rewrite ?Ht. }
  assert (Hcommit : commit (ui s) s0
    = setStatus PROCESSING (setIsRecording false (stopped rec s0))).
  { unfold commit.
    rewrite (attachRefs_main (ui s0) s0)
      by (done || by apply (counting_screen s0)).
    rewrite (decide_True (P := partDeps (ui s) = partDeps (ui s0))) by done.
    rewrite (decide_False (P := timerDeps (ui s) = timerDeps (ui s0)))
      by (unfold timerDeps; simpl; rewrite Ht; intros [=]).
    unfold timerEffect, shouldRunTimer. simpl. rewrite Hst, Hs, Hrec. simpl.
    unfold handleSpeakingDone, stopRecording, stop. simpl.
    by rewrite Href, ?Hrec, Hon. }
  rewrite step_eq, Hs1, Hcommit. simpl.
  apply attachRefs_main; [|done].
  by apply screen_main.
Qed.

(** The last tick of an answer without a running recorder: nothing is
    called. *)
Lemma step_Tick_speaking_silent s :
  counting s → status (ui s) = USER_SPEAKING → isRecording (ui s) = false →
  timeLeft (ui s) = 1 →
  step s Tick = setTimeLeft (λ _, 0) s.
Proof.
  intros Hc Hst Hrec Ht. pose proof Hc as (Haudio & Hs & _).
  assert (Hs1 : dispatch Tick s = setTimeLeft (λ _, 0) s).
  { simpl. unfold shouldRunTimer, tick. rewrite Hst, Ht. simpl.
    unfold setTimeLeft, with_ui. simpl. by rewrite ?Ht. }
  rewrite step_idle; rewrite Hs1.
  - rewrite attachRefs_attachRefs. apply attachRefs_main; [|done].
    by apply (counting_screen (setTimeLeft _ s)).
  - apply expires_not_recording; simpl; [by rewrite Hst|done].
  - done.
Qed.

(** With no time left, in a state that counts or not, a tick is ignored. *)
Lemma step_Tick_stopped s :
  audioOk s → shouldRunTimer (ui s) = false → step s Tick = s.
Proof.
  intros Haudio Hrun. apply step_ignored; [done|]. simpl. by rewrite Hrun.
Qed.

Lemma counting_audioOk s : counting s → audioOk s.
Proof.
  intros Hc. pose proof (counting_screen s Hc) as Hscreen.
  destruct Hc as (Href & _). unfold audioOk.
  rewrite Href, bool_decide_eq_true_2 by done. done.
Qed.

(** While more than [n] seconds are left, [n] ticks count [n] seconds
    down and do nothing else. *)
Lemma run_ticks_running s (T n : nat) :
  counting s → timeLeft (ui s) = Z.of_nat T → (n < T)%nat →
  run s (replicate n Tick) = setTimeLeft (λ _, Z.of_nat T - Z.of_nat n) s.
Proof.
  intros Hc Ht. induction n as [|n IH]; intros Hn.
  - simpl. symmetry. apply setTimeLeft_id. lia.
  - rewrite replicate_S_end, run_snoc, IH by lia.
    rewrite step_Tick_running; [|done|simpl; lia].
    rewrite setTimeLeft_setTimeLeft. apply setTimeLeft_ext. simpl. lia.
Qed.

(** An answer whose recorder does not run counts down to zero and stays
    there: no tick calls a handler. *)
Lemma run_ticks_silent s (n : nat) :
  counting s → status (ui s) = USER_SPEAKING → isRecording (ui s) = false →
  0 ≤ timeLeft (ui s) →
  run s (replicate n Tick)
  = setTimeLeft (λ _, Z.max 0 (timeLeft (ui s) - Z.of_nat n)) s.
Proof.
  intros Hc Hst Hrec Ht. induction n as [|n IH].
  - simpl. symmetry. apply setTimeLeft_id. lia.
  - rewrite replicate_S_end, run_snoc, IH.
    set (sn := setTimeLeft _ s).
    assert (Hcn : counting sn) by done.
    destruct (Z.lt_trichotomy (timeLeft (ui s) - Z.of_nat n) 1)
      as [Hlt|[Heq|Hgt]].
    + rewrite step_Tick_stopped.
      * apply setTimeLeft_ext. lia.
      * by apply counting_audioOk.
      * unfold shouldRunTimer. simpl.
        rewrite (bool_decide_eq_false_2 (0 < _)) by lia.
        apply andb_false_r.
    + rewrite step_Tick_speaking_silent; try done.
      * unfold sn. rewrite setTimeLeft_setTimeLeft. apply setTimeLeft_ext. lia.
      * simpl. lia.
    + rewrite step_Tick_running; [|done|simpl; lia].
      unfold sn. rewrite setTimeLeft_setTimeLeft. apply setTimeLeft_ext.
      simpl. lia.
Qed.

Lemma run_app s es es' : run s (es ++ es') = run (run s es) es'.
Proof. unfold run. apply foldl_app. Qed.

Lemma run_ticks_ignored s (n : nat) :
  audioOk s → shouldRunTimer (ui s) = false → run s (replicate n Tick) = s.
Proof.
  intros Haudio Hrun. induction n as [|n IH]; [done|].
  by rewrite replicate_S_end, run_snoc, IH, step_Tick_stopped.
Qed.

Lemma reachable_counting s :
  reachable s → hasStarted (ui s) = true →
  status (ui s) = USER_PREP ∨ status (ui s) = USER_SPEAKING → counting s.
Proof.
  intros Hreach Hs Hst.
  destruct (reachable_invariant s Hreach) as (_ & _ & _ & Haudio).
  split; [|done].
  apply audioOk_main; [done..| |]; destruct Hst as [-> | ->]; done.
Qed.

Lemma expires_deps r r' : timerDeps r = timerDeps r' → expires r = expires r'.
Proof.
  unfold timerDeps, expires, shouldRunTimer. by intros [= -> -> -> ->].
Qed.

(** The timer effect leaves no expiry behind: the handler it calls moves
    the machine on. *)
Lemma timerEffect_expires s :
  wellFormed s → expires (ui (timerEffect (ui s) s)) = false.
Proof.
  intros (_ & _ & _ & _ & _ & Hon).
  destruct (expires (ui s)) eqn:Hex;
    [|by rewrite timerEffect_idle].
  unfold expires in Hex. unfold timerEffect.
  destruct (shouldRunTimer (ui s)); [done|].
  destruct (bool_decide (timeLeft (ui s) = 0)); [|done].
  destruct (hasStarted (ui s)); [|done]. cbn [negb andb] in *.
  case_decide as Hprep; [by apply expires_running|].
  rewrite bool_decide_eq_false_2 in Hex by done. cbn [orb] in Hex.
  rewrite Hex. apply andb_true_iff in Hex as [_ Hrec].
  destruct (Hon Hrec) as (rec & Href & Hrunning).
  unfold handleSpeakingDone, stopRecording, stop.
  rewrite Href, Hrec, Hrunning. by apply expires_status.
Qed.

Lemma commit_expires prev s :
  wellFormed s →
  (timerDeps prev = timerDeps (ui s) → expires prev = false) →
  expires (ui (commit prev s)) = false.
Proof.
  intros Hwf Hprev. unfold commit.
  pose proof (attachRefs_wellFormed (ui s) s Hwf) as Ha.
  pose proof (attachRefs_ui (ui s) s) as Hui.
  set (s1 := attachRefs (ui s) s) in *.
  set (t := if decide (timerDeps prev = timerDeps (ui s))
            then s1 else timerEffect (ui s) s1).
  assert (Ht : expires (ui t) = false).
  { subst t. case_decide as Hdeps.
    - rewrite Hui, <- (expires_deps _ _ Hdeps). by apply Hprev.
    - rewrite <- Hui. by apply timerEffect_expires. }
  destruct (decide (partDeps prev = partDeps (ui s))); [exact Ht|].
  destruct (partEffect_settled (ui s) t) as [->|H']; done.
Qed.

Lemma step_expires s e :
  wellFormed s → expires (ui s) = false → expires (ui (step s e)) = false.
Proof.
  intros Hwf Hex. rewrite step_eq. cbn zeta. rewrite attachRefs_ui.
  apply commit_expires; [by apply dispatch_wellFormed|].
  intros Hdeps. exact Hex.
Qed.

(** No reachable state is left with an expiry to handle. *)
Lemma reachable_expires s : reachable s → expires (ui s) = false.
Proof.
  induction 1 as [p Hp|s e Hreach IH]; [done|].
  apply step_expires; [by apply reachable_wellFormed|exact IH].
Qed.

(** A recording that starts when the speaking countdown is at zero is
    stopped by the timer effect in the render that starts it. *)
Lemma recording_at_zero_is_stopped s i r :
  reachable s →
  status (ui s) = USER_SPEAKING → timeLeft (ui s) = 0 →
  tasks s !! i = Some (MicRequest r) →
  let s' := step s (MicGranted i) in
  isRecording (ui s) = false
  ∧ status (ui s') = PROCESSING
  ∧ isRecording (ui s') = false
  ∧ timeLeft (ui s') = 0
  ∧ tasks s' = delete i (tasks s) ++ [StopEvent r]
  ∧ expiryCalls s (MicGranted i) = 1%nat.
Proof.
  intros Hreach Hst Ht Htask s'.
  pose proof (reachable_wellFormed s Hreach) as Hwf.
  assert (Hs : hasStarted (ui s) = true)
    by (apply wellFormed_started; [done|by rewrite Hst]).
  assert (Hrec : isRecording (ui s) = false).
  { pose proof (reachable_expires s Hreach) as Hex.
    unfold expires, shouldRunTimer in Hex. rewrite Hst, Ht, Hs in Hex.
    by destruct (isRecording (ui s)). }
  split; [exact Hrec|].
  subst s'. unfold expiryCalls, fires, expires, shouldRunTimer.
  rewrite step_eq. cbn zeta. rewrite !attachRefs_ui, !attachRefs_tasks.
  cbn [dispatch]. rewrite Htask.
  unfold commit, attachRefs, timerEffect, partEffect, timerDeps, partDeps,
    shouldRunTimer, startRecording_granted, screen.
  cbn [ui refs tasks settle with_tasks setIsRecording set_mediaRecorderRef
       with_ui with_refs hasStarted status timeLeft isRecording part
       mediaRecorderRef].
  rewrite Hst, Ht, Hs, Hrec.
  cases; try done.
  all: exfalso;
    match goal with
    | H : _ && false = true |- _ => by rewrite andb_false_r in H
    end.
Qed.

(** In a reachable state a step calls a handler of the timer effect at
    most once: when the render the event causes has an expiry to handle. *)
Lemma expiryCalls_reachable s e :
  reachable s →
  expiryCalls s e = if expires (ui (dispatch e s)) then 1%nat else 0%nat.
Proof.
  intros Hreach. unfold expiryCalls, fires.
  pose proof (reachable_wellFormed s Hreach) as Hwf.
  pose proof (reachable_expires s Hreach) as Hex.
  rewrite (commit_expires (ui s) (dispatch e s))
    by (by apply dispatch_wellFormed || done).
  rewrite andb_false_r, Nat.add_0_r.
  case_bool_decide as Hdeps; cbn [negb andb]; [|done].
  by rewrite <- (expires_deps _ _ Hdeps), Hex.
Qed.

Lemma expiries_app s es es' :
  expiries s (es ++ es') = (expiries s es + expiries (run s es) es')%nat.
Proof.
  revert s. induction es as [|e es IH]; intros s; [done|].
  cbn [app expiries run foldl]. rewrite IH. unfold run. lia.
Qed.

Lemma expiries_snoc s es e :
  expiries s (es ++ [e]) = (expiries s es + expiryCalls (run s es) e)%nat.
Proof. rewrite expiries_app. cbn [expiries]. lia. Qed.

Lemma dispatch_Tick_running s :
  counting s → 0 < timeLeft (ui s) →
  dispatch Tick s = setTimeLeft (λ _, Z.max 0 (timeLeft (ui s) - 1)) s.
Proof.
  intros (_ & _ & Hst) Ht. simpl. unfold shouldRunTimer, tick.
  rewrite (bool_decide_eq_true_2 (0 < timeLeft (ui s))) by lia.
  replace (bool_decide (status (ui s) = USER_PREP)
           || bool_decide (status (ui s) = USER_SPEAKING)) with true
    by (destruct Hst as [-> | ->]; done).
  simpl. unfold setTimeLeft, with_ui. simpl.
  case_bool_decide; do 3 f_equal; lia.
Qed.

Lemma dispatch_Tick_frame s :
  status (ui (dispatch Tick s)) = status (ui s)
  ∧ isRecording (ui (dispatch Tick s)) = isRecording (ui s).
Proof. simpl. by destruct (shouldRunTimer (ui s)). Qed.

(** While more than [n] seconds are left, [n] ticks call no handler. *)
Lemma expiries_running s (T n : nat) :
  reachable s → counting s → timeLeft (ui s) = Z.of_nat T → (n < T)%nat →
  expiries s (replicate n Tick) = 0%nat.
Proof.
  intros Hreach Hc Ht. induction n as [|n IH]; intros Hn; [done|].
  rewrite replicate_S_end, expiries_snoc, IH by lia.
  rewrite expiryCalls_reachable by (by apply reachable_run).
  rewrite (run_ticks_running s T n) by (done || lia).
  rewrite dispatch_Tick_running by (done || simpl; lia).
  rewrite expires_running; [done|].
  destruct Hc as (_ & _ & Hst). unfold shouldRunTimer. simpl.
  rewrite (bool_decide_eq_true_2 (0 < _)) by lia.
  destruct Hst as [-> | ->]; done.
Qed.

(** An answer whose recorder does not run: no tick calls a handler. *)
Lemma expiries_silent s (n : nat) :
  reachable s → counting s → status (ui s) = USER_SPEAKING →
  isRecording (ui s) = false → 0 ≤ timeLeft (ui s) →
  expiries s (replicate n Tick) = 0%nat.
Proof.
  intros Hreach Hc Hst Hrec Ht. induction n as [|n IH]; [done|].
  rewrite replicate_S_end, expiries_snoc, IH.
  rewrite expiryCalls_reachable by (by apply reachable_run).
  rewrite (run_ticks_silent s n) by done.
  set (sn := setTimeLeft _ s).
  destruct (dispatch_Tick_frame sn) as [Hstn Hrecn].
  rewrite expires_not_recording; [done|..].
  - rewrite Hstn. simpl. by rewrite Hst.
  - rewrite Hrecn. exact Hrec.
Qed.

(** Where no countdown runs, no tick calls a handler. *)
Lemma expiries_ignored s (n : nat) :
  reachable s → audioOk s → shouldRunTimer (ui s) = false →
  expiries s (replicate n Tick) = 0%nat.
Proof.
  intros Hreach Haudio Hrun. induction n as [|n IH]; [done|].
  rewrite replicate_S_end, expiries_snoc, IH.
  rewrite expiryCalls_reachable by (by apply reachable_run).
  rewrite run_ticks_ignored by done.
  simpl. rewrite Hrun. by rewrite reachable_expires.
Qed.

(** A countdown of [T] seconds in [USER_PREP]: [T] ticks and any number
    more call [handlePrepDone] once. *)
Lemma expiries_prep s (T n : nat) :
  reachable s → status (ui s) = USER_PREP → isRecording (ui s) = false →
  timeLeft (ui s) = Z.of_nat T → (0 < T)%nat →
  expiries s (replicate (T + n) Tick) = 1%nat.
Proof.
  intros Hreach Hst Hrec Ht HT.
  assert (Hs : hasStarted (ui s) = true).
  { apply wellFormed_started; [by apply reachable_wellFormed|].
    by rewrite Hst. }
  assert (Hc : counting s) by (apply reachable_counting; auto).
  destruct T as [|T]; [lia|].
  assert (Hlast : run s (replicate T Tick) = setTimeLeft (λ _, 1) s).
  { rewrite (run_ticks_running s (S T) T) by (done || lia).
    apply setTimeLeft_ext. lia. }
  assert (Hrun : run s (replicate (S T) Tick)
                 = handlePrepDone (ui (setTimeLeft (λ _, 0) s))
                     (setTimeLeft (λ _, 0) s)).
  { rewrite replicate_S_end, run_snoc, Hlast.
    rewrite step_Tick_prep_expires by done.
    by rewrite setTimeLeft_setTimeLeft. }
  assert (Hfirst : expiries s (replicate (S T) Tick) = 1%nat).
  { rewrite replicate_S_end, expiries_snoc.
    rewrite (expiries_running s (S T) T) by (done || lia).
    rewrite expiryCalls_reachable by (by apply reachable_run).
    rewrite Hlast, dispatch_Tick_running by (done || simpl; lia).
    unfold expires, shouldRunTimer. simpl. by rewrite Hst, Hs. }
  assert (Hrest : expiries (run s (replicate (S T) Tick)) (replicate n Tick)
                  = 0%nat).
  { apply expiries_silent; [by apply reachable_run|..]; rewrite Hrun;
      try done.
    destruct Hc as (Haudio & _ & _). split; [exact Haudio|].
    split; [exact Hs|]. by right. }
  rewrite replicate_add, expiries_app, Hfirst, Hrest. done.
Qed.

(** A countdown of [T] seconds in [USER_SPEAKING] with a running recorder:
    [T] ticks and any number more call [handleSpeakingDone] once. *)
Lemma expiries_speaking s (T n : nat) :
  reachable s → status (ui s) = USER_SPEAKING → isRecording (ui s) = true →
  timeLeft (ui s) = Z.of_nat T → (0 < T)%nat →
  expiries s (replicate (T + n) Tick) = 1%nat.
Proof.
  intros Hreach Hst Hrec Ht HT.
  pose proof (reachable_wellFormed s Hreach) as Hwf.
  assert (Hs : hasStarted (ui s) = true).
  { apply wellFormed_started; [done|]. by rewrite Hst. }
  destruct Hwf as (_ & _ & _ & _ & _ & Hwf).
  destruct (Hwf Hrec) as (rec & Href & Hon).
  assert (Hc : counting s) by (apply reachable_counting; auto).
  destruct T as [|T]; [lia|].
  assert (Hlast : run s (replicate T Tick) = setTimeLeft (λ _, 1) s).
  { rewrite (run_ticks_running s (S T) T) by (done || lia).
    apply setTimeLeft_ext. lia. }
  assert (Hrun : run s (replicate (S T) Tick)
                 = setStatus PROCESSING
                     (setIsRecording false
                        (stopped rec (setTimeLeft (λ _, 0) s)))).
  { rewrite replicate_S_end, run_snoc, Hlast.
    rewrite (step_Tick_speaking_expires _ rec) by done.
    by rewrite setTimeLeft_setTimeLeft. }
  assert (Hfirst : expiries s (replicate (S T) Tick) = 1%nat).
  { rewrite replicate_S_end, expiries_snoc.
    rewrite (expiries_running s (S T) T) by (done || lia).
    rewrite expiryCalls_reachable by (by apply reachable_run).
    rewrite Hlast, dispatch_Tick_running by (done || simpl; lia).
    unfold expires, shouldRunTimer. simpl. by rewrite Hst, Hs, Hrec. }
  assert (Hrest : expiries (run s (replicate (S T) Tick)) (replicate n Tick)
                  = 0%nat).
  { apply expiries_ignored; [by apply reachable_run|..]; rewrite Hrun;
      [|done].
    apply counting_audioOk in Hc. destruct Hc as [Ha Hb].
    split; [|done]. simpl. rewrite Ha. unfold screen. simpl.
    by rewrite Hs, Hst. }
  rewrite replicate_add, expiries_app, Hfirst, Hrest. done.
Qed.

(** C6, as the code has it.  The countdown stays within [0, totalTime] in
    every reachable state.  Outside [USER_PREP] and [USER_SPEAKING] a tick
    changes nothing.  A preparation countdown of [T] seconds loses one
    second per tick and, at zero, calls [handlePrepDone] once: whatever
    the number of further ticks, the state is that one call followed by
    the new speaking countdown running down, and one handler was called.
    A speaking countdown with a running recorder loses one second per tick
    and, at zero, stops the recorder once: whatever the number of further
    ticks, the state is that one stop, and one handler was called.
    The expiry belongs to the render, not to the countdown: no step calls
    a handler more than once and none leaves an expiry behind; a speaking
    countdown that is at zero while no recording runs calls nothing, tick
    after tick; and a recording that starts while the countdown is at
    zero, as on a follow-up turn after an expired answer, is stopped at
    once by another call of the handler. *)
Theorem countdown_ticks_and_expires_once :
  (∀ s, reachable s → 0 ≤ timeLeft (ui s) ≤ totalTime (ui s))
  ∧ (∀ s, reachable s →
       status (ui s) ≠ USER_PREP → status (ui s) ≠ USER_SPEAKING →
       step s Tick = s)
  ∧ (∀ s (T : nat),
       reachable s →
       status (ui s) = USER_PREP → isRecording (ui s) = false →
       timeLeft (ui s) = Z.of_nat T → (0 < T)%nat →
       let s0 := setTimeLeft (λ _, 0) s in
       (∀ n, (n < T)%nat →
          run s (replicate n Tick)
          = setTimeLeft (λ _, Z.of_nat T - Z.of_nat n) s)
       ∧ (∀ n, run s (replicate (T + n) Tick)
               = setTimeLeft (λ _, Z.max 0 (120 - Z.of_nat n))
                   (handlePrepDone (ui s0) s0))
       ∧ (∀ n, expiries s (replicate (T + n) Tick) = 1%nat))
  ∧ (∀ s (T : nat),
       reachable s →
       status (ui s) = USER_SPEAKING → isRecording (ui s) = true →
       timeLeft (ui s) = Z.of_nat T → (0 < T)%nat →
       ∃ rec, mediaRecorderRef (refs s) = Some rec
       ∧ (∀ n, (n < T)%nat →
            run s (replicate n Tick)
            = setTimeLeft (λ _, Z.of_nat T - Z.of_nat n) s)
       ∧ (∀ n, run s (replicate (T + n) Tick)
               = setStatus PROCESSING
                   (setIsRecording false
                      (stopped rec (setTimeLeft (λ _, 0) s))))
       ∧ (∀ n, expiries s (replicate (T + n) Tick) = 1%nat))
  ∧ (∀ s e, reachable s →
       (expiryCalls s e ≤ 1)%nat ∧ expires (ui (step s e)) = false)
  ∧ (∀ s (n : nat), reachable s →
       status (ui s) = USER_SPEAKING → timeLeft (ui s) = 0 →
       isRecording (ui s) = false
       ∧ run s (replicate n Tick) = s
       ∧ expiries s (replicate n Tick) = 0%nat)
  ∧ (∀ s i r, reachable s →
       status (ui s) = USER_SPEAKING → timeLeft (ui s) = 0 →
       tasks s !! i = Some (MicRequest r) →
       let s' := step s (MicGranted i) in
       status (ui s') = PROCESSING
       ∧ isRecording (ui s') = false
       ∧ timeLeft (ui s') = 0
       ∧ tasks s' = delete i (tasks s) ++ [StopEvent r]
       ∧ expiryCalls s (MicGranted i) = 1%nat).
Proof.
  split; [|split; [|split; [|split; [|split; [|split]]]]].
  - intros s Hreach. by destruct (reachable_invariant s Hreach) as (_ & ? & _).
  - intros s Hreach Hprep Hspeak.
    destruct (reachable_invariant s Hreach) as (_ & _ & _ & Haudio).
    apply step_Tick_stopped; [done|]. unfold shouldRunTimer.
    rewrite (bool_decide_eq_false_2 (status (ui s) = USER_PREP)) by done.
    by rewrite (bool_decide_eq_false_2 (status (ui s) = USER_SPEAKING)).
  - intros s T Hreach Hst Hrec Ht HT s0.
    assert (Hs : hasStarted (ui s) = true).
    { apply wellFormed_started; [by apply reachable_wellFormed|].
      by rewrite Hst. }
    assert (Hc : counting s) by (apply reachable_counting; auto).
    split; [intros n Hn; by apply run_ticks_running|].
    split; [|intros n; by apply expiries_prep].
    intros n. destruct T as [|T]; [lia|].
    rewrite replicate_add, run_app, replicate_S_end, run_snoc.
    rewrite (run_ticks_running s (S T) T) by (done || lia).
    rewrite step_Tick_prep_expires; [|done..|simpl; lia].
    rewrite setTimeLeft_setTimeLeft. fold s0.
    destruct Hc as (Haudio & _ & _).
    rewrite run_ticks_silent; [reflexivity| |reflexivity|exact Hrec|simpl; lia].
    split; [exact Haudio|]. split; [exact Hs|]. by right.
  - intros s T Hreach Hst Hrec Ht HT.
    pose proof (reachable_wellFormed s Hreach) as Hwf.
    assert (Hs : hasStarted (ui s) = true).
    { apply wellFormed_started; [done|]. by rewrite Hst. }
    destruct Hwf as (_ & _ & _ & _ & _ & Hwf).
    destruct (Hwf Hrec) as (rec & Href & Hon).
    exists rec. split; [done|].
    assert (Hc : counting s) by (apply reachable_counting; auto).
    split; [intros n Hn; by apply run_ticks_running|].
    split; [|intros n; by apply expiries_speaking].
    intros n. destruct T as [|T]; [lia|].
    rewrite replicate_add, run_app, replicate_S_end, run_snoc.
    rewrite (run_ticks_running s (S T) T) by (done || lia).
    rewrite (step_Tick_speaking_expires _ rec); [|done..|simpl; lia].
    rewrite setTimeLeft_setTimeLeft.
    apply run_ticks_ignored.
    + apply counting_audioOk in Hc. destruct Hc as [Ha Hb].
      split; [|done]. simpl. rewrite Ha. unfold screen. simpl.
      by rewrite Hs, Hst.
    + done.
  - intros s e Hreach. split.
    + rewrite expiryCalls_reachable by done. destruct (expires _); lia.
    + apply reachable_expires. by constructor.
  - intros s n Hreach Hst Ht.
    destruct (reachable_invariant s Hreach) as (_ & _ & _ & Haudio).
    assert (Hrun : shouldRunTimer (ui s) = false).
    { unfold shouldRunTimer. rewrite Ht. apply andb_false_r. }
    split; [|split].
    + pose proof (reachable_expires s Hreach) as Hex.
      assert (Hs : hasStarted (ui s) = true).
      { apply wellFormed_started; [by apply reachable_wellFormed|].
        by rewrite Hst. }
      unfold expires in Hex. rewrite Hrun, Hst, Ht, Hs in Hex.
      by destruct (isRecording (ui s)).
    + by apply run_ticks_ignored.
    + by apply expiries_ignored.
  - intros s i r Hreach Hst Ht Htask.
    by destruct (recording_at_zero_is_stopped s i r Hreach Hst Ht Htask)
      as (_ & H).
Qed.

Lemma countdown_witness :
  let s := run (init picturePractice) preparationStarts in
  (status (ui s), timeLeft (ui s), totalTime (ui s)) = (USER_PREP, 60, 60)
  ∧ (∀ n, (n < 60)%nat →
       run s (replicate n Tick) = setTimeLeft (λ _, 60 - Z.of_nat n) s)
  ∧ ∀ n, status (ui (run s (replicate (60 + n) Tick))) = USER_SPEAKING
         ∧ length (tasks (run s (replicate (60 + n) Tick)))
           = S (length (tasks s)).
Proof.
  intros s.
  assert (Hreach : reachable s).
  { apply reachable_run. constructor. split; [by right; left|done]. }
  assert (Hst : status (ui s) = USER_PREP) by (vm_compute; reflexivity).
  assert (Hrec : isRecording (ui s) = false) by (vm_compute; reflexivity).
  assert (Ht : timeLeft (ui s) = Z.of_nat 60) by (vm_compute; reflexivity).
  assert (Htot : totalTime (ui s) = 60) by (vm_compute; reflexivity).
  clearbody s.
  destruct countdown_ticks_and_expires_once as (_ & _ & Hprep & _).
  destruct (Hprep s 60%nat Hreach Hst Hrec Ht ltac:(lia))
    as (Hrun & Hexp & _).
  split; [by rewrite Hst, Ht, Htot|].
  split; [exact Hrun|].
  intros n. rewrite Hexp. split; [reflexivity|].
  simpl. by rewrite length_app, Nat.add_1_r.
Defined.

(** C6, as stated, fails.  No manual action follows [Start Exam].  The
    first answer runs until the speaking countdown reaches zero, where the
    timer effect stops the recording: one expiry.  The answer is
    evaluated, a follow-up is asked, and the recording of the second
    answer starts with the countdown still at zero: the timer effect stops
    it at once, a second expiry of a countdown that reached zero once.
    And while the microphone is still asked for when the countdown reaches
    zero, no expiry fires at all; it fires when the microphone is
    granted. *)
Lemma expiry_fires_again_on_follow_up :
  let s0 := init fullExam in
  let s := run s0 followUpAfterExpiry in
  let s' := step s (MicGranted 1) in
  expiries s0 (firstAnswerRecording ++ replicate 120 Tick) = 1%nat
  ∧ (status (ui s), timeLeft (ui s), isRecording (ui s)) = (USER_SPEAKING, 0, false)
  ∧ (status (ui s'), timeLeft (ui s'), isRecording (ui s')) = (PROCESSING, 0, false)
  ∧ expiries s0 (followUpAfterExpiry ++ [MicGranted 1]) = 2%nat
  ∧ expiries s0 (followUpAfterExpiry ++ [MicGranted 1]) ≠ 1%nat
  ∧ (status (ui (run s0 microphonePending)),
     timeLeft (ui (run s0 microphonePending)),
     expiries s0 microphonePending) = (USER_SPEAKING, 0, 0%nat)
  ∧ expiries s0 (microphonePending ++ [MicGranted 1]) = 1%nat.
Proof.
  intros s0 s s'.
  split; [vm_compute; reflexivity|]. split; [vm_compute; reflexivity|].
  split; [vm_compute; reflexivity|]. split; [vm_compute; reflexivity|].
  split; [vm_compute; discriminate|]. split; vm_compute; reflexivity.
Qed.

End Countdown.

(* ===================================================================== *)
(** ** Finishing a part willingly *)
(* ===================================================================== *)

Section Finish.
Implicit Types (r : UI) (s : State) (e : Event).

Lemma finishButton_turns s : finishButton s = true → 0 < turnCountRef (refs s).
Proof.
  unfold finishButton. intros H.
  apply andb_true_iff in H as [_ H]. by apply bool_decide_eq_true_1 in H.
Qed.




End Finish.

(* ===================================================================== *)
(** ** The turn counter *)
(* ===================================================================== *)

Section TurnCounter.
Implicit Types (r : UI) (s : State) (e : Event).

Lemma commit_turnCountRef prev s :
  partDeps prev = partDeps (ui s) →
  turnCountRef (refs (commit prev s)) = turnCountRef (refs s).
Proof.
  intros Hdeps. unfold commit. rewrite (decide_True _ _ Hdeps).
  case_decide; [apply attachRefs_turnCountRef|].
  destruct (timerEffect_cases (ui s) (attachRefs (ui s) s))
    as [->|[->|(rec & _ & _ & ->)]]; simpl; apply attachRefs_turnCountRef.
Qed.

Lemma commit_turnCountRef_cases prev s :
  turnCountRef (refs (commit prev s)) = turnCountRef (refs s)
  ∨ turnCountRef (refs (commit prev s)) = 0.
Proof.
  apply (commit_preserves
    (λ s', turnCountRef (refs s') = turnCountRef (refs s)
           ∨ turnCountRef (refs s') = 0));
    [..|by left]; intros;
    unfold attachRefs, playAudioUrl, setupNextPart;
    repeat first [case_decide | case_match]; simpl in *; auto.
Qed.

Lemma commit_tasks_cases prev s :
  ∃ ts, tasks (commit prev s) = tasks s ++ ts ∧ omap submitted ts = [].
Proof.
  apply (commit_preserves
    (λ s', ∃ ts, tasks s' = tasks s ++ ts ∧ omap submitted ts = []));
    [..|by exists []; rewrite app_nil_r];
    intros;
    match goal with H : ∃ _, _ |- _ => destruct H as (ts & Hts & Hnone) end;
    unfold attachRefs, playAudioUrl, setupNextPart, stopped;
    repeat first [case_decide | case_match]; simpl in *;
    rewrite ?Hts, <- ?app_assoc;
    eexists; (split; [reflexivity|]); rewrite ?omap_app, ?Hnone; done.
Qed.

Lemma commit_inFlight prev s : inFlight (commit prev s) = inFlight s.
Proof.
  destruct (commit_tasks_cases prev s) as (ts & Hts & Hnone).
  unfold inFlight. by rewrite Hts, omap_app, Hnone, app_nil_r.
Qed.

Lemma step_turnCountRef s e :
  partDeps (ui (dispatch e s)) = partDeps (ui s) →
  turnCountRef (refs (step s e)) = turnCountRef (refs (dispatch e s)).
Proof.
  intros Hdeps. rewrite step_eq. simpl.
  by rewrite attachRefs_turnCountRef, commit_turnCountRef.
Qed.

Lemma step_turnCountRef_cases s e :
  turnCountRef (refs (step s e)) = turnCountRef (refs (dispatch e s))
  ∨ turnCountRef (refs (step s e)) = 0.
Proof.
  rewrite step_eq. simpl. rewrite attachRefs_turnCountRef.
  apply commit_turnCountRef_cases.
Qed.

Lemma step_inFlight s e : inFlight (step s e) = inFlight (dispatch e s).
Proof.
  rewrite step_eq. simpl. unfold inFlight at 1.
  rewrite attachRefs_tasks. apply commit_inFlight.
Qed.

Lemma step_status_idle s e :
  expires (ui (dispatch e s)) = false →
  partDeps (ui (dispatch e s)) = partDeps (ui s) →
  status (ui (step s e)) = status (ui (dispatch e s)).
Proof. intros Hex Hdeps. by rewrite step_idle, !attachRefs_ui. Qed.

Lemma omap_submitted_delete (ts : list Task) (i : nat) (t : Task) :
  ts !! i = Some t →
  match submitted t with
  | Some n => ∃ l1 l2, omap submitted ts = l1 ++ n :: l2
                ∧ omap submitted (delete i ts) = l1 ++ l2
  | None => omap submitted (delete i ts) = omap submitted ts
  end.
Proof.
  revert i. induction ts as [|t' ts IH]; intros [|i] Hi; simplify_eq/=.
  - destruct (submitted t) as [n|] eqn:Ht; [|done].
    exists [], (omap submitted ts). done.
  - specialize (IH i Hi).
    destruct (submitted t) as [n|] eqn:Ht.
    + destruct IH as (l1 & l2 & H1 & H2).
      destruct (submitted t') as [n'|].
      * exists (n' :: l1), l2. simpl. by rewrite H1, H2.
      * exists l1, l2. done.
    + by rewrite IH.
Qed.

(** What one event does to the turn counter and to the submissions in
    flight, before the effects run. *)
Lemma dispatch_turns s e :
  (* an evaluation resolves: the counter becomes its [nextTurn] *)
  (∃ i result r n, e = EvalResolved i result
     ∧ tasks s !! i = Some (Submission r n)
     ∧ turnCountRef (refs (dispatch e s)) = n
     ∧ inFlight (dispatch e s) = inFlight (settle i s))
  (* an evaluation fails *)
  ∨ (∃ i r n, e = EvalRejected i
     ∧ tasks s !! i = Some (Submission r n)
     ∧ turnCountRef (refs (dispatch e s)) = turnCountRef (refs s)
     ∧ inFlight (dispatch e s) = inFlight (settle i s))
  (* a submission starts *)
  ∨ (completes s e = false
     ∧ turnCountRef (refs (dispatch e s)) = turnCountRef (refs s)
     ∧ inFlight (dispatch e s) = inFlight s ++ [turnCountRef (refs s) + 1])
  (* anything else *)
  ∨ (completes s e = false
     ∧ turnCountRef (refs (dispatch e s)) = turnCountRef (refs s)
     ∧ inFlight (dispatch e s) = inFlight s).
Proof.
  assert (Hsettle : ∀ i t, tasks s !! i = Some t → submitted t = None →
            inFlight (settle i s) = inFlight s).
  { intros i t Hi Ht. pose proof (omap_submitted_delete _ _ _ Hi) as H.
    by rewrite Ht in H. }
  assert (Hspawn : ∀ t s0, submitted t = None →
            inFlight (spawn t s0) = inFlight s0).
  { intros t s0 Ht. unfold inFlight. simpl.
    by rewrite omap_app; simpl; rewrite Ht, app_nil_r. }
  destruct e.
  all: try (right; right; right; simpl;
            split; [done|]; handlers; unfold inFlight; cases;
            rewrite ?omap_app, ?app_nil_r; done).
  all: simpl; destruct (tasks s !! i) as [t|] eqn:Hi; [|by do 3 right].
  all: destruct t; try by do 3 right.
  all: try (right; right; right; split; [done|]; handlers; cases;
            unfold inFlight; simpl; rewrite ?omap_app; simpl;
            rewrite ?app_nil_r;
            split; try done;
            apply (Hsettle _ _ Hi); done).
  - (* RecorderStopped *)
    right; right; left. split; [done|]. split; [done|].
    unfold handleSubmission, inFlight. simpl. rewrite omap_app. simpl.
    f_equal. by apply (Hsettle _ _ Hi).
  - (* EvalResolved *)
    left. exists i, result, r, nextTurn. split; [done|]. split; [done|].
    unfold handleSubmission_resolved, playAiAudio.
    destruct (_ || _); simpl; [done|].
    split; [done|]. unfold inFlight. simpl.
    by rewrite omap_app, app_nil_r.
  - (* EvalRejected *)
    right; left. by exists i, r, nextTurn.
Qed.

Lemma inFlight_settle_one s i r n :
  tasks s !! i = Some (Submission r n) → (length (inFlight s) ≤ 1)%nat →
  inFlight s = [n] ∧ inFlight (settle i s) = [].
Proof.
  intros Hi Hlen.
  pose proof (omap_submitted_delete _ _ _ Hi) as (l1 & l2 & H1 & H2).
  unfold inFlight in *. simpl. rewrite H1, H2 in *.
  rewrite length_app in Hlen. simpl in Hlen.
  destruct l1, l2; simpl in *; try lia. done.
Qed.

(** One event within a part, with at most one submission in flight. *)
Lemma step_counts s e :
  hasStarted (ui s) = true → e ≠ ClickContinue →
  (length (inFlight s) ≤ 1)%nat →
  Forall (λ n, n = turnCountRef (refs s) + 1) (inFlight s) →
  turnCountRef (refs (step s e))
  = turnCountRef (refs s) + (if completes s e then 1 else 0)
  ∧ hasStarted (ui (step s e)) = true
  ∧ Forall (λ n, n = turnCountRef (refs (step s e)) + 1) (inFlight (step s e)).
Proof.
  intros Hs He Hlen Hall.
  pose proof (dispatch_partDeps s e Hs He) as Hdeps.
  rewrite (step_turnCountRef s e Hdeps), step_inFlight.
  split; [|split].
  - destruct (dispatch_turns s e)
      as [(i & result & r & n & -> & Hi & Hn & _)
         |[(i & r & n & -> & Hi & Hn & _)
         |[(Hc & Hn & _)|(Hc & Hn & _)]]]; rewrite Hn.
    + destruct (inFlight_settle_one s i r n Hi Hlen) as [Hin _].
      rewrite Hin in Hall. apply Forall_inv in Hall.
      simpl. rewrite Hi. lia.
    + simpl. lia.
    + rewrite Hc. lia.
    + rewrite Hc. lia.
  - rewrite step_eq. simpl. rewrite attachRefs_ui.
    pose proof (commit_partDeps (ui s) (dispatch e s)) as [= -> _].
    injection Hdeps as -> _. done.
  - destruct (dispatch_turns s e)
      as [(i & result & r & n & -> & Hi & Hn & Hfl)
         |[(i & r & n & -> & Hi & Hn & Hfl)
         |[(Hc & Hn & Hfl)|(Hc & Hn & Hfl)]]]; rewrite Hn, Hfl.
    + destruct (inFlight_settle_one s i r n Hi Hlen) as [_ ->]. constructor.
    + destruct (inFlight_settle_one s i r n Hi Hlen) as [_ ->]. constructor.
    + apply Forall_app. split; [done|]. by constructor.
    + done.
Qed.

Lemma run_counts s es :
  hasStarted (ui s) = true →
  Forall (λ n, n = turnCountRef (refs s) + 1) (inFlight s) →
  withinPart es = true → oneAtATime s es = true →
  turnCountRef (refs (run s es)) = turnCountRef (refs s) + completed s es.
Proof.
  revert s. induction es as [|e es IH]; intros s Hs Hall Hpart Hone.
  - simpl. lia.
  - simpl in Hpart, Hone.
    apply andb_true_iff in Hpart as [He Hpart].
    apply andb_true_iff in Hone as [Hlen Hone].
    apply bool_decide_eq_true_1 in Hlen.
    assert (He' : e ≠ ClickContinue) by (by intros ->).
    destruct (step_counts s e Hs He' Hlen Hall) as (Hturn & Hs' & Hall').
    simpl. rewrite (IH (step s e)); [|done..].
    rewrite Hturn. lia.
Qed.

(** An evaluation that resolves at the cap completes the part. *)
Lemma step_resolved_at_cap s i r n result :
  tasks s !! i = Some (Submission r n) → 3 ≤ n →
  status (ui (step s (EvalResolved i result))) = PART_COMPLETED.
Proof.
  intros Hi Hcap.
  assert (Hs1 : dispatch (EvalResolved i result) s
    = set_autoAdvanceRef false (setStatus PART_COMPLETED
        (setResultsHistory (λ h, <[part r := feedback result]> h)
          (setCurrentFeedback (Some (feedback result))
            (set_turnCountRef n (settle i s)))))).
  { rewrite (dispatch_EvalResolved _ _ _ _ _ Hi).
    unfold handleSubmission_resolved.
    rewrite (bool_decide_eq_true_2 _ Hcap). by rewrite orb_true_r. }
  rewrite step_status_idle; rewrite Hs1; [done|by apply expires_status|done].
Qed.

(** One event below the cap: the counter stays below 3, or the part is
    completed. *)
Lemma step_turn_cap s e :
  turnCountRef (refs s) < 3 →
  turnCountRef (refs (step s e)) < 3
  ∨ status (ui (step s e)) = PART_COMPLETED.
Proof.
  intros Hlt.
  destruct (dispatch_turns s e)
    as [(i & result & r & n & -> & Hi & Hn & _)
       |[(i & r & n & -> & Hi & Hn & _)
       |[(_ & Hn & _)|(_ & Hn & _)]]].
  - destruct (decide (3 ≤ n)) as [Hcap|Hcap].
    + right. by apply (step_resolved_at_cap s i r n).
    + left. destruct (step_turnCountRef_cases s (EvalResolved i result))
        as [-> | ->]; lia.
  - left. destruct (step_turnCountRef_cases s (EvalRejected i))
      as [-> | ->]; lia.
  - left. destruct (step_turnCountRef_cases s e) as [-> | ->]; lia.
  - left. destruct (step_turnCountRef_cases s e) as [-> | ->]; lia.
Qed.

Lemma run_turn_cap s es :
  turnCountRef (refs s) < 3 → notYetCompleted s es = true →
  turnCountRef (refs (run s es)) < 3.
Proof.
  revert s. induction es as [|e es IH]; intros s Hlt Hnot; [done|].
  simpl. apply IH.
  - destruct (step_turn_cap s e Hlt) as [Hlt'|Hdone]; [done|].
    simpl in Hnot. apply andb_true_iff in Hnot as [_ Hnot].
    destruct es; simpl in Hnot; apply andb_true_iff in Hnot as [Hnot _];
      by rewrite (bool_decide_eq_true_2 _ Hdone) in Hnot.
  - simpl in Hnot. by apply andb_true_iff in Hnot as [_ Hnot].
Qed.

Lemma step_part_dispatch s e : part (ui (step s e)) = part (ui (dispatch e s)).
Proof.
  rewrite step_eq. simpl. rewrite attachRefs_ui.
  by pose proof (commit_partDeps (ui s) (dispatch e s)) as [= _ ->].
Qed.

(** Entering the next part resets the counter. *)
Lemma step_ClickContinue_resets s :
  reachable s → part (ui (step s ClickContinue)) ≠ part (ui s) →
  turnCountRef (refs (step s ClickContinue)) = 0.
Proof.
  intros Hreach Hpart.
  destruct (reachable_invariant s Hreach) as (Hpos & _).
  rewrite step_part_dispatch in Hpart. simpl in Hpart.
  destruct (decide (screen (ui s) = SummaryScreen)) as [Hscreen|]; [|done].
  destruct (isStandalone (props s) || bool_decide (part (ui s) = DISCUSSION))
    eqn:Hlast.
  - unfold advancePart in Hpart. by rewrite Hlast in Hpart.
  - pose proof (step_ClickContinue_next s Hscreen Hlast Hpos) as Hstep.
    cbv zeta in Hstep. rewrite Hstep, attachRefs_turnCountRef.
    unfold setupNextPart. destruct (decide _); reflexivity.
Qed.

(** The turn counter with submissions evaluated one at a time.  The
    counter is 0 when the component is mounted and when the next part is
    entered.  Within a part of a started exam, with
    submissions evaluated one at a time, the counter is its value at the
    start plus the number of submissions completed since: each completed
    submission counts once, and nothing else counts.  As long as
    [PART_COMPLETED] has not been reached the counter stays below 3, and
    the step that reaches it brings the counter to at most 3. *)
Theorem turn_counter_counts_completed_submissions :
  (∀ p, turnCountRef (refs (init p)) = 0)
  ∧ (∀ s, reachable s →
       part (ui (step s ClickContinue)) ≠ part (ui s) →
       turnCountRef (refs (step s ClickContinue)) = 0)
  ∧ (∀ s es,
       hasStarted (ui s) = true → inFlight s = [] →
       withinPart es = true → oneAtATime s es = true →
       turnCountRef (refs (run s es))
       = turnCountRef (refs s) + completed s es)
  ∧ (∀ s es,
       turnCountRef (refs s) < 3 → notYetCompleted s es = true →
       turnCountRef (refs (run s es)) < 3)
  ∧ (∀ s e,
       turnCountRef (refs s) < 3 →
       Forall (λ n, n = turnCountRef (refs s) + 1) (inFlight s) →
       turnCountRef (refs (step s e)) ≤ 3).
Proof.
  split; [done|]. split; [exact step_ClickContinue_resets|].
  split; [|split; [exact run_turn_cap|]].
  - intros s es Hs Hnone Hpart Hone. apply run_counts; try done.
    rewrite Hnone. constructor.
  - intros s e Hlt Hall.
    destruct (dispatch_turns s e)
      as [(i & result & r & n & -> & Hi & Hn & _)
         |[(i & r & n & -> & Hi & Hn & _)
         |[(_ & Hn & _)|(_ & Hn & _)]]].
    + assert (Hin : n ∈ inFlight s).
      { unfold inFlight. apply list_elem_of_omap.
        exists (Submission r n). split; [|done].
        by apply list_elem_of_lookup_2 in Hi. }
      rewrite Forall_forall in Hall. specialize (Hall n Hin).
      destruct (step_turnCountRef_cases s (EvalResolved i result))
        as [-> | ->]; lia.
    + destruct (step_turnCountRef_cases s (EvalRejected i))
        as [-> | ->]; lia.
    + destruct (step_turnCountRef_cases s e) as [-> | ->]; lia.
    + destruct (step_turnCountRef_cases s e) as [-> | ->]; lia.
Qed.

Lemma turn_counter_witness :
  let s := step (init fullExam) ClickStartExam in
  hasStarted (ui s) = true
  ∧ inFlight s = []
  ∧ withinPart threeAnswers = true
  ∧ oneAtATime s threeAnswers = true
  ∧ completed s threeAnswers = 3
  ∧ turnCountRef (refs (run s threeAnswers)) = 3
  ∧ status (ui (run s threeAnswers)) = PART_COMPLETED.
Proof.
  intros s.
  assert (Hs : hasStarted (ui s) = true) by (vm_compute; reflexivity).
  assert (Hnone : inFlight s = []) by (vm_compute; reflexivity).
  assert (Hpart : withinPart threeAnswers = true) by (vm_compute; reflexivity).
  assert (Hone : oneAtATime s threeAnswers = true) by (vm_compute; reflexivity).
  assert (Hdone : completed s threeAnswers = 3) by (vm_compute; reflexivity).
  assert (Hzero : turnCountRef (refs s) = 0) by (vm_compute; reflexivity).
  assert (Hstatus : status (ui (run s threeAnswers)) = PART_COMPLETED)
    by (vm_compute; reflexivity).
  clearbody s.
  destruct turn_counter_counts_completed_submissions as (_ & _ & Hcount & _).
  pose proof (Hcount s threeAnswers Hs Hnone Hpart Hone) as Hturn.
  rewrite Hzero, Hdone in Hturn.
  exact (conj Hs (conj Hnone (conj Hpart (conj Hone (conj Hdone
           (conj Hturn Hstatus)))))).
Defined.

(** C1 on two submissions in flight.  In the introduction of a started
    exam the student clicks [Start Speaking] while the microphone is still
    asked for; both requests are granted, one before and one after the
    first recording is submitted, and both recordings are evaluated.
    [handleSubmission] reads the counter before it awaits the evaluation
    and writes the value it read, plus one, after: the two submissions
    complete, within the part and before [PART_COMPLETED], and the counter
    is 1, not 2. *)
Theorem overlapping_submissions_count_once :
  let s := step (init fullExam) ClickStartExam in
  let es := overlappingSubmissions in
  (hasStarted (ui s), turnCountRef (refs s), inFlight s) = (true, 0, [])
  ∧ withinPart es = true
  ∧ notYetCompleted s es = true
  ∧ inFlight (run s (take 8 es)) = [1; 1]
  ∧ completed s es = 2
  ∧ turnCountRef (refs (run s es)) = 1
  ∧ turnCountRef (refs (run s es)) ≠ turnCountRef (refs s) + completed s es.
Proof.
  intros s es.
  split; [vm_compute; reflexivity|]. split; [vm_compute; reflexivity|].
  split; [vm_compute; reflexivity|]. split; [vm_compute; reflexivity|].
  split; [vm_compute; reflexivity|]. split; [vm_compute; reflexivity|].
  vm_compute. discriminate.
Qed.

End TurnCounter.

(* ===================================================================== *)
(** ** Bytes, base64 and the WAV header *)
(* ===================================================================== *)

Section Encoding.
Import Encoding.

Lemma byteValue_toUint8 (v : Z) : byteValue (toUint8 v) = v mod 256.
Proof.
  unfold byteValue, toUint8.
  assert (Hr : 0 ≤ v mod 256 < 256) by (apply Z.mod_pos_bound; lia).
  destruct (Byte.of_N (Z.to_N (v mod 256))) as [b|] eqn:Hb; simpl.
  - apply Byte.to_of_N in Hb. rewrite Hb. lia.
  - apply Byte.of_N_None_iff in Hb. lia.
Qed.

Lemma byteValue_range (b : Init.Byte.byte) : 0 ≤ byteValue b < 256.
Proof. unfold byteValue. pose proof (Byte.to_N_bounded b). lia. Qed.

Lemma toUint8_byteValue (b : Init.Byte.byte) : toUint8 (byteValue b) = b.
Proof.
  unfold toUint8. pose proof (byteValue_range b).
  rewrite Z.mod_small by lia. unfold byteValue.
  by rewrite N2Z.id, Byte.of_to_N.
Qed.

Lemma charCodeAt_range (c : ascii) : 0 ≤ charCodeAt c < 256.
Proof. unfold charCodeAt. pose proof (N_ascii_bounded c). lia. Qed.

Lemma fromCharCode_charCodeAt (c : ascii) : fromCharCode (charCodeAt c) = c.
Proof. unfold fromCharCode, charCodeAt. by rewrite N2Z.id, ascii_N_embedding. Qed.

Lemma charCodeAt_fromCharCode (v : Z) :
  0 ≤ v < 256 → charCodeAt (fromCharCode v) = v.
Proof.
  intros Hv. unfold fromCharCode, charCodeAt.
  rewrite N_ascii_embedding by lia. lia.
Qed.

Lemma setUint8_fits offset value view :
  (offset + 1 ≤ length view)%nat →
  setUint8 offset value view = Some (<[offset := toUint8 value]> view).
Proof. intros H. unfold setUint8. by rewrite decide_True. Qed.

Lemma setUint16_fits offset value view :
  (offset + 2 ≤ length view)%nat →
  setUint16 offset value true view
  = Some (<[(offset + 1)%nat := toUint8 (value mod 65536 / 256)]>
            (<[offset := toUint8 (value mod 65536)]> view)).
Proof. intros H. unfold setUint16. by rewrite decide_True. Qed.

Lemma setUint32_fits offset value view :
  (offset + 4 ≤ length view)%nat →
  setUint32 offset value true view
  = Some (<[(offset + 3)%nat := toUint8 (value mod 4294967296 / 16777216)]>
            (<[(offset + 2)%nat := toUint8 (value mod 4294967296 / 65536)]>
               (<[(offset + 1)%nat := toUint8 (value mod 4294967296 / 256)]>
                  (<[offset := toUint8 (value mod 4294967296)]> view)))).
Proof. intros H. unfold setUint32. by rewrite decide_True. Qed.

Ltac fits :=
  rewrite ?length_insert, ?length_replicate; lia.

Lemma addWavHeader_bytes pcmData sampleRate numChannels :
  addWavHeader pcmData sampleRate numChannels
  = Some (headerBytes (Z.of_nat (length pcmData))
            (Number.integerPart numChannels) (Number.integerPart sampleRate)
            (byteRate sampleRate numChannels) (blockAlign numChannels)
          ++ pcmData).
Proof.
  unfold addWavHeader, byteRate, blockAlign.
  generalize (Number.integerPart
                (Number.mul (Number.mul sampleRate numChannels) (Number.ofZ 2))).
  generalize (Number.integerPart (Number.mul numChannels (Number.ofZ 2))).
  generalize (Number.integerPart numChannels).
  generalize (Number.integerPart sampleRate).
  intros rate channels align bytes. cbn [writeString list_ascii_of_string mbind option_bind].
  repeat (first
    [ rewrite setUint8_fits by fits
    | rewrite setUint16_fits by fits
    | rewrite setUint32_fits by fits ];
    cbn [mbind option_bind]).
  unfold set. rewrite decide_True by fits. f_equal.
  rewrite drop_ge by fits. rewrite app_nil_r. f_equal.
Qed.

Lemma le32_value (v : Z) (l : list Init.Byte.byte) :
  getUint32 0 (le32 v ++ l) = Some (v mod 4294967296).
Proof.
  unfold getUint32, le32. cbn [app lookup list_lookup mbind option_bind Nat.add].
  rewrite !byteValue_toUint8. f_equal.
  pose proof (Z.mod_pos_bound v 4294967296 eq_refl) as Hx.
  generalize dependent (v mod 4294967296). intros x Hx.
  replace (x / 65536) with (x / 256 / 256)
    by (rewrite Z.div_div by lia; reflexivity).
  replace (x / 16777216) with (x / 256 / 256 / 256)
    by (rewrite !Z.div_div by lia; reflexivity).
  Z.div_mod_to_equations. lia.
Qed.

Lemma le16_value (v : Z) (l : list Init.Byte.byte) :
  getUint16 0 (le16 v ++ l) = Some (v mod 65536).
Proof.
  unfold getUint16, le16. cbn [app lookup list_lookup mbind option_bind Nat.add].
  rewrite !byteValue_toUint8. f_equal.
  pose proof (Z.mod_pos_bound v 65536 eq_refl) as Hx.
  generalize dependent (v mod 65536). intros x Hx.
  Z.div_mod_to_equations. lia.
Qed.

Lemma getUint32_drop (offset : nat) (view : Uint8Array) :
  getUint32 offset view = getUint32 0 (drop offset view).
Proof. unfold getUint32. by rewrite !lookup_drop, Nat.add_0_r. Qed.

Lemma getUint16_drop (offset : nat) (view : Uint8Array) :
  getUint16 offset view = getUint16 0 (drop offset view).
Proof. unfold getUint16. by rewrite !lookup_drop, Nat.add_0_r. Qed.

Lemma fromCharCode_byteValue_toUint8 (c : ascii) :
  fromCharCode (byteValue (toUint8 (charCodeAt c))) = c.
Proof.
  rewrite byteValue_toUint8. pose proof (charCodeAt_range c).
  rewrite Z.mod_small by lia. apply fromCharCode_charCodeAt.
Qed.

Lemma fromCharCodes_tag (s : string) : fromCharCodes (tag s) = s.
Proof.
  unfold fromCharCodes, tag. induction s as [|c s IH]; [done|].
  cbn [list_ascii_of_string fmap list_fmap string_of_list_ascii].
  rewrite fromCharCode_byteValue_toUint8. f_equal. exact IH.
Qed.

Lemma length_tag (s : string) : length (tag s) = String.length s.
Proof.
  unfold tag. rewrite length_fmap. induction s; simpl; congruence.
Qed.

Lemma getString_tag (s : string) (l : list Init.Byte.byte) :
  getString 0 (String.length s) (tag s ++ l) = s.
Proof.
  unfold getString. rewrite drop_0, <- length_tag, take_app_length.
  apply fromCharCodes_tag.
Qed.

Lemma getString_drop (offset len : nat) (view : Uint8Array) :
  getString offset len view = getString 0 len (drop offset view).
Proof. unfold getString. by rewrite drop_0. Qed.

(** The header fields, read back from the file. *)
Lemma addWavHeader_fields pcmData sampleRate numChannels wav :
  addWavHeader pcmData sampleRate numChannels = Some wav →
  getString 0 4 wav = "RIFF"
  ∧ getUint32 4 wav = Some ((Z.of_nat (length pcmData) + 36) mod 4294967296)
  ∧ getString 8 4 wav = "WAVE"
  ∧ getString 12 4 wav = "fmt "
  ∧ getUint32 16 wav = Some 16
  ∧ getUint16 20 wav = Some 1
  ∧ getUint16 22 wav = Some (Number.integerPart numChannels mod 65536)
  ∧ getUint32 24 wav = Some (Number.integerPart sampleRate mod 4294967296)
  ∧ getUint32 28 wav = Some (byteRate sampleRate numChannels mod 4294967296)
  ∧ getUint16 32 wav = Some (blockAlign numChannels mod 65536)
  ∧ getUint16 34 wav = Some 16
  ∧ getString 36 4 wav = "data"
  ∧ getUint32 40 wav = Some (Z.of_nat (length pcmData) mod 4294967296).
Proof.
  rewrite addWavHeader_bytes.
  generalize (byteRate sampleRate numChannels) (blockAlign numChannels)
    (Number.integerPart numChannels) (Number.integerPart sampleRate).
  intros bytes align channels rate. intros [= <-].
  repeat match goal with |- _ ∧ _ => split end.
  all: first [ rewrite (getUint32_drop (S _)) | rewrite (getUint16_drop (S _))
             | rewrite (getString_drop (S _)) | idtac ].
  all: first [ exact (le32_value _ _) | exact (le16_value _ _)
             | exact (getString_tag "RIFF" _) | exact (getString_tag "WAVE" _)
             | exact (getString_tag "fmt " _) | exact (getString_tag "data" _) ].
Qed.

(** *** The chunked conversion to a binary string *)

Lemma append_cons (c : ascii) (s t : string) :
  String.append (String c s) t = String c (String.append s t).
Proof. reflexivity. Qed.

Lemma append_nil_r (s : string) : String.append s "" = s.
Proof.
  induction s as [|c s IH]; [done|]. by rewrite append_cons, IH.
Qed.

Lemma append_assoc (s1 s2 s3 : string) :
  String.append (String.append s1 s2) s3
  = String.append s1 (String.append s2 s3).
Proof.
  induction s1 as [|c s1 IH]; [done|]. by rewrite !append_cons, IH.
Qed.

Lemma string_of_list_ascii_app (l k : list ascii) :
  string_of_list_ascii (l ++ k)
  = String.append (string_of_list_ascii l) (string_of_list_ascii k).
Proof.
  induction l as [|c l IH]; [done|].
  cbn [app string_of_list_ascii]. by rewrite append_cons, IH.
Qed.

Lemma fromCharCodes_app (l k : Uint8Array) :
  fromCharCodes (l ++ k) = String.append (fromCharCodes l) (fromCharCodes k).
Proof. unfold fromCharCodes. by rewrite fmap_app, string_of_list_ascii_app. Qed.

Lemma chunkSize_pos : (0 < chunkSize)%nat.
Proof. unfold chunkSize. lia. Qed.

Lemma uint8ArrayToBase64_loop_spec fuel (bytes : Uint8Array) i binary :
  (length bytes ≤ i + fuel * chunkSize)%nat →
  uint8ArrayToBase64_loop fuel bytes i binary
  = String.append binary (fromCharCodes (drop i bytes)).
Proof.
  pose proof chunkSize_pos as Hpos.
  revert i binary. induction fuel as [|fuel IH]; intros i binary Hfuel;
    cbn [uint8ArrayToBase64_loop].
  - rewrite drop_ge by lia. by rewrite append_nil_r.
  - destruct (decide (i < length bytes)%nat) as [Hi|Hi].
    + rewrite IH by lia. rewrite append_assoc. f_equal.
      rewrite <- fromCharCodes_app. f_equal. unfold subarray.
      etransitivity;
        [|apply (take_drop (Nat.min (i + chunkSize) (length bytes) - i))].
      f_equal. rewrite drop_drop.
      destruct (decide (i + chunkSize ≤ length bytes)%nat).
      * f_equal. lia.
      * rewrite !drop_ge by lia. done.
    + rewrite drop_ge by lia. by rewrite append_nil_r.
Qed.

Lemma uint8ArrayToBase64_btoa (bytes : Uint8Array) :
  uint8ArrayToBase64 bytes = btoa (fromCharCodes bytes).
Proof.
  unfold uint8ArrayToBase64. rewrite uint8ArrayToBase64_loop_spec.
  - done.
  - pose proof chunkSize_pos as Hpos. revert Hpos.
    generalize chunkSize. intros c Hc. nia.
Qed.

(** *** [atob] inverts [btoa] *)

Lemma list_ind3 {A} (P : list A → Prop) :
  P [] → (∀ a, P [a]) → (∀ a b, P [a; b]) →
  (∀ a b c l, P l → P (a :: b :: c :: l)) → ∀ l, P l.
Proof.
  intros H0 H1 H2 H3.
  assert (H : ∀ l, P l ∧ (∀ a, P (a :: l)) ∧ (∀ a b, P (a :: b :: l))).
  { induction l as [|x l (IH0 & IH1 & IH2)]; [by auto|].
    split; [apply IH1|]. split; [intros a; apply IH2|].
    intros a b. apply H3, IH0. }
  intros l. apply H.
Qed.

Ltac codes :=
  repeat match goal with
  | |- context [charCodeAt ?c] =>
      let H := fresh "Hc" in
      pose proof (charCodeAt_range c) as H;
      generalize dependent (charCodeAt c); intros ? H
  end.

Lemma sextetsOf_range (data : list ascii) :
  Forall (λ z, 0 ≤ z < 64) (sextetsOf data).
Proof.
  induction data as [|a|a b|a b c l IH] using list_ind3; cbn [sextetsOf].
  - constructor.
  - repeat constructor; codes; Z.div_mod_to_equations; lia.
  - repeat constructor; codes; Z.div_mod_to_equations; lia.
  - repeat (constructor; [codes; Z.div_mod_to_equations; lia|]). exact IH.
Qed.

Lemma paddingOf_cons3 (a b c : ascii) (l : list ascii) :
  paddingOf (a :: b :: c :: l) = paddingOf l.
Proof.
  unfold paddingOf. cbn [length].
  replace (S (S (S (length l))) mod 3)%nat with (length l mod 3)%nat; [done|].
  generalize (length l). intros n.
  change (S (S (S n))) with (3 + n)%nat.
  rewrite <- (Nat.Div0.add_mod_idemp_l 3 n 3). done.
Qed.

Lemma btoa_chars_sextets (data : list ascii) :
  btoa_chars data = (sextetChar <$> sextetsOf data) ++ paddingOf data.
Proof.
  induction data as [|a|a b|a b c l IH] using list_ind3; [done..|].
  cbn [btoa_chars sextetsOf fmap list_fmap app].
  by rewrite IH, paddingOf_cons3.
Qed.

Lemma sextet_cases (P : Z → Prop) :
  (∀ n, n ∈ seq 0 64 → P (Z.of_nat n)) → ∀ z, 0 ≤ z < 64 → P z.
Proof.
  intros H z Hz. rewrite <- (Z2Nat.id z) by lia. apply H.
  apply elem_of_seq. lia.
Qed.

Lemma charSextet_sextetChar (z : Z) :
  0 ≤ z < 64 → charSextet (sextetChar z) = Some z.
Proof.
  revert z. apply sextet_cases.
  assert (H : forallb
            (λ n, bool_decide
                    (charSextet (sextetChar (Z.of_nat n)) = Some (Z.of_nat n)))
            (seq 0 64) = true) by (vm_compute; reflexivity).
  intros n Hn. rewrite forallb_forall in H.
  apply list_elem_of_In, H in Hn. by apply bool_decide_eq_true_1 in Hn.
Qed.

Lemma sextetChar_not_whitespace (z : Z) :
  0 ≤ z < 64 → isAsciiWhitespace (sextetChar z) = false.
Proof.
  revert z. apply sextet_cases.
  assert (H : forallb
            (λ n, negb (isAsciiWhitespace (sextetChar (Z.of_nat n))))
            (seq 0 64) = true) by (vm_compute; reflexivity).
  intros n Hn. rewrite forallb_forall in H.
  apply list_elem_of_In, H in Hn. by apply negb_true_iff in Hn.
Qed.

Lemma sextetChar_not_equalsSign (z : Z) :
  0 ≤ z < 64 → Ascii.eqb (sextetChar z) equalsSign = false.
Proof.
  intros Hz. apply Ascii.eqb_neq. intros Heq.
  pose proof (charSextet_sextetChar z Hz) as H. rewrite Heq in H.
  vm_compute in H. discriminate.
Qed.

Lemma decodeSextets_sextetsOf (data : list ascii) :
  decodeSextets (sextetsOf data) = data.
Proof.
  induction data as [|a|a b|a b c l IH] using list_ind3;
    cbn [sextetsOf decodeSextets]; [done|..].
  - f_equal. rewrite <- (fromCharCode_charCodeAt a) at 3. f_equal.
    codes. Z.div_mod_to_equations. lia.
  - f_equal; [|f_equal].
    + rewrite <- (fromCharCode_charCodeAt a) at 3. f_equal.
      codes. Z.div_mod_to_equations. lia.
    + rewrite <- (fromCharCode_charCodeAt b) at 3. f_equal.
      codes. Z.div_mod_to_equations. lia.
  - rewrite IH. f_equal; [|f_equal; [|f_equal]].
    + rewrite <- (fromCharCode_charCodeAt a) at 3. f_equal.
      codes. Z.div_mod_to_equations. lia.
    + rewrite <- (fromCharCode_charCodeAt b) at 3. f_equal.
      codes. Z.div_mod_to_equations. lia.
    + rewrite <- (fromCharCode_charCodeAt c) at 3. f_equal.
      codes. Z.div_mod_to_equations. lia.
Qed.

Lemma length_sextetsOf (data : list ascii) :
  (length (sextetsOf data) + length (paddingOf data))%nat
  = (4 * ((length data + 2) / 3))%nat
  ∧ (length (paddingOf data) = 0 ∨ length (sextetsOf data) ≠ 0)%nat
  ∧ (length (paddingOf data) ≤ 2)%nat.
Proof.
  induction data as [|a|a b|a b c l IH] using list_ind3;
    [vm_compute; lia..|].
  rewrite paddingOf_cons3. cbn [sextetsOf length].
  replace ((S (S (S (length l))) + 2) / 3)%nat
    with (S ((length l + 2) / 3))%nat.
  - lia.
  - change (S (S (S (length l))) + 2)%nat with (1 * 3 + (length l + 2))%nat.
    rewrite Nat.div_add_l by lia. lia.
Qed.

Lemma paddingOf_cases (data : list ascii) :
  paddingOf data = [] ∨ paddingOf data = [equalsSign]
  ∨ paddingOf data = [equalsSign; equalsSign].
Proof.
  unfold paddingOf. destruct (length data mod 3)%nat as [|[|[|n]]]; auto.
Qed.

Lemma stripPadding_btoa_chars (data : list ascii) :
  stripPadding (btoa_chars data) = sextetChar <$> sextetsOf data.
Proof.
  rewrite btoa_chars_sextets. unfold stripPadding.
  destruct (length_sextetsOf data) as (Hlen & Hne & _).
  pose proof (sextetsOf_range data) as Hrange.
  set (sx := sextetsOf data) in *.
  assert (Hlast : ∀ c rest, reverse (sextetChar <$> sx) = c :: rest →
            Ascii.eqb c equalsSign = false).
  { intros c rest Hrev.
    assert (Hin : c ∈ sextetChar <$> sx)
      by (apply elem_of_reverse; rewrite Hrev; left).
    apply list_elem_of_fmap in Hin as (z & -> & Hz).
    apply sextetChar_not_equalsSign.
    by apply (proj1 (Forall_forall _ _) Hrange). }
  rewrite decide_True
    by (rewrite length_app, length_fmap, Hlen, Nat.mul_comm;
        apply Nat.Div0.mod_mul).
  destruct (paddingOf_cases data) as [Hp|[Hp|Hp]]; rewrite Hp in *.
  - rewrite app_nil_r.
    destruct (reverse (sextetChar <$> sx)) as [|c1 [|c2 rest]] eqn:Hrev.
    + done.
    + by rewrite (Hlast _ _ eq_refl).
    + by rewrite (Hlast _ _ eq_refl).
  - rewrite reverse_app. change (reverse [equalsSign]) with [equalsSign].
    cbn [app].
    destruct (reverse (sextetChar <$> sx)) as [|c2 rest] eqn:Hrev.
    + apply (f_equal length) in Hrev.
      rewrite length_reverse, length_fmap in Hrev. simpl in *. lia.
    + rewrite Ascii.eqb_refl, (Hlast _ _ eq_refl).
      by rewrite <- Hrev, reverse_involutive.
  - rewrite reverse_app.
    change (reverse [equalsSign; equalsSign]) with [equalsSign; equalsSign].
    cbn [app]. rewrite !Ascii.eqb_refl. apply reverse_involutive.
Qed.

Lemma filter_all {A} (P : A → Prop) `{!∀ x, Decision (P x)} (l : list A) :
  Forall P l → filter P l = l.
Proof.
  induction 1 as [|x l Hx _ IH]; [done|].
  by rewrite filter_cons_True, IH.
Qed.

Lemma btoa_chars_not_whitespace (data : list ascii) :
  Forall (λ c, isAsciiWhitespace c = false) (btoa_chars data).
Proof.
  rewrite btoa_chars_sextets. apply Forall_app. split.
  - apply Forall_fmap. eapply Forall_impl; [apply sextetsOf_range|].
    intros z Hz. by apply sextetChar_not_whitespace.
  - destruct (paddingOf_cases data) as [->|[->| ->]]; repeat constructor.
Qed.

(** [atob] gives back what [btoa] encoded. *)
Lemma atob_btoa (data : string) : atob (btoa data) = Some data.
Proof.
  unfold atob, btoa. rewrite list_ascii_of_string_of_list_ascii.
  rewrite filter_all by apply btoa_chars_not_whitespace.
  rewrite stripPadding_btoa_chars.
  destruct (length_sextetsOf (list_ascii_of_string data)) as (Hlen & _ & Hpad).
  rewrite decide_False.
  - rewrite mapM_fmap_Forall_Some.
    + simpl. by rewrite decodeSextets_sextetsOf, string_of_list_ascii_of_string.
    + eapply Forall_impl; [apply sextetsOf_range|].
      intros z Hz. by apply charSextet_sextetChar.
  - rewrite length_fmap. intros Hmod.
    pose proof (Nat.div_mod_eq
                  (length (sextetsOf (list_ascii_of_string data))) 4) as Hd.
    rewrite Hmod in Hd. lia.
Qed.

(** *** The two converters are inverse to each other *)

Lemma fill_loop {A B} (f : option A → B) (d : B) (l : list A) (k : nat) :
  (k ≤ length l)%nat →
  foldl (λ bytes i, <[i := f (l !! i)]> bytes) (replicate (length l) d)
    (seq 0 k)
  = ((λ x, f (Some x)) <$> take k l) ++ replicate (length l - k) d.
Proof.
  induction k as [|k IH]; intros Hk.
  - by rewrite take_0, Nat.sub_0_r.
  - rewrite seq_S, foldl_snoc, IH by lia. simpl.
    destruct (lookup_lt_is_Some_2 l k) as [x Hx]; [lia|].
    rewrite (take_S_r _ _ _ Hx), fmap_app, Hx. simpl.
    replace (length l - k)%nat with (S (length l - S k)) by lia.
    rewrite <- app_assoc. simpl.
    rewrite insert_app_r_alt by (rewrite length_fmap, length_take; lia).
    rewrite length_fmap, length_take, Nat.min_l, Nat.sub_diag by lia.
    done.
Qed.

Lemma base64ToUint8Array_atob (base64 binaryString : string) :
  atob base64 = Some binaryString →
  base64ToUint8Array base64
  = Some ((λ c, toUint8 (charCodeAt c)) <$> list_ascii_of_string binaryString).
Proof.
  intros H. unfold base64ToUint8Array. rewrite H. simpl. f_equal.
  rewrite (fill_loop (λ o, toUint8 (from_option charCodeAt 0 o))) by done.
  by rewrite take_ge, Nat.sub_diag, app_nil_r.
Qed.

Lemma base64_round_trip (bytes : Uint8Array) :
  base64ToUint8Array (uint8ArrayToBase64 bytes) = Some bytes.
Proof.
  rewrite uint8ArrayToBase64_btoa.
  rewrite (base64ToUint8Array_atob _ _ (atob_btoa _)). f_equal.
  unfold fromCharCodes. rewrite list_ascii_of_string_of_list_ascii.
  rewrite <- list_fmap_compose.
  induction bytes as [|b bytes IH]; [done|].
  cbn [fmap list_fmap compose]. rewrite IH. f_equal.
  pose proof (byteValue_range b).
  rewrite charCodeAt_fromCharCode by done. apply toUint8_byteValue.
Qed.

(** *** The properties *)

Lemma length_headerBytes dataLength numChannels sampleRate bytes align :
  length (headerBytes dataLength numChannels sampleRate bytes align) = 44%nat.
Proof. reflexivity. Qed.

Lemma addWavHeader_length pcmData sampleRate numChannels wav :
  addWavHeader pcmData sampleRate numChannels = Some wav →
  length wav = (44 + length pcmData)%nat.
Proof.
  rewrite addWavHeader_bytes. intros H.
  assert (wav = headerBytes (Z.of_nat (length pcmData))
                  (Number.integerPart numChannels)
                  (Number.integerPart sampleRate)
                  (byteRate sampleRate numChannels) (blockAlign numChannels)
                ++ pcmData) as -> by congruence.
  by rewrite length_app, length_headerBytes.
Qed.

(** At the sample rate and the channel count of [synthesizeSpeech] the
    products are exact, and the header is the canonical one. *)
Lemma addWavHeader_speech pcmData :
  addWavHeader pcmData (Number.ofZ 24000) (Number.ofZ 1)
  = Some (wavHeader (Z.of_nat (length pcmData)) 24000 1 ++ pcmData).
Proof.
  rewrite addWavHeader_bytes. unfold wavHeader.
  replace (Number.integerPart (Number.ofZ 1)) with 1
    by (vm_compute; reflexivity).
  replace (Number.integerPart (Number.ofZ 24000)) with 24000
    by (vm_compute; reflexivity).
  replace (byteRate (Number.ofZ 24000) (Number.ofZ 1)) with (24000 * 1 * 2)
    by (vm_compute; reflexivity).
  replace (blockAlign (Number.ofZ 1)) with (1 * 2)
    by (vm_compute; reflexivity).
  reflexivity.
Qed.

(** [addWavHeader] never throws, whatever numbers it is given as sample
    rate and channel count: its result is the 44 bytes of the header,
    written for the length of the samples, followed by the samples
    themselves, unchanged. *)
Theorem addWavHeader_prepends_header pcmData sampleRate numChannels :
  ∃ wav, addWavHeader pcmData sampleRate numChannels = Some wav
    ∧ length wav = (44 + length pcmData)%nat
    ∧ take 44 wav
      = headerBytes (Z.of_nat (length pcmData))
          (Number.integerPart numChannels) (Number.integerPart sampleRate)
          (byteRate sampleRate numChannels) (blockAlign numChannels)
    ∧ drop 44 wav = pcmData.
Proof.
  eexists. split; [apply addWavHeader_bytes|].
  pose proof (length_headerBytes (Z.of_nat (length pcmData))
                (Number.integerPart numChannels)
                (Number.integerPart sampleRate)
                (byteRate sampleRate numChannels) (blockAlign numChannels))
    as Hlen.
  split; [by rewrite length_app, Hlen|].
  split.
  - by rewrite <- Hlen, take_app_length.
  - by rewrite <- Hlen, drop_app_length.
Qed.

(** A reader of the file gets every header field back, little-endian: the
    tags, the sizes modulo 2^32, the format constants (PCM, 16 bits), the
    integers of [sampleRate] and [numChannels], and the integers of their
    products, which are rounded as products of doubles before they are
    reduced modulo 2^32 and 2^16. *)
Theorem addWavHeader_header_fields pcmData sampleRate numChannels :
  ∃ wav, addWavHeader pcmData sampleRate numChannels = Some wav
    ∧ getString 0 4 wav = "RIFF"
    ∧ getUint32 4 wav = Some ((Z.of_nat (length pcmData) + 36) mod 4294967296)
    ∧ getString 8 4 wav = "WAVE"
    ∧ getString 12 4 wav = "fmt "
    ∧ getUint32 16 wav = Some 16
    ∧ getUint16 20 wav = Some 1
    ∧ getUint16 22 wav = Some (Number.integerPart numChannels mod 65536)
    ∧ getUint32 24 wav = Some (Number.integerPart sampleRate mod 4294967296)
    ∧ getUint32 28 wav
      = Some (Number.integerPart
                (Number.mul (Number.mul sampleRate numChannels) (Number.ofZ 2))
              mod 4294967296)
    ∧ getUint16 32 wav
      = Some (Number.integerPart (Number.mul numChannels (Number.ofZ 2))
              mod 65536)
    ∧ getUint16 34 wav = Some 16
    ∧ getString 36 4 wav = "data"
    ∧ getUint32 40 wav = Some (Z.of_nat (length pcmData) mod 4294967296).
Proof.
  eexists. split; [apply addWavHeader_bytes|].
  by apply (addWavHeader_fields pcmData sampleRate numChannels),
    addWavHeader_bytes.
Qed.

(** Beyond 2^53 the byte rate is that of the rounded product: at a sample
    rate of 2^53 - 1 and three channels its low byte is [0xf8], where the
    exact product has [0xfa]. *)
Example addWavHeader_rounds_the_byte_rate :
  let sampleRate := 9007199254740991 in
  (λ wav, wav !! 28%nat)
    <$> addWavHeader [] (Number.ofZ sampleRate) (Number.ofZ 3)
  = Some (Some Init.Byte.xf8)
  ∧ toUint8 (sampleRate * 3 * 2) = Init.Byte.xfa.
Proof. split; vm_compute; reflexivity. Qed.

(** The header [synthesizeSpeech] asks for (24 kHz, one channel) describes
    the file it is in, as long as the sizes fit in 32 bits: the RIFF size
    is the file length less 8, the data size is the number of sample
    bytes, and the byte rate is the sample rate times the block size. *)
Theorem addWavHeader_speech_consistent pcmData wav :
  Z.of_nat (length pcmData) + 36 < 4294967296 →
  addWavHeader pcmData (Number.ofZ 24000) (Number.ofZ 1) = Some wav →
  getUint32 4 wav = Some (Z.of_nat (length wav) - 8)
  ∧ getUint32 40 wav = Some (Z.of_nat (length pcmData))
  ∧ getUint16 22 wav = Some 1
  ∧ getUint32 24 wav = Some 24000
  ∧ getUint16 32 wav = Some 2
  ∧ getUint32 28 wav = Some (24000 * 2)
  ∧ getUint16 34 wav = Some (8 * 2).
Proof.
  intros Hfit Hwav.
  destruct (addWavHeader_fields _ _ _ _ Hwav)
    as (_ & Hriff & _ & _ & _ & _ & Hch & Hrate & Hbytes & Hblock & Hbits
        & _ & Hdata).
  rewrite (addWavHeader_length _ _ _ _ Hwav).
  rewrite Hriff, Hdata, Hch, Hrate, Hbytes, Hblock, Hbits.
  replace (Number.integerPart (Number.ofZ 1)) with 1
    by (vm_compute; reflexivity).
  replace (Number.integerPart (Number.ofZ 24000)) with 24000
    by (vm_compute; reflexivity).
  replace (byteRate (Number.ofZ 24000) (Number.ofZ 1)) with 48000
    by (vm_compute; reflexivity).
  replace (blockAlign (Number.ofZ 1)) with 2 by (vm_compute; reflexivity).
  rewrite !Z.mod_small by lia.
  repeat split; f_equal; lia.
Qed.

Lemma addWavHeader_speech_witness :
  let pcmData := [Init.Byte.x01; Init.Byte.x02; Init.Byte.x03; Init.Byte.x04] in
  ∃ wav, addWavHeader pcmData (Number.ofZ 24000) (Number.ofZ 1) = Some wav
    ∧ getUint32 4 wav = Some (Z.of_nat (length wav) - 8)
    ∧ getUint32 40 wav = Some 4.
Proof.
  intros pcmData.
  assert (Hwav : ∃ wav, addWavHeader pcmData (Number.ofZ 24000) (Number.ofZ 1)
                        = Some wav)
    by (eexists; vm_compute; reflexivity).
  destruct Hwav as [wav Hwav]. exists wav.
  destruct (addWavHeader_speech_consistent pcmData wav) as (H1 & H2 & _);
    [simpl; lia|exact Hwav|].
  exact (conj Hwav (conj H1 H2)).
Defined.

(** Cutting the array into chunks of 8192 bytes changes nothing: the
    result is the base64 text of the whole array, whatever its length
    (none, less than a chunk, several chunks). *)
Theorem uint8ArrayToBase64_whole_array (bytes : Uint8Array) :
  uint8ArrayToBase64 bytes = btoa (fromCharCodes bytes)
  ∧ String.length (fromCharCodes bytes) = length bytes.
Proof.
  split; [apply uint8ArrayToBase64_btoa|].
  unfold fromCharCodes. induction bytes as [|b bytes IH]; [done|].
  cbn [fmap list_fmap string_of_list_ascii String.length length]. by rewrite <- IH.
Qed.

(** Decoding what [uint8ArrayToBase64] produced gives the bytes back. *)
Theorem base64ToUint8Array_uint8ArrayToBase64 (bytes : Uint8Array) :
  base64ToUint8Array (uint8ArrayToBase64 bytes) = Some bytes.
Proof. apply base64_round_trip. Qed.

(** [base64ToUint8Array] fails exactly when [atob] rejects the text;
    otherwise it has one byte per character of the decoded string, the
    character's code. *)
Theorem base64ToUint8Array_decodes (base64 : string) :
  match atob base64 with
  | None => base64ToUint8Array base64 = None
  | Some binaryString =>
      ∃ bytes, base64ToUint8Array base64 = Some bytes
        ∧ length bytes = String.length binaryString
        ∧ fromCharCodes bytes = binaryString
  end.
Proof.
  destruct (atob base64) as [binaryString|] eqn:Hatob.
  - eexists. split; [by apply base64ToUint8Array_atob|]. split.
    + rewrite length_fmap. clear. induction binaryString; simpl; congruence.
    + apply fromCharCodes_tag.
  - unfold base64ToUint8Array. by rewrite Hatob.
Qed.

End Encoding.

(* ===================================================================== *)
(** ** Speech synthesis, topics and images *)
(* ===================================================================== *)

Section Speech.
Import GeminiService Encoding Speech.

Lemma find_Some_first {A} (p : A → bool) (l : list A) (v : A) :
  find p l = Some v →
  ∃ l1 l2, l = l1 ++ v :: l2 ∧ p v = true ∧ Forall (λ x, p x = false) l1.
Proof.
  induction l as [|x l IH]; [done|]. simpl.
  destruct (p x) eqn:Hx.
  - intros [= ->]. by exists [], l.
  - intros (l1 & l2 & -> & Hv & Hl1)%IH.
    exists (x :: l1), l2. by repeat constructor.
Qed.

Lemma find_None_all {A} (p : A → bool) (l : list A) :
  find p l = None ↔ Forall (λ x, p x = false) l.
Proof.
  induction l as [|x l IH]; simpl.
  - split; [constructor|done].
  - destruct (p x) eqn:Hx.
    + split; [done|]. intros [H _]%Forall_cons. congruence.
    + rewrite IH. split; [by constructor|]. by intros [_ H]%Forall_cons.
Qed.

(** The voice of the browser fallback: the first English voice whose name
    mentions Google if there is one, else the first English voice if there
    is one, else the first voice; none only when the browser has no
    voice. *)
Theorem enVoice_preference (voices : list SpeechSynthesisVoice) :
  let english v := startsWith (lang v) "en" = true in
  let google v := english v ∧ includes (name v) "Google" = true in
  (enVoice voices = None ↔ voices = [])
  ∧ (∀ v, enVoice voices = Some v →
       ∃ before after, voices = before ++ v :: after
         ∧ (google v ∧ Forall (λ x, ¬ google x) before
            ∨ english v ∧ Forall (λ x, ¬ english x) before
              ∧ Forall (λ x, ¬ google x) voices
            ∨ before = [] ∧ Forall (λ x, ¬ english x) voices)).
Proof.
  intros english google. unfold enVoice.
  destruct (find _ voices) as [v|] eqn:Hg.
  - split.
    + split; [done|]. intros ->. done.
    + intros v' [= <-].
      apply find_Some_first in Hg as (l1 & l2 & -> & Hv & Hl1).
      exists l1, l2. split; [done|]. left.
      apply andb_true_iff in Hv. split; [done|].
      eapply Forall_impl; [exact Hl1|]. intros x Hx [H1 H2].
      unfold english in H1. simpl in Hx. by rewrite H1, H2 in Hx.
  - apply find_None_all in Hg.
    assert (Hng : Forall (λ x, ¬ google x) voices).
    { eapply Forall_impl; [exact Hg|]. intros x Hx [H1 H2].
      unfold english in H1. simpl in Hx. by rewrite H1, H2 in Hx. }
    destruct (find _ voices) as [v|] eqn:He.
    + split.
      * split; [done|]. intros ->. done.
      * intros v' [= <-].
        apply find_Some_first in He as (l1 & l2 & -> & Hv & Hl1).
        exists l1, l2. split; [done|]. right; left.
        split; [done|]. split; [|done].
        eapply Forall_impl; [exact Hl1|]. intros x Hx H1.
        unfold english in H1. congruence.
    + apply find_None_all in He.
      assert (Hne : Forall (λ x, ¬ english x) voices).
      { eapply Forall_impl; [exact He|]. intros x Hx H1.
        unfold english in H1. congruence. }
      destruct voices as [|v voices]; [done|].
      split; [done|]. intros v' [= <-].
      exists [], voices. split; [done|]. right; right. done.
Qed.

Lemma synthesizeSpeech_attempt_url response url :
  synthesizeSpeech_attempt response = Resolved (Some url) →
  ∃ base64Audio pcmData,
    response = Resolved (Some base64Audio)
    ∧ base64ToUint8Array base64Audio = Some pcmData
    ∧ url = String.append "data:audio/wav;base64,"
              (uint8ArrayToBase64
                 (wavHeader (Z.of_nat (length pcmData)) 24000 1 ++ pcmData)).
Proof.
  unfold synthesizeSpeech_attempt.
  destruct response as [[base64Audio|]|e]; [|done..].
  destruct (String.eqb base64Audio ""); [done|].
  destruct (base64ToUint8Array base64Audio) as [pcmData|] eqn:Hpcm; [|done].
  rewrite addWavHeader_speech. intros [= <-]. by exists base64Audio, pcmData.
Qed.

Lemma data_url_cases (payload : string) :
  playAiAudio_case (Some (String.append "data:audio/wav;base64," payload))
  = AudioUrl.
Proof. reflexivity. Qed.

(** [synthesizeSpeech] is never rejected, and the three-way test of its
    callers tells its three outcomes apart: the browser fallback has
    spoken exactly when the retried request failed, there is a URL to
    play exactly when it returned audio, and there is nothing to play
    exactly when it returned none. *)
Theorem synthesizeSpeech_three_outcomes
    (generateContent : nat → Outcome (option string)) :
  let run := fetchWithRetry (λ k, synthesizeSpeech_attempt (generateContent k)) in
  ∃ result, synthesizeSpeech generateContent = Resolved result
    ∧ (playAiAudio_case result = ExamMode.FALLBACK_HANDLED
       ↔ ∃ e, settled run = Rejected e)
    ∧ (playAiAudio_case result = AudioUrl
       ↔ ∃ url, settled run = Resolved (Some url))
    ∧ (playAiAudio_case result = NoAudio ↔ settled run = Resolved None).
Proof.
  intros run. unfold synthesizeSpeech. fold run.
  destruct (fetchWithRetry_from_spec
              (λ k, synthesizeSpeech_attempt (generateContent k)) 0%nat 5%nat 2000)
    as (_ & _ & _ & _ & Hlast & _).
  fold (fetchWithRetry (λ k, synthesizeSpeech_attempt (generateContent k)))
    in Hlast. fold run in Hlast.
  destruct (settled run) as [[url|]|e] eqn:Hrun.
  - symmetry in Hlast.
    apply synthesizeSpeech_attempt_url in Hlast as (b & pcm & _ & _ & ->).
    eexists. split; [done|]. rewrite data_url_cases.
    split; [split; [done|by intros [??]]|].
    split; [split; [by eauto|done]|]. done.
  - eexists. split; [done|]. simpl.
    split; [split; [done|by intros [??]]|].
    split; [split; [done|by intros [??]]|]. done.
  - eexists. split; [done|]. simpl.
    split; [split; [by eauto|done]|].
    split; [split; [done|by intros [??]]|]. done.
Qed.

(** A URL returned by [synthesizeSpeech] comes from the first response
    that was not rejected for quota, among at most six; it is a WAV data
    URL whose payload decodes to the 44-byte header followed by exactly
    the audio bytes the service sent. *)
Theorem synthesizeSpeech_data_url
    (generateContent : nat → Outcome (option string)) (url : string) :
  synthesizeSpeech generateContent = Resolved (Some url) →
  url ≠ FALLBACK_HANDLED →
  ∃ (k : nat) base64Audio pcmData payload,
    (k ≤ 5)%nat
    ∧ (∀ j, (j < k)%nat →
         quotaRejected (synthesizeSpeech_attempt (generateContent j)))
    ∧ generateContent k = Resolved (Some base64Audio)
    ∧ base64ToUint8Array base64Audio = Some pcmData
    ∧ url = String.append "data:audio/wav;base64," payload
    ∧ base64ToUint8Array payload
      = Some (wavHeader (Z.of_nat (length pcmData)) 24000 1 ++ pcmData).
Proof.
  intros Hres Hurl. unfold synthesizeSpeech in Hres.
  destruct (fetchWithRetry_from_spec
              (λ k, synthesizeSpeech_attempt (generateContent k)) 0%nat 5%nat 2000)
    as (Hle & _ & _ & Hbefore & Hlast & _).
  fold (fetchWithRetry (λ k, synthesizeSpeech_attempt (generateContent k)))
    in Hle, Hbefore, Hlast.
  destruct (settled (fetchWithRetry _)) as [result|e] eqn:Hrun;
    [|by injection Hres as <-].
  injection Hres as ->. symmetry in Hlast.
  apply synthesizeSpeech_attempt_url in Hlast as (b & pcm & Hk & Hpcm & ->).
  eexists _, b, pcm, _. split; [exact Hle|]. split; [exact Hbefore|].
  split; [exact Hk|]. split; [exact Hpcm|]. split; [reflexivity|].
  apply base64_round_trip.
Qed.

Lemma synthesizeSpeech_data_url_witness :
  let generateContent := λ k : nat,
    match k with
    | O => Rejected {| message := None; status := Some 429; errorString := "{}" |}
    | _ => Resolved (Some "AAECAw==")
    end in
  ∃ url pcmData,
    synthesizeSpeech generateContent = Resolved (Some url)
    ∧ base64ToUint8Array "AAECAw==" = Some pcmData
    ∧ length pcmData = 4%nat
    ∧ ∃ payload, url = String.append "data:audio/wav;base64," payload
        ∧ base64ToUint8Array payload
          = Some (wavHeader 4 24000 1 ++ pcmData).
Proof.
  intros generateContent.
  assert (Hurl : ∃ url, synthesizeSpeech generateContent = Resolved (Some url)
                   ∧ url ≠ FALLBACK_HANDLED).
  { eexists. split; [vm_compute; reflexivity|]. discriminate. }
  destruct Hurl as (url & Hres & Hne).
  destruct (synthesizeSpeech_data_url generateContent url Hres Hne)
    as (k & b & pcm & payload & Hk & Hbefore & Hgc & Hpcm & Hurl & Hdec).
  assert (k = 1%nat) as ->.
  { destruct k as [|[|k]]; [discriminate Hgc|done|].
    destruct (Hbefore 1%nat) as (e & He & _); [lia|]. discriminate He. }
  injection Hgc as <-.
  exists url, pcm. split; [exact Hres|]. split; [exact Hpcm|].
  assert (Hlen : length pcm = 4%nat).
  { vm_compute in Hpcm. by injection Hpcm as <-. }
  split; [exact Hlen|]. exists payload. split; [exact Hurl|].
  by rewrite Hlen in Hdec.
Defined.

(** Audio that is not base64 is not retried: the attempt fails with the
    decoding error, which is no quota error, so the browser fallback
    speaks after a single request. *)
Theorem synthesizeSpeech_malformed_audio
    (generateContent : nat → Outcome (option string)) (base64Audio : string) :
  generateContent 0%nat = Resolved (Some base64Audio) →
  base64Audio ≠ "" →
  atob base64Audio = None →
  synthesizeSpeech generateContent = Resolved (Some FALLBACK_HANDLED)
  ∧ calls (fetchWithRetry (λ k, synthesizeSpeech_attempt (generateContent k)))
    = 1%nat.
Proof.
  intros Hgc Hne Hatob.
  assert (Hattempt : synthesizeSpeech_attempt (generateContent 0%nat)
                     = Rejected invalidCharacterError).
  { rewrite Hgc. unfold synthesizeSpeech_attempt.
    rewrite (proj2 (String.eqb_neq _ _) Hne).
    unfold base64ToUint8Array. by rewrite Hatob. }
  unfold synthesizeSpeech, fetchWithRetry.
  cbn [fetchWithRetry_from]. rewrite Hattempt.
  change (isQuotaError invalidCharacterError) with false. done.
Qed.

Lemma synthesizeSpeech_malformed_audio_witness :
  let generateContent := λ _ : nat, Resolved (Some "not base64!") in
  atob "not base64!" = None
  ∧ synthesizeSpeech generateContent = Resolved (Some FALLBACK_HANDLED).
Proof.
  intros generateContent.
  assert (Hatob : atob "not base64!" = None) by (vm_compute; reflexivity).
  split; [exact Hatob|].
  apply (synthesizeSpeech_malformed_audio generateContent "not base64!");
    [reflexivity|discriminate|exact Hatob].
Defined.

End Speech.

Section Generation.
Import GeminiService Generation.

(** *** Stars and white space *)

Lemma prefix_star (c : ascii) (s : string) :
  String.prefix "*" (String c s) = Ascii.eqb c "*".
Proof.
  change (String.prefix "*" (String c s))
    with (if ascii_dec "*" c then String.prefix "" s else false).
  destruct (ascii_dec "*" c) as [<-|Hc].
  - by destruct s.
  - symmetry. apply Ascii.eqb_neq. congruence.
Qed.

Lemma includes_star (s : string) :
  includes s "*" = false
  ↔ Forall (λ c, c ≠ "*"%char) (list_ascii_of_string s).
Proof.
  unfold includes. induction s as [|c s IH].
  - split; [intros _; constructor|done].
  - cbn [includes_from list_ascii_of_string]. rewrite prefix_star.
    destruct (Ascii.eqb_spec c "*") as [->|Hc]; cbn [orb].
    + split; [done|]. by intros [? _]%Forall_cons.
    + rewrite IH. split.
      * intros H. by constructor.
      * by intros [_ ?]%Forall_cons.
Qed.

Lemma removeStars_chars (s : string) :
  Forall (λ c, c ≠ "*"%char) (list_ascii_of_string (removeStars s)).
Proof.
  induction s as [|c s IH]; simpl; [constructor|].
  destruct (Ascii.eqb c "*") eqn:Hc; [done|].
  simpl. constructor; [|done]. by apply Ascii.eqb_neq.
Qed.

Lemma trimStart_chars_spec (l : list ascii) :
  ∃ ws, l = ws ++ trimStart_chars l
    ∧ match trimStart_chars l with
      | [] => True
      | c :: _ => isWhiteSpace c = false
      end.
Proof.
  induction l as [|c l (ws & Hl & Hhead)]; simpl.
  - by exists [].
  - destruct (isWhiteSpace c) eqn:Hc.
    + exists (c :: ws). split; [by rewrite Hl at 1|done].
    + by exists [].
Qed.

Lemma trim_chars (s : string) :
  ∃ before after,
    list_ascii_of_string s
    = before ++ list_ascii_of_string (trim s) ++ after
    ∧ trimmed (trim s).
Proof.
  unfold trim, trimmed. rewrite list_ascii_of_string_of_list_ascii.
  destruct (trimStart_chars_spec (list_ascii_of_string s))
    as (ws & Hs & Hhead).
  set (l1 := trimStart_chars (list_ascii_of_string s)) in *.
  destruct (trimStart_chars_spec (reverse l1)) as (ws' & Hr & Hlast).
  set (t := trimStart_chars (reverse l1)) in *.
  assert (Hl1 : l1 = reverse t ++ reverse ws').
  { by rewrite <- reverse_app, <- Hr, reverse_involutive. }
  exists ws, (reverse ws'). split; [by rewrite <- Hl1|].
  rewrite reverse_involutive. split; [|exact Hlast].
  destruct (reverse t) as [|c rest] eqn:Ht; [done|].
  rewrite Hl1 in Hhead. exact Hhead.
Qed.

Lemma starFree_trim_removeStars (text : string) :
  starFree (trim (removeStars text)).
Proof.
  apply includes_star.
  destruct (trim_chars (removeStars text)) as (before & after & Hs & _).
  pose proof (removeStars_chars text) as H. rewrite Hs in H.
  by apply Forall_app in H as [_ [H _]%Forall_app].
Qed.

Lemma presentable_text (text fallback : string) :
  presentable fallback →
  presentable (let text := trim (removeStars text) in
               if String.eqb text "" then fallback else text).
Proof.
  intros Hf. simpl.
  destruct (String.eqb _ "") eqn:He; [done|].
  apply String.eqb_neq in He. split; [done|].
  split; [apply starFree_trim_removeStars|].
  by destruct (trim_chars (removeStars text)) as (_ & _ & _ & ?).
Qed.

Lemma presentable_examTopic : presentable "City vs Village".
Proof. repeat split; done. Qed.

Lemma presentable_writingTopic : presentable "Write about your best friend...".
Proof. repeat split; done. Qed.

Lemma generateExamTopic_attempt_presentable generateContent part k topic :
  generateExamTopic_attempt generateContent part k = Resolved topic →
  presentable topic.
Proof.
  unfold generateExamTopic_attempt.
  destruct (generateContent PRIMARY_MODEL _ k) as [[text|]|e].
  - intros [= <-]. apply presentable_text, presentable_examTopic.
  - intros [= <-]. apply presentable_examTopic.
  - destruct (isQuotaError e); [|done].
    destruct (generateContent FALLBACK_MODEL _ k) as [[text|]|e']; [..|done].
    + intros [= <-]. apply presentable_text, presentable_examTopic.
    + intros [= <-]. apply presentable_examTopic.
Qed.

Lemma generateWritingTopic_attempt_presentable generateContent k topic :
  generateWritingTopic_attempt generateContent k = Resolved topic →
  presentable topic.
Proof.
  unfold generateWritingTopic_attempt.
  destruct (generateContent PRIMARY_MODEL _ k) as [[text|]|e].
  - intros [= <-]. apply presentable_text, presentable_writingTopic.
  - intros [= <-]. apply presentable_writingTopic.
  - destruct (isQuotaError e); [|done].
    destruct (generateContent FALLBACK_MODEL _ k) as [[text|]|e']; [..|done].
    + intros [= <-]. apply presentable_text, presentable_writingTopic.
    + intros [= <-]. apply presentable_writingTopic.
Qed.

(** Whatever the models answer and however they fail, [generateExamTopic]
    and [generateWritingTopic] are not rejected, and the topic they give is
    not empty, holds no star and has no white space at either end. *)
Theorem generated_topics_presentable (generateContent : GenerateContent) :
  (∀ part, ∃ topic,
     generateExamTopic generateContent part = Resolved topic
     ∧ presentable topic)
  ∧ ∃ topic,
      generateWritingTopic generateContent = Resolved topic
      ∧ presentable topic.
Proof.
  split.
  - intros part. unfold generateExamTopic.
    destruct (fetchWithRetry_from_spec
                (generateExamTopic_attempt generateContent part)
                0%nat 5%nat 2000) as (_ & _ & _ & _ & Hlast & _).
    fold (fetchWithRetry (generateExamTopic_attempt generateContent part))
      in Hlast.
    destruct (settled _) as [topic|e].
    + exists topic. split; [done|].
      symmetry in Hlast. by apply generateExamTopic_attempt_presentable in Hlast.
    + eexists. split; [done|]. apply presentable_examTopic.
  - unfold generateWritingTopic.
    destruct (fetchWithRetry_from_spec
                (generateWritingTopic_attempt generateContent)
                0%nat 5%nat 2000) as (_ & _ & _ & _ & Hlast & _).
    fold (fetchWithRetry (generateWritingTopic_attempt generateContent))
      in Hlast.
    destruct (settled _) as [topic|e].
    + exists topic. split; [done|].
      symmetry in Hlast.
      by apply generateWritingTopic_attempt_presentable in Hlast.
    + eexists. split; [done|]. apply presentable_writingTopic.
Qed.

(** How the first attempt of [generateExamTopic] goes.  When the primary
    model answers, its cleaned text is the topic.  When it fails with an
    error that is no quota error, the default topic is given at once.
    When it fails with a quota error and the fallback model answers, the
    cleaned text of the fallback model is the topic. *)
Theorem generateExamTopic_model_fallback
    (generateContent : GenerateContent) (part : Z) :
  let prompt := examTopicPrompt part in
  (∀ text, generateContent PRIMARY_MODEL prompt 0%nat = Resolved text →
     generateExamTopic generateContent part
     = Resolved (cleanedOr text "City vs Village"))
  ∧ (∀ e, generateContent PRIMARY_MODEL prompt 0%nat = Rejected e →
       isQuotaError e = false →
       generateExamTopic generateContent part = Resolved "City vs Village")
  ∧ (∀ e text, generateContent PRIMARY_MODEL prompt 0%nat = Rejected e →
       isQuotaError e = true →
       generateContent FALLBACK_MODEL prompt 0%nat = Resolved text →
       generateExamTopic generateContent part
       = Resolved (cleanedOr text "City vs Village")).
Proof.
  intros prompt.
  assert (Hfirst : ∀ o, generateExamTopic_attempt generateContent part 0%nat = o →
            (∀ e, o = Rejected e → isQuotaError e = false) →
            settled (fetchWithRetry
                       (generateExamTopic_attempt generateContent part)) = o).
  { intros o Ho Hq. unfold fetchWithRetry. cbn [fetchWithRetry_from].
    rewrite Ho. destruct o as [v|e]; [done|]. by rewrite (Hq e eq_refl). }
  unfold generateExamTopic.
  split; [|split].
  - intros text Hp.
    rewrite (Hfirst (Resolved (cleanedOr text "City vs Village")));
      [reflexivity| |intros ? [=]].
    unfold generateExamTopic_attempt. fold prompt. rewrite Hp.
    by destruct text.
  - intros e Hp Hq.
    rewrite (Hfirst (Rejected e)); [reflexivity| |by intros ? [= <-]].
    unfold generateExamTopic_attempt. fold prompt. by rewrite Hp, Hq.
  - intros e text Hp Hq Hf.
    rewrite (Hfirst (Resolved (cleanedOr text "City vs Village")));
      [reflexivity| |intros ? [=]].
    unfold generateExamTopic_attempt. fold prompt. rewrite Hp, Hq, Hf.
    by destruct text.
Qed.

Lemma firstInlineData_Some parts url :
  firstInlineData parts = Some url →
  ∃ before inlineData after,
    parts = before ++ Some inlineData :: after
    ∧ Forall (λ part, part = None) before
    ∧ url = String.append "data:"
              (String.append (mimeType inlineData)
                 (String.append ";base64," (data inlineData))).
Proof.
  induction parts as [|[d|] parts IH]; [done|..]; simpl.
  - intros [= <-]. by exists [], d, parts.
  - intros (before & d & after & -> & Hb & ->)%IH.
    exists (None :: before), d, after. by repeat constructor.
Qed.

Lemma firstInlineData_first before inlineData after :
  Forall (λ part, part = None) before →
  firstInlineData (before ++ Some inlineData :: after)
  = Some (String.append "data:"
            (String.append (mimeType inlineData)
               (String.append ";base64," (data inlineData)))).
Proof. induction 1 as [|? ? -> _ IH]; [done|exact IH]. Qed.

Lemma firstInlineData_none parts :
  Forall (λ part, part = None) parts → firstInlineData parts = None.
Proof. induction 1 as [|? ? -> _ IH]; [done|exact IH]. Qed.

(** [generateExamImage] is not rejected, and its result is decided by the
    one call that settles the retried request: the first call, among at
    most six, that was not rejected for quota (or the sixth).  When that
    call returns a response, the result is the data URL of the first part
    of that response with inline data, and null when no part has any;
    when that call fails, the result is null. *)
Theorem generateExamImage_first_inline
    (generateContent : nat → Outcome (option (list (option InlineData)))) :
  ∃ k : nat,
    (k ≤ 5)%nat
    ∧ (∀ j, (j < k)%nat → quotaRejected (generateContent j))
    ∧ match generateContent k with
      | Resolved parts =>
          (∀ before inlineData after,
             default [] parts = before ++ Some inlineData :: after →
             Forall (λ part, part = None) before →
             generateExamImage generateContent
             = Resolved
                 (Some (String.append "data:"
                          (String.append (mimeType inlineData)
                             (String.append ";base64," (data inlineData))))))
          ∧ (Forall (λ part, part = None) (default [] parts) →
               generateExamImage generateContent = Resolved None)
      | Rejected e =>
          (isQuotaError e = false ∨ k = 5%nat)
          ∧ generateExamImage generateContent = Resolved None
      end.
Proof.
  unfold generateExamImage.
  set (fn := λ k, match generateContent k with
                  | Resolved parts =>
                      Resolved (firstInlineData (default [] parts))
                  | Rejected e => Rejected e
                  end).
  destruct (fetchWithRetry_from_spec fn 0%nat 5%nat 2000)
    as (Hle & _ & _ & Hbefore & Hlast & Hwhy).
  fold (fetchWithRetry fn) in Hle, Hbefore, Hlast, Hwhy.
  rewrite Nat.add_0_l in Hlast.
  exists (length (delays (fetchWithRetry fn))).
  split; [exact Hle|]. split.
  { intros j Hj. destruct (Hbefore j Hj) as (e & He & Hq).
    rewrite Nat.add_0_l in He. unfold fn in He.
    destruct (generateContent j) as [parts|e'] eqn:Hgc; [done|].
    injection He as ->. by exists e. }
  assert (Hwhy' : ∀ e, fn (length (delays (fetchWithRetry fn))) = Rejected e →
            isQuotaError e = false
            ∨ length (delays (fetchWithRetry fn)) = 5%nat)
    by (intros e He; apply Hwhy; by rewrite Hlast).
  rewrite Hlast. clear Hlast Hwhy Hbefore Hle.
  generalize dependent (length (delays (fetchWithRetry fn))). intros k Hwhy.
  unfold fn in *. clear fn.
  destruct (generateContent k) as [parts|e] eqn:Hgc.
  - split.
    + intros before d after -> Hb. by rewrite firstInlineData_first.
    + intros Hnone. by rewrite firstInlineData_none.
  - split; [by apply Hwhy|done].
Qed.

End Generation.

(* ===================================================================== *)
(** ** Cleaning, quota errors and the time spent retrying *)
(* ===================================================================== *)

Section Cleaning.
Import GeminiService.

(** Induction on a parsed value, through its arrays and objects. *)
Lemma json_induction (P : json → Prop) :
  P JNull → (∀ b, P (JBool b)) → (∀ q, P (JNumber q)) → (∀ s, P (JString s)) →
  (∀ items, Forall P items → P (JArray items)) →
  (∀ members, Forall (λ kv, P kv.2) members → P (JObject members)) →
  ∀ v, P v.
Proof.
  intros Hnull Hbool Hnum Hstr Harr Hobj.
  fix IH 1. intros [|b|q|s|items|members].
  - exact Hnull.
  - apply Hbool.
  - apply Hnum.
  - apply Hstr.
  - apply Harr. induction items as [|x items IHitems]; constructor.
    + apply IH.
    + exact IHitems.
  - apply Hobj. induction members as [|[k x] members IHmembers]; constructor.
    + apply IH.
    + exact IHmembers.
Qed.

Lemma includes_star_chars (s : string) :
  includes s "*" = false
  ↔ Forall (λ c, c ≠ "*"%char) (list_ascii_of_string s).
Proof. apply includes_star. Qed.

Lemma removeStars_starFree (s : string) : includes (removeStars s) "*" = false.
Proof. apply includes_star, removeStars_chars. Qed.

Lemma removeStars_id (s : string) :
  includes s "*" = false → removeStars s = s.
Proof.
  rewrite includes_star. induction s as [|c s IH]; [done|].
  cbn [list_ascii_of_string removeStars]. intros [Hc Hs]%Forall_cons.
  rewrite (proj2 (Ascii.eqb_neq _ _) Hc). by rewrite IH.
Qed.

Lemma forallb_store (key : string) (v : value)
    (members : list (string * value)) :
  noStars v = true →
  forallb (λ kv, match kv with (_, v) => noStars v end) members = true →
  forallb (λ kv, match kv with (_, v) => noStars v end) (store key v members)
  = true.
Proof.
  intros Hv. induction members as [|[k x] members IH]; cbn [store forallb].
  - by rewrite Hv.
  - intros [Hx Hm]%andb_true_iff.
    destruct (String.eqb k key); cbn [forallb].
    + by rewrite Hv, Hm.
    + by rewrite Hx, IH.
Qed.

Lemma noStars_assign (newObj : value) (key : string) (v : value) :
  noStars newObj = true → noStars v = true →
  noStars (assign newObj key v) = true.
Proof.
  intros Hobj Hv. destruct newObj as [| | | | |proto members]; try done.
  unfold assign.
  destruct (String.eqb key "__proto__" && reachesAccessor (VObject proto members)).
  - assert (Hm : forallb (λ kv, match kv with (_, v) => noStars v end) members
                 = true)
      by (cbn [noStars] in Hobj; by apply andb_true_iff in Hobj as [_ Hm]).
    assert (Hset : noStars (VObject (Some v) members) = true)
      by (change (noStars v && forallb (λ kv, match kv with (_, v) => noStars v end) members = true); by rewrite Hv, Hm).
    by destruct v.
  - cbn [noStars] in *. apply andb_true_iff in Hobj as [Hp Hm].
    by rewrite Hp, forallb_store.
Qed.

Lemma lookup_last_Some {A} (key : string) (members : list (string * A)) (v : A) :
  lookup_last key members = Some v → (key, v) ∈ members.
Proof.
  induction members as [|[k x] members IH]; [done|].
  cbn [lookup_last]. destruct (lookup_last key members) as [v'|].
  - intros [= <-]. right. by apply IH.
  - destruct (String.eqb_spec k key) as [->|_]; [|done].
    intros [= <-]. left.
Qed.

Lemma noStars_clean (v : json) : noStars (clean v) = true.
Proof.
  induction v as [| | |s|items IH|members IH] using json_induction;
    cbn [clean noStars]; [done..| | |].
  - by rewrite removeStars_starFree.
  - induction IH as [|x items Hx _ IHitems]; [done|].
    cbn [map forallb]. by rewrite Hx, IHitems.
  - set (cleaned := map _ members).
    assert (Hcleaned : ∀ key v, lookup_last key cleaned = Some v →
              noStars v = true).
    { intros key v Hv%lookup_last_Some. subst cleaned.
      apply list_elem_of_In, in_map_iff in Hv as ([k x] & [= <- <-] & Hin).
      apply list_elem_of_In in Hin.
      by apply (proj1 (Forall_forall _ _) IH (k, x)). }
    generalize (forInKeys members). intros keys.
    assert (Hstart : noStars (VObject None []) = true) by done.
    revert Hstart. generalize (VObject None []).
    induction keys as [|key keys IHkeys]; intros newObj Hobj; [done|].
    cbn [foldl]. apply IHkeys. unfold assignCleaned.
    destruct (lookup_last key cleaned) as [v|] eqn:Hv; [|done].
    apply noStars_assign; [done|]. by apply (Hcleaned key).
Qed.

(** After [clean] no string holds a star, at any depth of the value it
    returns: not in a string, an array item or an own property, and not
    in the prototype that a member named [__proto__] became.  A string
    without a star is returned as it is. *)
Theorem clean_removes_every_star (v : json) :
  noStars (clean v) = true
  ∧ (∀ s, v = JString s → includes s "*" = false → clean v = VString s).
Proof.
  split; [apply noStars_clean|].
  intros s -> Hs. cbn [clean]. by rewrite removeStars_id.
Qed.

(** [clean] keeps the members of a parsed object as own properties, each
    cleaned, but for a member named [__proto__]: it is no own property of
    the result but its prototype when it is an object, an array or [null],
    and it is dropped when it is anything else.  Without such a member
    a property read gives the cleaned member of the response, for every
    key that [Object.prototype] does not define. *)
Theorem clean_keeps_properties (members : list (string * json)) :
  let obj := clean (JObject members) in
  (∀ key, key ≠ "__proto__" →
     ownProperty obj key = clean <$> lookup_last key members)
  ∧ ownProperty obj "__proto__" = None
  ∧ prototypeOf obj
    = (clean <$> lookup_last "__proto__" members) ≫= asPrototype
  ∧ (lookup_last "__proto__" members = None →
       ∀ key, key ∉ objectPrototypeKeys →
         prop obj key = clean <$> lookup_last key members).
Proof.
  intros obj. subst obj.
  destruct (clean_object members) as (members' & -> & Hlook).
  cbn [ownProperty prototypeOf prop].
  split; [intros key Hkey; by rewrite Hlook, decide_False|].
  split; [by rewrite Hlook, decide_True|]. split; [done|].
  intros Hproto key _. rewrite Hlook, Hproto.
  cbn [fmap option_fmap option_map mbind option_bind].
  destruct (decide (key = "__proto__")) as [->|_]; [by rewrite Hproto|].
  by destruct (clean <$> lookup_last key members).
Qed.

(** A member named [__proto__] is read through: the score it holds
    becomes the score of the record when the response has none of its
    own. *)
Example clean_proto_member_is_inherited :
  (λ res, (raw_taskAchievementScore (raw_feedback res),
           raw_grammarScore (raw_feedback res)))
    <$> examResult protoResponse
  = Some (VNumber (Number.ofZ 9), VNumber (Number.ofZ 7))
  ∧ ownProperty (clean protoResponse) "taskAchievementScore" = None.
Proof. split; vm_compute; reflexivity. Qed.

End Cleaning.

Section QuotaErrors.
Import GeminiService.

Lemma prefix_app (needle post : string) :
  String.prefix needle (String.append needle post) = true.
Proof.
  induction needle as [|c needle IH]; [by destruct post|].
  change (String.append (String c needle) post)
    with (String c (String.append needle post)).
  change (String.prefix (String c needle)
            (String c (String.append needle post)))
    with (if ascii_dec c c
          then String.prefix needle (String.append needle post)
          else false).
  by destruct (ascii_dec c c).
Qed.

Lemma prefix_inv (needle hay : string) :
  String.prefix needle hay = true →
  ∃ post, hay = String.append needle post.
Proof.
  revert hay. induction needle as [|c needle IH]; intros hay.
  - intros _. by exists hay.
  - destruct hay as [|c' hay]; [done|].
    change (String.prefix (String c needle) (String c' hay))
      with (if ascii_dec c c' then String.prefix needle hay else false).
    destruct (ascii_dec c c') as [<-|]; [|done].
    intros (post & ->)%IH. by exists post.
Qed.

(** [includes] is the substring test. *)
Lemma includes_spec (hay needle : string) :
  includes hay needle = true
  ↔ ∃ pre post, hay = String.append pre (String.append needle post).
Proof.
  unfold includes. induction hay as [|c hay IH].
  - cbn [includes_from]. rewrite orb_false_r. split.
    + intros (post & ->)%prefix_inv. by exists "", post.
    + intros ([|c pre] & post & H); [|done].
      change (String.append "" (String.append needle post))
        with (String.append needle post) in H.
      rewrite H. apply prefix_app.
  - cbn [includes_from]. rewrite orb_true_iff, IH. split.
    + intros [(post & ->)%prefix_inv|(pre & post & ->)].
      * by exists "", post.
      * by exists (String c pre), post.
    + intros ([|c' pre] & post & H).
      * left. change (String.append "" (String.append needle post))
          with (String.append needle post) in H.
        rewrite H. apply prefix_app.
      * right. injection H as -> ->. by exists pre, post.
Qed.

Lemma toLowerCase_app (s t : string) :
  toLowerCase (String.append s t)
  = String.append (toLowerCase s) (toLowerCase t).
Proof.
  induction s as [|c s IH]; [done|].
  change (String.append (String c s) t) with (String c (String.append s t)).
  cbn [toLowerCase]. rewrite IH. done.
Qed.

Lemma toLowerCase_app_inv (s a b : string) :
  toLowerCase s = String.append a b →
  ∃ s1 s2, s = String.append s1 s2
    ∧ toLowerCase s1 = a ∧ toLowerCase s2 = b.
Proof.
  revert s. induction a as [|c a IH]; intros s H.
  - by exists "", s.
  - destruct s as [|c' s]; [done|].
    change (String.append (String c a) b)
      with (String c (String.append a b)) in H.
    cbn [toLowerCase] in H. injection H as Hc H.
    apply IH in H as (s1 & s2 & -> & <- & <-).
    exists (String c' s1), s2. cbn [toLowerCase]. by rewrite Hc.
Qed.

(** An error counts as a quota error exactly when its message or its text
    holds 429, its status is 429, its text holds RESOURCE_EXHAUSTED, or
    its text holds the word quota in any letter case. *)
Theorem isQuotaError_markers (error : JsError) :
  isQuotaError error = true
  ↔ (∃ m pre post, message error = Some m
       ∧ m = String.append pre (String.append "429" post))
    ∨ status error = Some 429
    ∨ (∃ pre post,
         errorString error = String.append pre (String.append "429" post))
    ∨ (∃ pre post,
         errorString error
         = String.append pre (String.append "RESOURCE_EXHAUSTED" post))
    ∨ (∃ pre word post,
         errorString error = String.append pre (String.append word post)
         ∧ toLowerCase word = "quota").
Proof.
  unfold isQuotaError. rewrite !orb_true_iff, !includes_spec.
  split.
  - intros [[[[Hm|Hs]|H429]|Hre]|Hq].
    + destruct (message error) as [m|]; [|done].
      apply includes_spec in Hm as (pre & post & ->). left. by eauto.
    + destruct (status error) as [n|]; [|done].
      apply Z.eqb_eq in Hs as ->. by right; left.
    + by right; right; left.
    + by right; right; right; left.
    + right; right; right; right.
      destruct Hq as (pre' & post' & Hq).
      apply toLowerCase_app_inv in Hq as (pre & rest & Htext & _ & Hrest).
      apply toLowerCase_app_inv in Hrest as (word & post & -> & Hword & _).
      by exists pre, word, post.
  - intros [(m & pre & post & -> & ->)
           |[->|[H429|[Hre|(pre & word & post & -> & Hword)]]]].
    + do 4 left. apply includes_spec. by eauto.
    + do 3 left. right. by destruct (message error).
    + do 2 left. by right.
    + left. by right.
    + right. rewrite !toLowerCase_app, Hword. by eauto.
Qed.

(** *** The time spent retrying *)

Lemma fetchWithRetry_delays {T} (fn : nat → Outcome T) :
  let run := fetchWithRetry fn in
  ∃ n, (n ≤ 5)%nat ∧ calls run = S n
    ∧ delays run = take n [2000; 4000; 8000; 16000; 32000].
Proof.
  intros run.
  destruct (fetchWithRetry_from_spec fn 0%nat 5%nat 2000)
    as (Hle & Hcalls & Hdelays & _).
  fold (fetchWithRetry fn) in Hle, Hcalls, Hdelays. fold run in Hle, Hcalls, Hdelays.
  exists (length (delays run)). split; [exact Hle|]. split; [exact Hcalls|].
  rewrite Hdelays.
  assert (Hn : (length (delays run) = 0 ∨ length (delays run) = 1
                ∨ length (delays run) = 2 ∨ length (delays run) = 3
                ∨ length (delays run) = 4 ∨ length (delays run) = 5)%nat) by lia.
  destruct Hn as [->|[->|[->|[->|[->| ->]]]]]; reflexivity.
Qed.

(** A request wrapped by [fetchWithRetry] sleeps 62 seconds at most, in
    all; it sleeps that long exactly when it used all six calls, and not
    at all when the first call succeeds or fails with another error than
    a quota error. *)
Theorem fetchWithRetry_total_delay {T} (fn : nat → Outcome T) :
  let run := fetchWithRetry fn in
  0 ≤ totalDelay run ≤ 62000
  ∧ (totalDelay run = 62000 ↔ calls run = 6%nat)
  ∧ (totalDelay run = 0 ↔ calls run = 1%nat)
  ∧ (∀ v, fn 0%nat = Resolved v → totalDelay run = 0)
  ∧ (∀ e, fn 0%nat = Rejected e → isQuotaError e = false →
       totalDelay run = 0).
Proof.
  intros run.
  destruct (fetchWithRetry_delays fn) as (n & Hn & Hcalls & Hdelays).
  fold run in Hcalls, Hdelays.
  unfold totalDelay. rewrite Hdelays, Hcalls.
  assert (Hcases : (n = 0 ∨ n = 1 ∨ n = 2 ∨ n = 3 ∨ n = 4 ∨ n = 5)%nat) by lia.
  split; [|split; [|split; [|split]]].
  - destruct Hcases as [->|[->|[->|[->|[->| ->]]]]]; simpl; lia.
  - destruct Hcases as [->|[->|[->|[->|[->| ->]]]]]; simpl; split; lia.
  - destruct Hcases as [->|[->|[->|[->|[->| ->]]]]]; simpl; split; lia.
  - intros v Hv. subst run. unfold fetchWithRetry in Hdelays.
    cbn [fetchWithRetry_from] in Hdelays. rewrite Hv in Hdelays.
    simpl in Hdelays. by rewrite <- Hdelays.
  - intros e He Hq. subst run. unfold fetchWithRetry in Hdelays.
    cbn [fetchWithRetry_from] in Hdelays. rewrite He, Hq in Hdelays.
    simpl in Hdelays. by rewrite <- Hdelays.
Qed.

End QuotaErrors.

(* ===================================================================== *)
(** ** The machine between the claims *)
(* ===================================================================== *)

Section MachineInvariants.
Implicit Types (r : UI) (s : State) (e : Event).

(** *** The fallback of [handleFinishWillingly] *)

Lemma dispatch_autoAdvanceRef e s :
  feedbackTurns s → autoAdvanceRef (refs s) = false →
  autoAdvanceRef (refs (dispatch e s)) = false.
Proof.
  intros Hturns Hauto.
  destruct e; handlers; cases; try done.
  all: match goal with
       | H : currentFeedback _ = None |- _ => apply Hturns in H; lia
       end.
Qed.

Lemma step_autoAdvanceRef s e :
  feedbackTurns s → autoAdvanceRef (refs s) = false →
  autoAdvanceRef (refs (step s e)) = false.
Proof.
  intros Hturns Hauto. rewrite step_eq. simpl.
  unfold attachRefs. case_decide; simpl;
    rewrite commit_autoAdvanceRef; by apply dispatch_autoAdvanceRef.
Qed.

Lemma reachable_autoAdvanceRef s : reachable s → autoAdvanceRef (refs s) = false.
Proof.
  induction 1 as [p Hp|s e Hs IH]; [done|].
  apply step_autoAdvanceRef; [|done].
  by destruct (reachable_invariant s Hs) as (_ & _ & ? & _).
Qed.

Lemma mounted_fullExam : mounted fullExam.
Proof. split; [by left|done]. Qed.

Lemma reachable_fullExam es : reachable (run (init fullExam) es).
Proof. apply reachable_run. constructor. apply mounted_fullExam. Qed.

(** The fallback branch of [handleFinishWillingly] (no record received
    yet) is never taken: where the finish button is rendered a record has
    been received, so [autoAdvanceRef] is never set and a submission ends
    the part only on the service's signal or at the cap. *)
Theorem finish_fallback_is_never_taken s :
  reachable s →
  autoAdvanceRef (refs s) = false
  ∧ (finishButton s = true → is_Some (currentFeedback (ui s))).
Proof.
  intros Hreach. split; [by apply reachable_autoAdvanceRef|].
  intros Hb%finishButton_turns.
  destruct (reachable_invariant s Hreach) as (_ & _ & Hturns & _).
  destruct (currentFeedback (ui s)) as [fb|] eqn:Hfb; [by eexists|].
  apply Hturns in Hfb. lia.
Qed.

Lemma finish_fallback_witness :
  let s := run (init fullExam) followUpPlaying in
  autoAdvanceRef (refs s) = false
  ∧ is_Some (currentFeedback (ui (step s (SynthResolved 1 FALLBACK_HANDLED)))).
Proof.
  intros s.
  destruct (finish_fallback_is_never_taken s
              (reachable_fullExam followUpPlaying)) as [Hauto _].
  split; [exact Hauto|].
  assert (Hb : finishButton (step s (SynthResolved 1 FALLBACK_HANDLED)) = true)
    by (vm_compute; reflexivity).
  assert (Hreach : reachable (step s (SynthResolved 1 FALLBACK_HANDLED)))
    by exact (reachable_step _ _ (reachable_fullExam followUpPlaying)).
  clearbody s.
  exact (proj2 (finish_fallback_is_never_taken _ Hreach) Hb).
Defined.

(** Below the cap, a service that asks to continue gets its follow-up: the
    counter and the current record are updated, nothing is written into
    the results history, and the reply is shown and spoken. *)
Theorem continue_below_cap_asks_follow_up s i r nextTurn result :
  reachable s →
  tasks s !! i = Some (Submission r nextTurn) →
  moveNext result = false →
  nextTurn < 3 →
  let s' := step s (EvalResolved i result) in
  turnCountRef (refs s') = nextTurn
  ∧ currentFeedback (ui s') = Some (feedback result)
  ∧ resultsHistory (ui s') = resultsHistory (ui s)
  ∧ aiMessage (ui s') = reply result
  ∧ status (ui s') = AI_SPEAKING
  ∧ tasks s' = delete i (tasks s) ++ [Synth r].
Proof.
  intros Hreach Htask Hcontinue Hcap s'.
  assert (Hs1 : dispatch (EvalResolved i result) s
    = playAiAudio r (setAiMessage (reply result)
        (setCurrentFeedback (Some (feedback result))
           (set_turnCountRef nextTurn (settle i s))))).
  { rewrite (dispatch_EvalResolved _ _ _ _ _ Htask).
    unfold handleSubmission_resolved. rewrite Hcontinue. simpl.
    rewrite (reachable_autoAdvanceRef s Hreach).
    by rewrite bool_decide_eq_false_2 by lia. }
  subst s'. rewrite step_idle; rewrite Hs1; [|by apply expires_status|done].
  rewrite !attachRefs_ui, !attachRefs_turnCountRef, !attachRefs_tasks. done.
Qed.

Lemma continue_below_cap_witness :
  let s := run (init fullExam) firstAnswerSubmitted in
  let s' := step s (EvalResolved 1 continueResult) in
  (∃ r, tasks s !! 1%nat = Some (Submission r 1))
  ∧ turnCountRef (refs s') = 1
  ∧ resultsHistory (ui s') = resultsHistory (ui s)
  ∧ status (ui s') = AI_SPEAKING.
Proof.
  intros s s'.
  assert (Htask : ∃ r, tasks s !! 1%nat = Some (Submission r 1))
    by (eexists; vm_compute; reflexivity).
  destruct Htask as [r Htask].
  assert (Hreach : reachable s)
    by exact (reachable_fullExam firstAnswerSubmitted).
  subst s'. clearbody s.
  destruct (continue_below_cap_asks_follow_up s 1%nat r 1 continueResult
              Hreach Htask eq_refl ltac:(lia)) as (H1 & _ & H3 & _ & H5 & _).
  exact (conj (ex_intro _ r Htask) (conj H1 (conj H3 H5))).
Defined.

(** *** The first turn of a part *)

(** When the first prompt of a part has been played: in the introduction
    the machine enters [USER_SPEAKING] with a countdown of 120 seconds and
    asks for the microphone; in the other parts it enters [USER_PREP] with
    a countdown of 60 seconds and asks for nothing yet. *)
Theorem first_prompt_starts_countdown s e r :
  reachable s →
  firstPromptCompletes s e r →
  let s' := step s e in
  (part r = INTRO →
     status (ui s') = USER_SPEAKING
     ∧ timeLeft (ui s') = 120 ∧ totalTime (ui s') = 120
     ∧ isNewPartRef (refs s') = false
     ∧ last (tasks s') = Some (MicRequest r))
  ∧ (part r ≠ INTRO →
       status (ui s') = USER_PREP
       ∧ timeLeft (ui s') = 60 ∧ totalTime (ui s') = 60
       ∧ isNewPartRef (refs s') = true
       ∧ Forall (λ t, t ∈ tasks s) (tasks s')).
Proof.
  intros Hreach [Hplay Hnew] s'.
  destruct (playbackCompletes_closureOk s e r (reachable_wellFormed s Hreach)
              Hplay) as (Hc & Hpc & Hpart).
  assert (Hs1 : ∃ s0, ui s0 = ui s ∧ isNewPartRef (refs s0) = true
            ∧ Forall (λ t, t ∈ tasks s) (tasks s0)
            ∧ dispatch e s = handleAiFinishedSpeaking r s0).
  { destruct Hplay as [(i & -> & Htask)|[(i & -> & Htask)|(-> & Hended)]].
    - exists (settle i s). simpl. rewrite Htask.
      repeat split; [done..|]. by apply Forall_delete, Forall_forall.
    - exists (settle i s). simpl. rewrite Htask.
      repeat split; [done..|]. by apply Forall_delete, Forall_forall.
    - exists (set_audioOnEnded None s). simpl. rewrite Hended.
      repeat split; [done..|]. by apply Forall_forall. }
  destruct Hs1 as (s0 & Hui & Hnew0 & Htasks & Hs1).
  assert (Hnc : ¬ (status r = COMPLETED ∨ status r = PART_COMPLETED))
    by (intros [?|?]; done).
  subst s'. split.
  - intros Hintro.
    assert (Hs2 : dispatch e s
      = startRecording r (set_isNewPartRef false (setTotalTime 120
          (setTimeLeft (λ _, 120) (setStatus USER_SPEAKING s0))))).
    { rewrite Hs1. unfold handleAiFinishedSpeaking.
      rewrite decide_False by done. rewrite decide_True by done.
      simpl. by rewrite Hnew0. }
    rewrite step_idle; rewrite Hs2; simpl; rewrite ?Hui.
    + rewrite !attachRefs_ui, !attachRefs_tasks, !attachRefs_isNewPartRef.
      simpl. by rewrite last_snoc.
    + by apply expires_running.
    + done.
  - intros Hintro.
    assert (Hs2 : dispatch e s
      = setTotalTime 60 (setTimeLeft (λ _, 60) (setStatus USER_PREP s0))).
    { rewrite Hs1. unfold handleAiFinishedSpeaking.
      rewrite decide_False by done. rewrite decide_False by done.
      rewrite decide_True by (destruct Hpart as [?|?]; [done|auto]).
      by rewrite Hnew0. }
    rewrite step_idle; rewrite Hs2; simpl; rewrite ?Hui.
    + rewrite !attachRefs_ui, !attachRefs_tasks, !attachRefs_isNewPartRef.
      simpl. by rewrite Hnew0.
    + by apply expires_running.
    + done.
Qed.

Lemma first_prompt_witness :
  let s := run (init fullExam) welcomePlaying in
  let s' := step s (SynthResolved 1 FALLBACK_HANDLED) in
  isNewPartRef (refs s) = true
  ∧ status (ui s') = USER_SPEAKING
  ∧ timeLeft (ui s') = 120 ∧ totalTime (ui s') = 120
  ∧ isNewPartRef (refs s') = false.
Proof.
  intros s s'.
  assert (Htask : ∃ r, tasks s !! 1%nat = Some (Synth r) ∧ part r = INTRO)
    by (eexists; vm_compute; split; reflexivity).
  destruct Htask as (r & Htask & Hpart).
  assert (Hnew : isNewPartRef (refs s) = true) by (vm_compute; reflexivity).
  assert (Hreach : reachable s) by exact (reachable_fullExam welcomePlaying).
  subst s'. clearbody s.
  assert (Hplay : firstPromptCompletes s (SynthResolved 1 FALLBACK_HANDLED) r).
  { split; [|exact Hnew]. left. exists 1%nat. split; [reflexivity|exact Htask]. }
  destruct (first_prompt_starts_countdown s _ r Hreach Hplay) as [Hintro _].
  destruct (Hintro Hpart) as (H1 & H2 & H3 & H4 & _).
  exact (conj Hnew (conj H1 (conj H2 (conj H3 H4)))).
Defined.

(** *** Before the start, and from part to part *)

Lemma dispatch_before_start e s :
  wellFormed s → hasStarted (ui s) = false → e ≠ ClickStartExam →
  ui (dispatch e s) = ui s.
Proof.
  intros (_ & _ & _ & _ & Hbefore & _) Hs He.
  destruct (Hbefore Hs) as (Hidle & Hall & Hnone).
  pose proof (screen_start _ Hs) as Hscreen.
  unfold shouldRunTimer in *.
  destruct e; try done; handlers; rewrite ?Hscreen, ?Hidle, ?Hnone;
    try done; try (by case_bool_decide);
    try match goal with
    | |- context [tasks s !! ?i] =>
        destruct (tasks s !! i) as [t|] eqn:Hi; [|done];
        pose proof (Forall_lookup_1 _ _ _ _ Hall Hi) as ->
    end; try done; try (by case_match).
  unfold shouldRunTimer. by rewrite Hidle.
Qed.

(** Until [Start Exam] is clicked nothing that happens changes what is
    shown: the machine stays idle on the start screen, whatever arrives
    (the prefetched welcome included). *)
Theorem nothing_shows_before_start s e :
  reachable s → hasStarted (ui s) = false → e ≠ ClickStartExam →
  ui (step s e) = ui s
  ∧ status (ui s) = IDLE
  ∧ screen (ui (step s e)) = StartScreen.
Proof.
  intros Hreach Hs He.
  pose proof (reachable_wellFormed s Hreach) as Hwf.
  pose proof (dispatch_before_start e s Hwf Hs He) as Hui.
  assert (Hstep : ui (step s e) = ui s).
  { rewrite step_eq. simpl. rewrite attachRefs_ui.
    rewrite commit_same_deps by (by rewrite Hui).
    by rewrite attachRefs_ui. }
  split; [exact Hstep|]. split.
  - by destruct Hwf as (_ & _ & _ & _ & Hbefore & _); destruct (Hbefore Hs).
  - rewrite Hstep. by apply screen_start.
Qed.

Lemma nothing_shows_before_start_witness :
  let s := init fullExam in
  ui (step s (PrefetchResolved 0 AudioUrl)) = ui s
  ∧ introAudioUrlRef (refs (step s (PrefetchResolved 0 AudioUrl))) = true.
Proof.
  intros s.
  destruct (nothing_shows_before_start s (PrefetchResolved 0 AudioUrl))
    as (Hui & _); [by apply reachable_init, mounted_fullExam|done|done|].
  split; [exact Hui|]. vm_compute. reflexivity.
Defined.

(** The part changes only by [Continue] on the summary of a part of the
    full exam, and then by one; a part practised on its own never changes
    part. *)
Theorem part_advances_only_by_continue s e :
  part (ui (step s e)) = part (ui s)
  ∨ (e = ClickContinue
     ∧ screen (ui s) = SummaryScreen
     ∧ isStandalone (props s) = false
     ∧ part (ui s) ≠ DISCUSSION
     ∧ part (ui (step s e)) = (part (ui s) + 1)%N).
Proof.
  rewrite step_part_dispatch.
  destruct e; handlers; cases; auto.
  - by rewrite orb_true_r in *.
  - right. by destruct (isStandalone (props s)).
Qed.

(** *** From the recording to the submission *)

(** [Submit Answer], shown while a recording runs, always finds the
    recorder running: it stops it, which schedules the recorder's [stop]
    event exactly once, and the machine waits in [PROCESSING]. *)
Theorem submit_answer_stops_recorder s :
  reachable s → isRecording (ui s) = true → screen (ui s) = MainScreen →
  ∃ rec, mediaRecorderRef (refs s) = Some rec
    ∧ recording rec = true
    ∧ let s' := step s ClickSubmitAnswer in
      status (ui s') = PROCESSING
      ∧ isRecording (ui s') = false
      ∧ tasks s' = tasks s ++ [StopEvent (onstop rec)]
      ∧ mediaRecorderRef (refs s')
        = Some {| recording := false; onstop := onstop rec |}.
Proof.
  intros Hreach Hrec Hscreen.
  destruct (reachable_wellFormed s Hreach) as (_ & _ & _ & _ & _ & Hon).
  destruct (Hon Hrec) as (rec & Href & Hrunning).
  exists rec. split; [done|]. split; [done|]. intros s'.
  assert (Hs1 : dispatch ClickSubmitAnswer s
            = setStatus PROCESSING (setIsRecording false (stopped rec s))).
  { simpl. rewrite Hscreen, Hrec. simpl.
    unfold stopRecording, stop. by rewrite Href, Hrec, Hrunning. }
  subst s'. rewrite step_idle; rewrite Hs1; [|by apply expires_status|done].
  by rewrite !attachRefs_ui, !attachRefs_tasks, !attachRefs_mediaRecorderRef.
Qed.

Lemma submit_answer_witness :
  let s := run (init fullExam) firstAnswerRecording in
  isRecording (ui s) = true
  ∧ status (ui (step s ClickSubmitAnswer)) = PROCESSING
  ∧ length (tasks (step s ClickSubmitAnswer)) = S (length (tasks s)).
Proof.
  intros s.
  assert (Hrec : isRecording (ui s) = true) by (vm_compute; reflexivity).
  assert (Hscreen : screen (ui s) = MainScreen) by (vm_compute; reflexivity).
  assert (Hreach : reachable s)
    by exact (reachable_fullExam firstAnswerRecording).
  clearbody s.
  destruct (submit_answer_stops_recorder s Hreach Hrec Hscreen)
    as (rec & _ & _ & H1 & _ & H3 & _).
  split; [exact Hrec|]. split; [exact H1|].
  rewrite H3, length_app. simpl. lia.
Defined.

(** The [stop] event of the recorder submits the recording: one
    evaluation is started, for the turn after the current one, and
    nothing shown changes but the error banner, which is cleared. *)
Theorem recorder_stop_submits s i r :
  tasks s !! i = Some (StopEvent r) →
  let s' := step s (RecorderStopped i) in
  tasks s' = delete i (tasks s) ++ [Submission r (turnCountRef (refs s) + 1)]
  ∧ turnCountRef (refs s') = turnCountRef (refs s)
  ∧ quotaError (ui s') = false
  ∧ status (ui s') = status (ui s)
  ∧ resultsHistory (ui s') = resultsHistory (ui s)
  ∧ timeLeft (ui s') = timeLeft (ui s).
Proof.
  intros Htask s'.
  assert (Hs1 : dispatch (RecorderStopped i) s
            = handleSubmission r (settle i s)) by (simpl; by rewrite Htask).
  subst s'. rewrite step_eq, Hs1. simpl.
  rewrite commit_same_deps by done.
  by rewrite !attachRefs_ui, !attachRefs_tasks, !attachRefs_turnCountRef.
Qed.

Lemma recorder_stop_witness :
  let s := run (init fullExam)
             (firstAnswerRecording ++ [Tick; Tick; ClickSubmitAnswer]) in
  ∃ r, tasks s !! 1%nat = Some (StopEvent r)
    ∧ last (tasks (step s (RecorderStopped 1))) = Some (Submission r 1).
Proof.
  intros s.
  assert (Htask : ∃ r, tasks s !! 1%nat = Some (StopEvent r))
    by (eexists; vm_compute; reflexivity).
  destruct Htask as [r Htask].
  assert (Hturn : turnCountRef (refs s) = 0) by (vm_compute; reflexivity).
  clearbody s. exists r. split; [exact Htask|].
  destruct (recorder_stop_submits s 1%nat r Htask) as (H1 & _).
  rewrite H1, Hturn. apply last_snoc.
Defined.

(** *** The results history *)

Lemma dispatch_historyKeys e s :
  wellFormed s → historyKeys s → historyKeys (dispatch e s).
Proof.
  intros (Hpart & Htasks & _) Hkeys.
  assert (Hlook : ∀ i t, tasks s !! i = Some t → taskOk t)
    by (intros i t; apply Forall_lookup_1, Htasks).
  assert (Hins : ∀ (q : ExamPart) fb p,
            (q = INTRO ∨ q = PICTURE ∨ q = DISCUSSION) →
            is_Some (<[q := fb]> (resultsHistory (ui s)) !! p) →
            p = INTRO ∨ p = PICTURE ∨ p = DISCUSSION).
  { intros q fb p Hq Hp. destruct (decide (q = p)) as [<-|Hne]; [done|].
    rewrite lookup_insert_ne in Hp by done. by apply Hkeys. }
  unfold historyKeys.
  destruct e; handlers; cases; try done.
  all: try (intros p; by apply Hins).
  all: match goal with
       | H : tasks _ !! _ = Some _ |- _ =>
           apply Hlook in H; destruct H as (_ & _ & H)
       end.
  all: intros p; by apply Hins.
Qed.

Lemma reachable_historyKeys s : reachable s → historyKeys s.
Proof.
  induction 1 as [p Hp|s e Hs IH].
  - intros q [fb Hq]. simpl in Hq. by rewrite lookup_empty in Hq.
  - unfold historyKeys. rewrite step_resultsHistory.
    apply dispatch_historyKeys; [by apply reachable_wellFormed|done].
Qed.

Lemma run_history_grows s es p :
  is_Some (resultsHistory (ui s) !! p) →
  is_Some (resultsHistory (ui (run s es)) !! p).
Proof.
  revert s. induction es as [|e es IH]; intros s Hp; [done|].
  simpl. apply IH. rewrite step_resultsHistory.
  destruct (dispatch_resultsHistory e s) as [->|(q & fb & ->)]; [done|].
  destruct (decide (q = p)) as [->|Hne].
  - rewrite lookup_insert_eq. by eexists.
  - by rewrite lookup_insert_ne.
Qed.

(** The results history holds records of the three parts only, and a
    part that has a record keeps one, whatever happens next (the record
    itself may be replaced). *)
Theorem results_history_keys s :
  reachable s →
  (∀ p, is_Some (resultsHistory (ui s) !! p) →
     p = INTRO ∨ p = PICTURE ∨ p = DISCUSSION)
  ∧ (∀ es p, is_Some (resultsHistory (ui s) !! p) →
       is_Some (resultsHistory (ui (run s es)) !! p)).
Proof.
  intros Hreach. split; [by apply reachable_historyKeys|].
  intros es p. apply run_history_grows.
Qed.

Lemma results_history_keys_witness :
  let s := run (init fullExam) introductionCompleted in
  is_Some (resultsHistory (ui s) !! INTRO)
  ∧ is_Some (resultsHistory (ui (run s [ClickContinue; TopicResolved 0 "a vs b"]))
             !! INTRO).
Proof.
  intros s.
  assert (H : is_Some (resultsHistory (ui s) !! INTRO))
    by (eexists; vm_compute; reflexivity).
  assert (Hreach : reachable s)
    by exact (reachable_fullExam introductionCompleted).
  clearbody s.
  destruct (results_history_keys s Hreach) as [_ Hgrow].
  exact (conj H (Hgrow _ _ H)).
Defined.

Lemma skip_completes_part_witness :
  let s := run (init fullExam) firstAnswerRecording in
  skipButton s = true
  ∧ status (ui (step s ClickSkip)) = PART_COMPLETED
  ∧ resultsHistory (ui (step s ClickSkip))
    = <[part (ui s) := skippedFeedback]> (resultsHistory (ui s)).
Proof.
  intros s.
  assert (Hb : skipButton s = true) by (vm_compute; reflexivity).
  assert (Hreach : reachable s)
    by exact (reachable_fullExam firstAnswerRecording).
  clearbody s.
  destruct (skip_completes_part s Hreach Hb) as (H1 & H2 & _).
  exact (conj Hb (conj H1 H2)).
Defined.

End MachineInvariants.

Section ResultsScreen.
Import ResultsScreen.
#[local] Open Scope Q_scope.

(** The exact sum of one sub-score over a list of records. *)
Lemma exactSum_columns (fs : list FeedbackData) :
  subscoresSum fs
  == exactSum (taskAchievementScore <$> fs)
     + exactSum (pronunciationScore <$> fs)
     + exactSum (grammarScore <$> fs)
     + exactSum (fluencyCoherenceScore <$> fs).
Proof.
  induction fs as [|f fs IH]; [reflexivity|].
  change (partScore f + subscoresSum fs
          == (exact (taskAchievementScore f)
              + exactSum (taskAchievementScore <$> fs))
             + (exact (pronunciationScore f)
                + exactSum (pronunciationScore <$> fs))
             + (exact (grammarScore f) + exactSum (grammarScore <$> fs))
             + (exact (fluencyCoherenceScore f)
                + exactSum (fluencyCoherenceScore <$> fs))).
  rewrite IH.
  change (partScore f)
    with (exact (taskAchievementScore f)
          + (exact (pronunciationScore f)
             + (exact (grammarScore f)
                + (exact (fluencyCoherenceScore f) + 0)))).
  ring.
Qed.

Lemma foldl_score (score : FeedbackData → Number.number)
    (fs : list FeedbackData) (acc : Number.number) :
  foldl (λ a b, Number.add a (score b)) acc fs
  = foldl Number.add acc (score <$> fs).
Proof. revert acc. induction fs as [|f fs IH]; intros acc; [done|apply IH]. Qed.

(** One bar of the breakdown, for records graded on the grid: the number
    of the exact sum of its sub-score. *)
Lemma statBar_exact (score : FeedbackData → Number.number) (u : UI) :
  (∀ f, graded f → onGrid (score f)) → gradedHistory u →
  exact (statBar score u)
  == exactSum (score <$> Object_values (resultsHistory u)).
Proof.
  intros Hscore Hg. destruct (gradedHistory_values u Hg) as [Hlen Hgraded].
  unfold statBar. rewrite foldl_score.
  destruct (foldl_add_onGrid (score <$> Object_values (resultsHistory u)))
    as (k & -> & Hb & Hsum).
  - apply Forall_fmap. eapply Forall_impl; [exact Hgraded|]. exact Hscore.
  - rewrite length_fmap. lia.
  - by rewrite exact_halves.
Qed.

(** On the results screen, when the records are graded in whole and half
    points from 0 to 10, the four bars of the performance breakdown add
    up to the headline total: no addition of either rounds. *)
Theorem stat_bars_sum_to_total (u : UI) :
  gradedHistory u →
  exact (statBar taskAchievementScore u)
  + exact (statBar pronunciationScore u)
  + exact (statBar grammarScore u)
  + exact (statBar fluencyCoherenceScore u)
  == exact (calculateTotalScore u).
Proof.
  intros Hg.
  rewrite (calculateTotalScore_exact u Hg).
  rewrite <- (subscoresSum_Permutation _ _ (Object_values_Permutation _)).
  rewrite exactSum_columns.
  assert (Hcolumns : ∀ f, graded f →
            onGrid (taskAchievementScore f) ∧ onGrid (pronunciationScore f)
            ∧ onGrid (grammarScore f) ∧ onGrid (fluencyCoherenceScore f)).
  { intros f Hf. unfold graded, subscores in Hf.
    apply Forall_cons in Hf as [H1 Hf]. apply Forall_cons in Hf as [H2 Hf].
    apply Forall_cons in Hf as [H3 Hf]. apply Forall_cons in Hf as [H4 _].
    done. }
  rewrite (statBar_exact taskAchievementScore u)
    by (done || intros f Hf; apply (Hcolumns f Hf)).
  rewrite (statBar_exact pronunciationScore u)
    by (done || intros f Hf; apply (Hcolumns f Hf)).
  rewrite (statBar_exact grammarScore u)
    by (done || intros f Hf; apply (Hcolumns f Hf)).
  rewrite (statBar_exact fluencyCoherenceScore u)
    by (done || intros f Hf; apply (Hcolumns f Hf)).
  reflexivity.
Qed.

Lemma stat_bars_witness :
  gradedHistory reportExample
  ∧ exact (statBar grammarScore reportExample) == 20
  ∧ exact (statBar taskAchievementScore reportExample)
    + exact (statBar pronunciationScore reportExample)
    + exact (statBar grammarScore reportExample)
    + exact (statBar fluencyCoherenceScore reportExample)
    == exact (calculateTotalScore reportExample).
Proof.
  pose proof reportExample_graded as Hg.
  split; [exact Hg|]. split; [vm_compute; reflexivity|].
  exact (stat_bars_sum_to_total reportExample Hg).
Defined.

Lemma subscoresSum_three (m : gmap N FeedbackData) :
  (∀ p, is_Some (m !! p) → p = INTRO ∨ p = PICTURE ∨ p = DISCUSSION) →
  subscoresSum (map_to_list m).*2
  == from_option partScore 0 (m !! 1%N) + from_option partScore 0 (m !! 2%N)
     + from_option partScore 0 (m !! 3%N).
Proof.
  induction m as [|i x m Hi IH] using map_ind; intros Hkeys.
  - rewrite map_to_list_empty, !lookup_empty. simpl. ring.
  - rewrite (subscoresSum_Permutation _ ((i, x) :: map_to_list m).*2)
      by (apply fmap_Permutation, map_to_list_insert, Hi).
    cbn [fmap list_fmap subscoresSum foldr snd].
    fold (subscoresSum (map_to_list m).*2).
    rewrite IH.
    + destruct (Hkeys i) as [->|[->| ->]];
        [rewrite lookup_insert_eq; by eexists|..];
        unfold INTRO, PICTURE, DISCUSSION in *;
        rewrite lookup_insert_eq, !lookup_insert_ne, Hi by done;
        cbn [from_option]; ring.
    + intros p Hp. apply Hkeys.
      destruct (decide (i = p)) as [->|Hne].
      * rewrite lookup_insert_eq. by eexists.
      * by rewrite lookup_insert_ne.
Qed.

(** The score of a part card, for a record graded on the grid: the number
    of the exact sum of its four sub-scores. *)
Lemma pScore_exact (res : FeedbackData) :
  graded res → exact (pScore res) == partScore res.
Proof.
  intros Hres. unfold partScore.
  destruct (onGrid_halves _ Hres) as (ks & Hks & Hb).
  destruct ks as [|k1 [|k2 [|k3 [|k4 [|? ?]]]]]; try done.
  rewrite Hks, exactSum_halves by done.
  unfold subscores in Hks. injection Hks as Hta Hpr Hgr Hfl.
  unfold pScore. rewrite Hta, Hpr, Hgr, Hfl.
  apply Forall_cons in Hb as [H1 Hb].
  destruct (foldl_add_halves [k2; k3; k4] k1) as [Hsum _];
    [lia|done|simpl; lia|].
  cbn [fmap list_fmap foldl] in Hsum. rewrite Hsum.
  repeat match goal with
         | H : Forall _ (_ :: _) |- _ => apply Forall_cons in H as [? H]
         end.
  rewrite exact_halves by (unfold total; simpl; lia).
  unfold total. simpl. reflexivity.
Qed.

(** On the results screen, when the records are graded in whole and half
    points from 0 to 10, the scores of the part cards add up to the
    headline total: no addition of either rounds, and the results history
    holds no record but those of the three parts.  The maxima of the cards
    add up to 100. *)
Theorem part_cards_sum_to_total (u : UI) :
  gradedHistory u →
  cardsTotal (partCards u) == exact (calculateTotalScore u)
  ∧ (pMax 1 + pMax 2 + pMax 3 = 100)%Z.
Proof.
  intros Hg. split; [|done].
  rewrite (calculateTotalScore_exact u Hg).
  rewrite subscoresSum_three by (intros p [f Hf]; by destruct (Hg p f Hf)).
  unfold partCards, cardsTotal. cbn [fmap list_fmap foldr].
  pose proof (λ p f H, proj2 (Hg p f H)) as Hgraded.
  destruct (resultsHistory u !! 1%N) as [f1|] eqn:H1,
    (resultsHistory u !! 2%N) as [f2|] eqn:H2,
    (resultsHistory u !! 3%N) as [f3|] eqn:H3;
    cbn [from_option];
    rewrite ?(pScore_exact f1) by eauto;
    rewrite ?(pScore_exact f2) by eauto;
    rewrite ?(pScore_exact f3) by eauto; ring.
Qed.

Lemma part_cards_witness :
  gradedHistory reportExample
  ∧ cardsTotal (partCards reportExample) == 81
  ∧ cardsTotal (partCards reportExample)
    == exact (calculateTotalScore reportExample).
Proof.
  pose proof reportExample_graded as Hg.
  split; [exact Hg|]. split; [vm_compute; reflexivity|].
  exact (proj1 (part_cards_sum_to_total reportExample Hg)).
Defined.

End ResultsScreen.

(* ===================================================================== *)
(** ** The timer and the audio level *)
(* ===================================================================== *)

Section TimerView.
Import Timer.

Lemma seconds_two_digits (sec : Z) :
  0 ≤ sec < 60 → String.length (padStart 2 "0" (pretty sec)) = 2%nat.
Proof.
  intros Hsec. rewrite <- (Z2Nat.id sec) by lia.
  assert (Hn : Z.to_nat sec ∈ seq 0 60) by (apply elem_of_seq; lia).
  revert Hn. generalize (Z.to_nat sec). intros n Hn.
  assert (H : forallb
            (λ n, Nat.eqb (String.length (padStart 2 "0" (pretty (Z.of_nat n)))) 2)
            (seq 0 60) = true) by (vm_compute; reflexivity).
  rewrite forallb_forall in H. apply list_elem_of_In, H in Hn.
  by apply Nat.eqb_eq in Hn.
Qed.

(** For a time that is not negative the ring shows minutes and seconds
    that make up the time, the seconds below 60 and always with two
    digits. *)
Theorem timer_clock (currentTime : Z) :
  0 ≤ currentTime →
  minutes currentTime * 60 + seconds currentTime = currentTime
  ∧ 0 ≤ seconds currentTime < 60
  ∧ 0 ≤ minutes currentTime
  ∧ String.length (padStart 2 "0" (pretty (seconds currentTime))) = 2%nat.
Proof.
  intros Ht. unfold minutes, seconds.
  rewrite Z.rem_mod_nonneg by lia.
  pose proof (Z.mod_pos_bound currentTime 60 eq_refl) as Hm.
  pose proof (Z.div_mod currentTime 60) as Hd.
  assert (0 ≤ currentTime / 60) by (apply Z.div_pos; lia).
  split; [lia|]. split; [lia|]. split; [lia|].
  by apply seconds_two_digits.
Qed.

Lemma timer_clock_witness :
  minutes 119 * 60 + seconds 119 = 119 ∧ clock 119 = "1:59" ∧ clock 60 = "1:00".
Proof.
  destruct (timer_clock 119) as (H & _); [lia|].
  split; [exact H|]. split; vm_compute; reflexivity.
Defined.

Lemma progress_bounds (currentTime totalTime : Z) :
  0 ≤ currentTime ≤ totalTime →
  (0 <= progress currentTime totalTime)%Q
  ∧ (progress currentTime totalTime <= 100)%Q.
Proof.
  intros Ht. unfold progress. case_decide as Hpos; [|done].
  destruct totalTime as [|p|p]; [lia| |lia].
  unfold Qle, Qdiv, Qmult, Qinv, inject_Z. simpl. split; nia.
Qed.

(** With the time within its total the ring is between empty and full:
    the progress is a percentage, 0 at the start and 100 when the time is
    up; and a total of 0 gives 0, not a division by zero. *)
Theorem timer_progress (currentTime totalTime : Z) :
  0 ≤ currentTime ≤ totalTime →
  (0 <= progress currentTime totalTime)%Q
  ∧ (progress currentTime totalTime <= 100)%Q
  ∧ (0 < totalTime →
       (progress totalTime totalTime == 0)%Q
       ∧ (progress 0 totalTime == 100)%Q)
  ∧ progress currentTime 0 = 0%Q.
Proof.
  intros Ht.
  destruct (progress_bounds currentTime totalTime Ht) as [H0 H100].
  split; [exact H0|]. split; [exact H100|]. split; [|done].
  intros Hpos. unfold progress. rewrite !decide_True by done.
  destruct totalTime as [|p|p]; [lia| |lia].
  unfold Qeq, Qdiv, Qmult, Qinv, inject_Z. simpl. split; nia.
Qed.

Lemma timer_progress_witness :
  (0 <= progress 30 120)%Q ∧ (progress 30 120 == 75)%Q.
Proof.
  destruct (timer_progress 30 120) as (H & _); [lia|].
  split; [exact H|]. vm_compute. reflexivity.
Defined.

Lemma dispatch_totalTime e s :
  totalTime (ui s) = 0 ∨ totalTime (ui s) = 60 ∨ totalTime (ui s) = 120 →
  totalTime (ui (dispatch e s)) = 0 ∨ totalTime (ui (dispatch e s)) = 60
  ∨ totalTime (ui (dispatch e s)) = 120.
Proof. intros H. destruct e; handlers; cases; auto. Qed.

Lemma commit_totalTime prev s :
  totalTime (ui s) = 0 ∨ totalTime (ui s) = 60 ∨ totalTime (ui s) = 120 →
  totalTime (ui (commit prev s)) = 0 ∨ totalTime (ui (commit prev s)) = 60
  ∨ totalTime (ui (commit prev s)) = 120.
Proof.
  revert prev s.
  apply (commit_preserves
           (λ s, totalTime (ui s) = 0 ∨ totalTime (ui s) = 60
                 ∨ totalTime (ui s) = 120)); intros;
    unfold attachRefs in *; repeat autounfold with exam in *; cases; auto.
Qed.

Lemma reachable_totalTime s :
  reachable s →
  totalTime (ui s) = 0 ∨ totalTime (ui s) = 60 ∨ totalTime (ui s) = 120.
Proof.
  induction 1 as [p Hp|s e _ IH]; [by left|].
  unfold step. by apply commit_totalTime, commit_totalTime, dispatch_totalTime.
Qed.

(** In every state the exam can reach, the timer it renders gets a time
    within its total: the ring shows a percentage and the clock a time of
    day that is not negative. *)
Theorem exam_timer_is_well_formed s :
  reachable s →
  (0 <= progress (timeLeft (ui s)) (totalTime (ui s)))%Q
  ∧ (progress (timeLeft (ui s)) (totalTime (ui s)) <= 100)%Q
  ∧ 0 ≤ seconds (timeLeft (ui s)) < 60
  ∧ 0 ≤ minutes (timeLeft (ui s)) ≤ 2.
Proof.
  intros Hreach.
  destruct (reachable_invariant s Hreach) as (_ & Hbounds & _).
  destruct (progress_bounds _ _ Hbounds) as [H0 H100].
  split; [exact H0|]. split; [exact H100|].
  unfold timeBounds in Hbounds. unfold minutes, seconds.
  rewrite Z.rem_mod_nonneg by lia.
  pose proof (Z.mod_pos_bound (timeLeft (ui s)) 60 eq_refl).
  split; [lia|].
  assert (0 ≤ timeLeft (ui s) / 60) by (apply Z.div_pos; lia).
  pose proof (Z.div_mod (timeLeft (ui s)) 60).
  destruct (reachable_totalTime s Hreach) as [Ht|[Ht|Ht]]; lia.
Qed.

Lemma exam_timer_witness :
  let s := run (init fullExam) firstAnswerRecording in
  (timeLeft (ui s), totalTime (ui s)) = (120, 120)
  ∧ (progress (timeLeft (ui s)) (totalTime (ui s)) <= 100)%Q.
Proof.
  intros s.
  assert (Ht : (timeLeft (ui s), totalTime (ui s)) = (120, 120))
    by (vm_compute; reflexivity).
  assert (Hreach : reachable s)
    by exact (reachable_fullExam firstAnswerRecording).
  clearbody s.
  destruct (exam_timer_is_well_formed s Hreach) as (_ & H & _).
  exact (conj Ht H).
Defined.

End TimerView.

Section Glow.
Import AudioLevel.
#[local] Open Scope Q_scope.

Lemma Math_min_spec (a b : Q) :
  Math_min a b <= a ∧ Math_min a b <= b
  ∧ (Math_min a b == a ∨ Math_min a b == b).
Proof.
  unfold Math_min. destruct (Qle_bool a b) eqn:H.
  - apply Qle_bool_iff in H. split; [apply Qle_refl|]. split; [done|].
    left. reflexivity.
  - assert (Hlt : b < a).
    { apply Qnot_le_lt. intros Hle. apply Qle_bool_iff in Hle. congruence. }
    split; [by apply Qlt_le_weak|]. split; [apply Qle_refl|].
    right. reflexivity.
Qed.

Lemma Math_max_spec (a b : Q) :
  a <= Math_max a b ∧ b <= Math_max a b
  ∧ (Math_max a b == a ∨ Math_max a b == b).
Proof.
  unfold Math_max. destruct (Qle_bool a b) eqn:H.
  - apply Qle_bool_iff in H. split; [done|]. split; [apply Qle_refl|].
    right. reflexivity.
  - assert (Hlt : b < a).
    { apply Qnot_le_lt. intros Hle. apply Qle_bool_iff in Hle. congruence. }
    split; [apply Qle_refl|]. split; [by apply Qlt_le_weak|].
    left. reflexivity.
Qed.

Lemma sum_nonneg_from (dataArray : list Init.Byte.byte) (acc : Z) :
  (acc ≤ foldl (λ sum b, sum + Encoding.byteValue b) acc dataArray)%Z.
Proof.
  revert acc. induction dataArray as [|b l IH]; intros acc; simpl; [lia|].
  pose proof (byteValue_range b). specialize (IH (acc + Encoding.byteValue b)%Z).
  lia.
Qed.

(** The level of the analyser is a number between 0 and 1: the mean of
    the bins, divided by 50 and cut at 1. *)
Theorem audio_level_in_unit_interval (dataArray : list Init.Byte.byte) :
  dataArray ≠ [] →
  0 <= normalized dataArray ∧ normalized dataArray <= 1.
Proof.
  intros Hne. unfold normalized.
  destruct (Math_min_spec 1 (inject_Z (sum dataArray)
                             / inject_Z (Z.of_nat (length dataArray)) / 50))
    as (H1 & _ & Hcase).
  split; [|exact H1].
  assert (Hq : 0 <= inject_Z (sum dataArray)
                    / inject_Z (Z.of_nat (length dataArray)) / 50).
  { pose proof (sum_nonneg_from dataArray 0) as Hs. fold (sum dataArray) in Hs.
    destruct dataArray as [|b l]; [done|].
    generalize dependent (sum (b :: l)). intros n Hn.
    cbn [length]. rewrite Nat2Z.inj_succ.
    destruct (Z.succ (Z.of_nat (length l))) as [|p|p] eqn:Hp; [lia| |lia].
    unfold Qle, Qdiv, Qmult, Qinv, inject_Z. simpl. nia. }
  destruct Hcase as [-> | ->]; [done|exact Hq].
Qed.

Lemma audio_level_witness :
  0 <= normalized [Init.Byte.x64; Init.Byte.x00]
  ∧ normalized [Init.Byte.x64; Init.Byte.x00] == 1.
Proof.
  destruct (audio_level_in_unit_interval [Init.Byte.x64; Init.Byte.x00])
    as [H _]; [discriminate|].
  split; [exact H|]. vm_compute. reflexivity.
Defined.

(** With the numbers taken as exact ones: for a level between 0 and 1, as
    the analyser gives, every opacity of the glow lies between its value
    at rest and its full value, which is at most 1, and the blur radii
    stay between theirs; a level below a tenth glows as silence does. *)
Theorem glow_is_valid (level : Q) :
  0 <= level → level <= 1 →
  let glow := getDynamicGlow level in
  let rest := getDynamicGlow 0 in
  (alpha1 rest <= alpha1 glow ∧ alpha1 glow <= 8 # 10)
  ∧ (alpha2 rest <= alpha2 glow ∧ alpha2 glow <= 6 # 10)
  ∧ (alpha3 rest <= alpha3 glow ∧ alpha3 glow <= 4 # 10)
  ∧ (borderAlpha rest <= borderAlpha glow ∧ borderAlpha glow <= 1)
  ∧ (blur1 rest <= blur1 glow ∧ blur1 glow <= 50)
  ∧ (blur2 rest <= blur2 glow ∧ blur2 glow <= 55)
  ∧ (blur3 rest <= blur3 glow ∧ blur3 glow <= 60)
  ∧ (level <= 1 # 10 →
     alpha1 glow == alpha1 rest ∧ alpha2 glow == alpha2 rest
     ∧ alpha3 glow == alpha3 rest ∧ borderAlpha glow == borderAlpha rest
     ∧ blur1 glow == blur1 rest ∧ blur2 glow == blur2 rest
     ∧ blur3 glow == blur3 rest).
Proof.
  intros H0 H1 glow rest. subst glow rest. unfold getDynamicGlow.
  change (Math_max (1 # 10) 0) with (1 # 10).
  cbn [alpha1 alpha2 alpha3 borderAlpha blur1 blur2 blur3].
  destruct (Math_max_spec (1 # 10) level) as (Ha & Hb & Hcase).
  assert (Hle : Math_max (1 # 10) level <= 1).
  { destruct Hcase as [-> | ->]; [done|exact H1]. }
  generalize dependent (Math_max (1 # 10) level). intros i Ha Hb Hcase Hle.
  assert (Hlow : level <= 1 # 10 → i == 1 # 10).
  { intros Hl. destruct Hcase as [Hc|Hc]; [exact Hc|].
    apply Qle_antisym; [by rewrite Hc|exact Ha]. }
  repeat match goal with |- _ ∧ _ => split end.
  15: { intros Hl. specialize (Hlow Hl).
        repeat match goal with |- _ ∧ _ => split end;
          rewrite Hlow; reflexivity. }
  all: revert Ha Hle; destruct i as [n d];
    unfold Qle, Qplus, Qmult; cbn [Qnum Qden]; intros; lia.
Qed.

Lemma glow_witness :
  let glow := getDynamicGlow (1 # 2) in
  borderAlpha glow <= 1 ∧ borderAlpha glow == 65 # 100.
Proof.
  destruct (glow_is_valid (1 # 2)) as (_ & _ & _ & [_ H] & _); [done..|].
  split; [exact H|]. vm_compute. reflexivity.
Defined.

End Glow.
